(** * CyLPModel: the modelling layer of CyLP, embedded in Rocq

    Source: [src/py/modeling/CyLPModel.py].

    The Python module builds expression trees by operator overloading
    ([CyLPExpr], [CyLPVar]), replays them in postfix order against a
    constraint accumulator ([CyLPConstraint.perform]), assigns index
    ranges to blocks ([IndexFactory]) and assembles block matrices
    ([CyLPModel]).  Python objects are mutable and shared, so the
    embedding keeps an explicit object store: Variables, expression
    nodes and numeric arrays live in a heap of cells addressed by
    references, and every method is a function in a state-and-exception
    monad over that store.

    Numbers: the module only copies numeric entries, multiplies them by
    one or minus one and adds them to zero, so entries are modelled as
    exact rationals [Q]. *)

From Stdlib Require Import ZArith QArith Lia.
From stdpp Require Import base list list_numbers strings pretty sorting.
Close Scope Q_scope.


(** ** Values and objects *)

(** References are positions in the store. *)
Abbreviation ref := nat (only parsing).

(** What a Python name, an attribute or a postfix token can hold:
    [None], a string, a Python scalar ([float], [int], [long]) or a
    reference to an object of the store. *)
Inductive value :=
| VNone
| VStr (s : string)
| VNum (q : Q)
| VRef (r : ref).

(** A numeric array: one-dimensional ([CyLPArray], [np.array]) or
    two-dimensional ([np.matrix]), the latter as its list of rows. *)
Inductive ndarray :=
| Arr1 (a : list Q)
| Arr2 (m : list (list Q)).

Module CyLPVar.
Record t := mk {
  name : string;
  dim : Z;
  parentDim : Z;
  parent : option ref;
  isInt : bool;
  expr : ref;
  lower : list Q;
  upper : list Q;
  indices : option (list Z);
  fromInd : option Z;
  toInd : option Z }.

Definition set_expr (e : ref) (v : t) : t :=
  mk (name v) (dim v) (parentDim v) (parent v) (isInt v) e
     (lower v) (upper v) (indices v) (fromInd v) (toInd v).
Definition set_lower (l : list Q) (v : t) : t :=
  mk (name v) (dim v) (parentDim v) (parent v) (isInt v) (expr v)
     l (upper v) (indices v) (fromInd v) (toInd v).
Definition set_upper (u : list Q) (v : t) : t :=
  mk (name v) (dim v) (parentDim v) (parent v) (isInt v) (expr v)
     (lower v) u (indices v) (fromInd v) (toInd v).
End CyLPVar.

Module CyLPExpr.
(** An expression node that is not a Variable. *)
Record t := mk {
  opr : value;
  left : value;
  right : value;
  expr : ref }.

Definition set_expr (e : ref) (n : t) : t := mk (opr n) (left n) (right n) e.

(** [CyLPExpr.operators] *)
Definition operators : list string :=
  [">="; "<="; "=="; "+"; "-"; "*"; "u-"; "sum"].
End CyLPExpr.

Inductive cell :=
| CVar (v : CyLPVar.t)
| CExpr (e : CyLPExpr.t)
| CArr (a : ndarray).

Abbreviation heap := (list cell) (only parsing).

(** ** Dictionaries

    A Python [dict] as an association list in insertion order; assigning
    to a present key keeps its position. *)
Section Dict.
Context {K V : Type} (eqb : K -> K -> bool).

Fixpoint dict_get (k : K) (d : list (K * V)) : option V :=
  match d with
  | [] => None
  | (k', v) :: d' => if eqb k' k then Some v else dict_get k d'
  end.

Fixpoint dict_set (k : K) (v : V) (d : list (K * V)) : list (K * V) :=
  match d with
  | [] => [(k, v)]
  | (k', v') :: d' =>
      if eqb k' k then (k', v) :: d' else (k', v') :: dict_set k v d'
  end.

Definition dict_has (k : K) (d : list (K * V)) : bool :=
  match dict_get k d with Some _ => true | None => false end.

Definition dict_update (new d : list (K * V)) : list (K * V) :=
  fold_left (fun acc kv => dict_set (fst kv) (snd kv) acc) new d.
End Dict.

(** ** The constraint accumulator, the index factory and the model *)

Module CyLPConstraint.
Record t := mk {
  varNames : list string;
  parentVarDims : list (string * Z);
  varCoefs : list (ref * value);
  lower : value;
  upper : value;
  nRows : option Z;
  isRange : bool;
  variables : list ref }.

(** [CyLPConstraint.__init__] *)
Definition init : t := mk [] [] [] VNone VNone None true [].

Definition set_names (ns : list string) (ds : list (string * Z)) (c : t) : t :=
  mk ns ds (varCoefs c) (lower c) (upper c) (nRows c) (isRange c) (variables c).
Definition set_varCoefs (vc : list (ref * value)) (c : t) : t :=
  mk (varNames c) (parentVarDims c) vc (lower c) (upper c) (nRows c)
     (isRange c) (variables c).
Definition set_lower (l : value) (c : t) : t :=
  mk (varNames c) (parentVarDims c) (varCoefs c) l (upper c) (nRows c)
     (isRange c) (variables c).
Definition set_upper (u : value) (c : t) : t :=
  mk (varNames c) (parentVarDims c) (varCoefs c) (lower c) u (nRows c)
     (isRange c) (variables c).
Definition set_nRows (n : option Z) (c : t) : t :=
  mk (varNames c) (parentVarDims c) (varCoefs c) (lower c) (upper c) n
     (isRange c) (variables c).
Definition set_isRange (b : bool) (c : t) : t :=
  mk (varNames c) (parentVarDims c) (varCoefs c) (lower c) (upper c) (nRows c)
     b (variables c).
Definition set_variables (vs : list ref) (c : t) : t :=
  mk (varNames c) (parentVarDims c) (varCoefs c) (lower c) (upper c) (nRows c)
     (isRange c) vs.
End CyLPConstraint.

Module IndexFactory.
Record t := mk {
  varIndex : list (string * list Z);
  constIndex : list (string * list Z);
  currentVarIndex : Z;
  currentConstIndex : Z }.

(** [IndexFactory.__init__] *)
Definition init : t := mk [] [] 0 0.
End IndexFactory.

Module CyLPModel.
Record t := mk {
  variables : list ref;
  constraints : list CyLPConstraint.t;
  inds : IndexFactory.t;
  allVarNames : list string;
  allParentVarDims : list (string * Z);
  nRows : Z }.

(** [CyLPModel.__init__]; the attributes that [makeIndexFactory]
    creates start out empty. *)
Definition init : t := mk [] [] IndexFactory.init [] [] 0.

Definition set_variables (vs : list ref) (m : t) : t :=
  mk vs (constraints m) (inds m) (allVarNames m) (allParentVarDims m) (nRows m).
Definition set_constraints (cs : list CyLPConstraint.t) (m : t) : t :=
  mk (variables m) cs (inds m) (allVarNames m) (allParentVarDims m) (nRows m).
Definition set_inds (i : IndexFactory.t) (m : t) : t :=
  mk (variables m) (constraints m) i (allVarNames m) (allParentVarDims m) (nRows m).
Definition set_index (ns : list string) (ds : list (string * Z)) (n : Z) (m : t) : t :=
  mk (variables m) (constraints m) (inds m) ns ds n.
End CyLPModel.

(** ** The program state and its monad *)

Record world := mkWorld {
  objects : heap;
  model : CyLPModel.t }.

(** The messages of the module's own [raise Exception(...)] statements. *)
Inductive message :=
| ExpectedOneDimensional   (* "Expected 1-dimensional coefficient" *)
| ColumnsExpected          (* "Coefficient ... has %d columns expected %d" *)
| RowsExpected             (* "Coefficient ... has %d rows expected %d" *)
| OneSideConstant.         (* "At least one side of a comparison sign should be constant." *)

Inductive exn :=
| Exception (m : message)
| IndexError
| KeyError
| TypeError
| ValueError
| AttributeError
| RecursionError
| UnboundLocalError.

Inductive res (A : Type) :=
| Ok (a : A) (w : world)
| Raise (e : exn) (w : world).
Arguments Ok {A} a w.
Arguments Raise {A} e w.

Definition M (A : Type) := world -> res A.

Definition ret {A} (a : A) : M A := fun w => Ok a w.
Definition bind {A B} (m : M A) (k : A -> M B) : M B :=
  fun w => match m w with
           | Ok a w' => k a w'
           | Raise e w' => Raise e w'
           end.
Definition raise {A} (e : exn) : M A := fun w => Raise e w.

Declare Scope py_scope.
Delimit Scope py_scope with py.
Notation "x <- c1 ;; c2" := (bind c1 (fun x => c2))
  (at level 100, c1 at next level, right associativity) : py_scope.
Notation "c1 ;;; c2" := (bind c1 (fun _ => c2))
  (at level 100, right associativity) : py_scope.
Open Scope py_scope.

Definition get_heap : M heap := fun w => Ok (objects w) w.
Definition get_model : M CyLPModel.t := fun w => Ok (model w) w.
Definition put_model (m : CyLPModel.t) : M unit :=
  fun w => Ok tt (mkWorld (objects w) m).

(** A new object gets the next free reference. *)
Definition alloc (c : cell) : M ref :=
  fun w => Ok (length (objects w)) (mkWorld (objects w ++ [c]) (model w)).
Definition store (r : ref) (c : cell) : M unit :=
  fun w => Ok tt (mkWorld (<[r := c]> (objects w)) (model w)).

Fixpoint for_each {A} (l : list A) (body : A -> M unit) : M unit :=
  match l with
  | [] => ret tt
  | x :: l' => body x ;;; for_each l' body
  end.

Fixpoint fold_M {A S} (l : list A) (body : S -> A -> M S) (s : S) : M S :=
  match l with
  | [] => ret s
  | x :: l' => s' <- body s x ;; fold_M l' body s'
  end.

(** ** Classifying values, as [isinstance] and [__class__] do *)

Definition as_CyLPVar (h : heap) (v : value) : option (ref * CyLPVar.t) :=
  match v with
  | VRef r => match h !! r with Some (CVar x) => Some (r, x) | _ => None end
  | _ => None
  end.


(** [isinstance(v, CyLPExpr)]: [CyLPVar] is a subclass of [CyLPExpr]. *)
Definition isinstance_CyLPExpr (h : heap) (v : value) : bool :=
  match v with
  | VRef r => match h !! r with Some (CVar _) | Some (CExpr _) => true | _ => false end
  | _ => false
  end.

(** [v.__class__ == CyLPExpr] *)
Definition as_plain_CyLPExpr (h : heap) (v : value) : option CyLPExpr.t :=
  match v with
  | VRef r => match h !! r with Some (CExpr e) => Some e | _ => None end
  | _ => None
  end.

(** [isinstance(v, (float, long, int))] *)
Definition as_number (v : value) : option Q :=
  match v with VNum q => Some q | _ => None end.

Definition as_ndarray (h : heap) (v : value) : option ndarray :=
  match v with
  | VRef r => match h !! r with Some (CArr a) => Some a | _ => None end
  | _ => None
  end.

(** ** The numeric-array primitives the module calls

    These belong to numpy, which the module imports; they are written
    out for the shapes the module uses them on. *)

(** [getCoinInfinity()], the literal [1.79769313486e+308]. *)
Definition getCoinInfinity : Q := (179769313486 * 10 ^ 297 # 1)%Q.

(** [np.ones(dim)], [np.zeros(dim)]: a negative dimension is refused. *)
Definition np_ones (dim : Z) : M (list Q) :=
  if (dim <? 0)%Z then raise ValueError else ret (replicate (Z.to_nat dim) 1%Q).
Definition np_zeros (dim : Z) : M (list Q) :=
  if (dim <? 0)%Z then raise ValueError else ret (replicate (Z.to_nat dim) 0%Q).

(** [a *= -1], in place. *)
Definition negate (a : ndarray) : ndarray :=
  match a with
  | Arr1 l => Arr1 (map Qopp l)
  | Arr2 m => Arr2 (map (map Qopp) m)
  end.

(** [a.shape[-1]] *)
Definition last_axis (a : ndarray) : Z :=
  match a with
  | Arr1 l => Z.of_nat (length l)
  | Arr2 m => Z.of_nat (length (hd [] m))
  end.

(** [len(a)] *)
Definition np_len (a : ndarray) : Z :=
  match a with
  | Arr1 l => Z.of_nat (length l)
  | Arr2 m => Z.of_nat (length m)
  end.

Definition new_array (a : ndarray) : M value :=
  r <- alloc (CArr a) ;; ret (VRef r).

(** A position of a one-dimensional array of length [n]; a negative
    index counts from the end. *)
Definition position (n : nat) (i : Z) : option nat :=
  let j := if (i <? 0)%Z then (i + Z.of_nat n)%Z else i in
  if ((0 <=? j) && (j <? Z.of_nat n))%Z then Some (Z.to_nat j) else None.

(** The numbers an assignment [a[idx] = bound] reads from [bound]: a
    Python scalar counts as one entry, a single-row matrix as its row. *)
Definition bound_values (h : heap) (bound : value) : option (list Q) :=
  match bound with
  | VNum q => Some [q]
  | VRef _ =>
      match as_ndarray h bound with
      | Some (Arr1 l) => Some l
      | Some (Arr2 [l]) => Some l
      | _ => None
      end
  | _ => None
  end.

(** [a[idx] = vals] for an index array [idx] on a one-dimensional [a]:
    the [i]-th position listed gets the [i]-th value, the values being
    taken in order and started over when they run out, surplus values
    being dropped.  This is the assignment the module was written
    against: its usage example bounds the two entries of [x[1:3]] by
    the scalar [1.1] spread over the three entries of the block. *)
Fixpoint assign_indexed (a : list Q) (idx : list Z) (vals : list Q) (i : nat)
  : option (list Q) :=
  match idx with
  | [] => Some a
  | k :: idx' =>
      match position (length a) k, vals !! (i mod length vals)%nat with
      | Some p, Some x => assign_indexed (<[p := x]> a) idx' vals (S i)
      | _, _ => None
      end
  end.

(** [a[indices] = bound] on a one-dimensional array.  [indices] is
    [None] for an unsliced Variable: [a[None]] is the whole of [a] as
    one row, and the value is broadcast to it. *)
Definition setitem (a : list Q) (indices : option (list Z)) (vals : list Q)
  : M (list Q) :=
  match indices with
  | None =>
      if (length vals =? length a)%nat then ret vals
      else match vals with
           | [x] => ret (replicate (length a) x)
           | _ => raise ValueError
           end
  | Some idx =>
      match vals with
      | [] => ret a
      | _ => match assign_indexed a idx vals 0 with
             | Some a' => ret a'
             | None => raise IndexError
             end
      end
  end.

(** [a[indices] += vals] on a one-dimensional array: the indexed entries
    are read, [vals] is added to them by broadcasting, and the sums are
    written back. *)
Definition additem (a : list Q) (indices : option (list Z)) (coef : ndarray)
  : M (list Q) :=
  match indices with
  | None =>
      let row := match coef with Arr1 l => Some l | Arr2 [l] => Some l | _ => None end in
      match row with
      | Some l =>
          if (length l =? length a)%nat then ret (zip_with Qplus a l)
          else match l with
               | [x] => ret (map (fun y => Qplus y x) a)
               | _ => raise ValueError
               end
      | None => raise ValueError
      end
  | Some idx =>
      match coef with
      | Arr1 l =>
          match mapM (fun k => p ← position (length a) k; x ← a !! p; Some (p, x)) idx with
          | None => raise IndexError
          | Some tmp =>
              if (length l =? length idx)%nat
              then ret (fold_left
                          (fun acc px =>
                             <[fst (fst px) := Qplus (snd (fst px)) (snd px)]> acc)
                          (zip tmp l) a)
              else match l with
                   | [x] => ret (fold_left (fun acc px => <[fst px := Qplus (snd px) x]> acc) tmp a)
                   | _ => raise ValueError
                   end
          end
      | Arr2 _ => raise ValueError
      end
  end.

(** ** Variables and expression nodes *)

Definition alloc_self (mk : ref -> cell) : M ref :=
  fun w => let r := length (objects w) in
           Ok r (mkWorld (objects w ++ [mk r]) (model w)).

(** The attributes [CyLPVar.__init__(name, dim, isInt)] sets; [ones] is
    [np.ones(dim)].  The module never passes [fromInd] and [toInd],
    which leaves the three index attributes [None]. *)
Definition new_variable (name : string) (dim : Z) (isInt : bool) (self : ref)
    (ones : list Q) : CyLPVar.t :=
  CyLPVar.mk name dim dim None isInt self
    (map (Qmult (Qopp getCoinInfinity)) ones)
    (map (Qmult getCoinInfinity) ones)
    None None None.

Definition CyLPVar_init (name : string) (dim : Z) (isInt : bool) : M ref :=
  ones <- np_ones dim ;;
  alloc_self (fun self => CVar (new_variable name dim isInt self ones)).

Definition get_var (self : ref) : M CyLPVar.t :=
  h <- get_heap ;;
  match h !! self with
  | Some (CVar v) => ret v
  | _ => raise AttributeError
  end.

(** The key of a subscription: [x[k]] for an integer [k], or
    [x[start:stop]]. *)
Inductive key :=
| KInt (k : Z)
| KSlice (start stop : Z).

(** [type(key) == int]: a Python 2 [int] has the width of a C [long],
    taken as 64 bits; an integer beyond it is a [long], for which the
    test fails. *)
Definition is_int (k : Z) : bool := ((- 2 ^ 63 <=? k) && (k <? 2 ^ 63))%Z.

(** The entry of [np.array([key], np.int32)]: an [int] is reduced to
    32 bits, two's complement, without an error. *)
Definition int32 (k : Z) : Z := ((k + 2 ^ 31) mod 2 ^ 32 - 2 ^ 31)%Z.

(** [CyLPVar.__getitem__].  A key that is neither an [int] nor a slice
    takes neither branch, and [return newObj] finds no [newObj]. *)
Definition getitem (self : ref) (k : key) : M ref :=
  v <- get_var self ;;
  match k with
  | KInt i =>
      if is_int i then
        newObj <- CyLPVar_init (CyLPVar.name v) 1 false ;;
        o <- get_var newObj ;;
        store newObj (CVar (CyLPVar.mk (CyLPVar.name o) 1 (CyLPVar.dim v) (Some self)
                              (CyLPVar.isInt o) (CyLPVar.expr o) (CyLPVar.lower o)
                              (CyLPVar.upper o) (Some [int32 i]) None None)) ;;;
        ret newObj
      else raise UnboundLocalError
  | KSlice start stop =>
      let newObj_fromInd := start in
      let newObj_toInd := if (stop >? CyLPVar.dim v)%Z then CyLPVar.dim v else stop in
      newObj <- CyLPVar_init (CyLPVar.name v) (newObj_toInd - newObj_fromInd) false ;;
      o <- get_var newObj ;;
      let ind := seqZ newObj_fromInd (newObj_toInd - newObj_fromInd) in
      store newObj (CVar (CyLPVar.mk (CyLPVar.name o) (Z.of_nat (length ind))
                            (CyLPVar.dim v) (Some self)
                            (CyLPVar.isInt o) (CyLPVar.expr o) (CyLPVar.lower o)
                            (CyLPVar.upper o) (Some ind)
                            (Some newObj_fromInd) (Some newObj_toInd))) ;;;
      ret newObj
  end.

(** Truth of [fromInd and toInd]. *)
Definition truthy (o : option Z) : bool :=
  match o with Some n => negb (n =? 0)%Z | None => false end.

(** [CyLPVar.__repr__] *)
Definition repr (v : CyLPVar.t) : string :=
  let single :=
    match CyLPVar.indices v with
    | Some [i] => CyLPVar.name v +:+ "[" +:+ pretty i +:+ "]"
    | _ => CyLPVar.name v
    end in
  match CyLPVar.fromInd v, CyLPVar.toInd v with
  | Some f, Some t =>
      if truthy (Some f) && truthy (Some t)
      then CyLPVar.name v +:+ "[" +:+ pretty f +:+ ":" +:+ pretty t +:+ "]"
      else single
  | _, _ => single
  end.

(** [a == b] for two Variables: [str(a) == str(b)]. *)
Definition var_eq (h : heap) (a b : ref) : bool :=
  match h !! a, h !! b with
  | Some (CVar x), Some (CVar y) => String.eqb (repr x) (repr y)
  | _, _ => false
  end.

(** [var in l] for a list of Variables: identity, then [==]. *)
Definition var_in (h : heap) (r : ref) (l : list ref) : bool :=
  existsb (fun k => (k =? r)%nat || var_eq h k r) l.

(** [self.expr] and [self.expr = e], for a Variable or a node. *)
Definition get_expr (self : ref) : M ref :=
  h <- get_heap ;;
  match h !! self with
  | Some (CVar v) => ret (CyLPVar.expr v)
  | Some (CExpr e) => ret (CyLPExpr.expr e)
  | _ => raise AttributeError
  end.

Definition set_expr (self e : ref) : M unit :=
  h <- get_heap ;;
  match h !! self with
  | Some (CVar v) => store self (CVar (CyLPVar.set_expr e v))
  | Some (CExpr n) => store self (CExpr (CyLPExpr.set_expr e n))
  | _ => raise AttributeError
  end.

(** [CyLPExpr(opr, left, right)]; [__init__] sets [expr] to the node. *)
Definition CyLPExpr_init (opr left right : value) : M ref :=
  alloc_self (fun self => CExpr (CyLPExpr.mk opr left right self)).

(** [CyLPExpr.__le__], [__ge__]: the new node takes [self.expr] as its
    left operand, and [self.expr] is repointed to it. *)
Definition compare_node (opr : string) (self : ref) (other : value) : M ref :=
  e <- get_expr self ;;
  v <- CyLPExpr_init (VStr opr) (VRef e) other ;;
  set_expr self v ;;;
  ret v.

Definition CyLPExpr_le := compare_node "<=".
Definition CyLPExpr_ge := compare_node ">=".

(** [CyLPExpr.__eq__]: two Variables are compared as Python objects and
    give a [bool]; anything else builds a node. *)
Definition CyLPExpr_eq (self : ref) (other : value) : M value :=
  h <- get_heap ;;
  match as_CyLPVar h (VRef self), as_CyLPVar h other with
  | Some (_, x), Some (_, y) =>
      ret (VNum (if String.eqb (repr x) (repr y) then 1 else 0)%Q)
  | _, _ => v <- compare_node "==" self other ;; ret (VRef v)
  end.

(** [CyLPExpr.__rmul__], [__rsub__], [__radd__]: [other op self]. *)
Definition reflected_node (opr : string) (self : ref) (other : value) : M ref :=
  v <- CyLPExpr_init (VStr opr) other (VRef self) ;;
  set_expr self v ;;;
  ret v.

Definition CyLPExpr_rmul := reflected_node "*".
Definition CyLPExpr_rsub := reflected_node "-".
Definition CyLPExpr_radd := reflected_node "+".

(** [CyLPExpr.__neg__] and [CyLPVar.sum]: [left] keeps its default, the
    empty string. *)
Definition unary_node (opr : string) (self : ref) : M ref :=
  v <- CyLPExpr_init (VStr opr) (VStr "") (VRef self) ;;
  set_expr self v ;;;
  ret v.

Definition CyLPExpr_neg := unary_node "u-".
Definition CyLPVar_sum := unary_node "sum".

(** [CyLPExpr.getPostfix].  The recursion follows references through
    the store, so it is bounded by [fuel]; nodes only refer to objects
    created before them, so the number of objects is always enough
    ([getPostfix_total] below). *)
Fixpoint getPostfix (fuel : nat) (h : heap) (self : ref) : option (list value) :=
  match fuel with
  | O => None
  | S fuel' =>
      match h !! self with
      | Some (CVar _) => Some [VRef self]
      | Some (CExpr e) =>
          let side (v : value) :=
            match v with
            | VRef r => if isinstance_CyLPExpr h v then getPostfix fuel' h r
                        else Some [v]
            | _ => Some [v]
            end in
          l ← side (CyLPExpr.left e);
          r ← side (CyLPExpr.right e);
          Some (l ++ r ++ [CyLPExpr.opr e])
      | _ => None
      end
  end.

(** ** [CyLPConstraint.perform] *)

Definition str_in (s : string) (l : list string) : bool := existsb (String.eqb s) l.

(** [if v.name not in self.varNames: ...append...; self.parentVarDims[...] = ...] *)
Definition add_name (v : CyLPVar.t) (c : CyLPConstraint.t) : CyLPConstraint.t :=
  if str_in (CyLPVar.name v) (CyLPConstraint.varNames c) then c
  else CyLPConstraint.set_names
         (CyLPConstraint.varNames c ++ [CyLPVar.name v])
         (dict_set String.eqb (CyLPVar.name v) (CyLPVar.parentDim v)
            (CyLPConstraint.parentVarDims c))
         c.

(** [self.varCoefs[var] = coef] *)
Definition set_coef (var : ref) (coef : value) (c : CyLPConstraint.t) : CyLPConstraint.t :=
  CyLPConstraint.set_varCoefs (dict_set Nat.eqb var coef (CyLPConstraint.varCoefs c)) c.

(** [self.nRows and self.nRows != n] *)
Definition nRows_conflicts (c : CyLPConstraint.t) (n : Z) : bool :=
  match CyLPConstraint.nRows c with
  | Some k => negb (k =? 0)%Z && negb (k =? n)%Z
  | None => false
  end.

(** [self.varCoefs[key] *= -1]: the dictionary is keyed by object
    identity, and the array found is negated in place. *)
Definition negate_coef (c : CyLPConstraint.t) (key : value) : M unit :=
  h <- get_heap ;;
  match key with
  | VRef k =>
      match h !! k with
      | Some (CArr _) => raise TypeError
      | _ =>
          match dict_get Nat.eqb k (CyLPConstraint.varCoefs c) with
          | None => raise KeyError
          | Some (VRef a) =>
              match h !! a with
              | Some (CArr arr) => store a (CArr (negate arr))
              | _ => raise TypeError
              end
          | Some _ => raise TypeError
          end
      end
  | _ => raise KeyError
  end.

(** The all-ones coefficient of a bare Variable in a sum:
    [ones = CyLPArray(np.ones(v.dim)); self.varCoefs[v] = ones;
     self.nRows = 1; ... name ...]. *)
Definition ones_coef (negated : bool) (r : ref) (v : CyLPVar.t) (c : CyLPConstraint.t)
  : M CyLPConstraint.t :=
  o <- np_ones (CyLPVar.dim v) ;;
  ones <- new_array (Arr1 (if negated then map Qopp o else o)) ;;
  ret (add_name v (CyLPConstraint.set_nRows (Some 1%Z) (set_coef r ones c))).

(** Lines 220-243: [opr == "*"], setting the coefficient of [right]. *)
Definition perform_mul (left : value) (r : ref) (rv : CyLPVar.t) (c : CyLPConstraint.t)
  : M CyLPConstraint.t :=
  match as_number left with
  | Some q =>
      if nRows_conflicts c 1 then raise (Exception ExpectedOneDimensional)
      else
        o <- np_ones (CyLPVar.dim rv) ;;
        coef <- new_array (Arr1 (map (Qmult q) o)) ;;
        ret (CyLPConstraint.set_isRange false
               (set_coef r coef (CyLPConstraint.set_nRows (Some 1%Z) c)))
  | None =>
      h <- get_heap ;;
      match as_ndarray h left with
      | None => raise AttributeError
      | Some a =>
          if negb (CyLPVar.dim rv =? last_axis a)%Z then
            (* the message is built from [left.shape[1]] *)
            match a with
            | Arr1 _ => raise IndexError
            | Arr2 _ => raise (Exception ColumnsExpected)
            end
          else
            let nr := match a with Arr1 _ => 1%Z | Arr2 _ => np_len a end in
            if nRows_conflicts c nr then raise (Exception RowsExpected)
            else ret (CyLPConstraint.set_isRange false
                        (set_coef r left (CyLPConstraint.set_nRows (Some nr) c)))
      end
  end.

(** Lines 245-268: [opr == "+" or opr == "-"] with a Variable on the right. *)
Definition perform_addsub (opr : string) (left : value) (r : ref) (rv : CyLPVar.t)
    (c : CyLPConstraint.t) : M CyLPConstraint.t :=
  let c := CyLPConstraint.set_isRange false c in
  h <- get_heap ;;
  c <- match as_CyLPVar h left with
       | Some (l, lv) => ones_coef false l lv c
       | None => ret c
       end ;;
  h <- get_heap ;;
  if var_in h r (map fst (CyLPConstraint.varCoefs c))
  then negate_coef c (VRef r) ;;; ret c
  else ones_coef (String.eqb opr "-") r rv c.

(** Lines 204-268: the right operand is a Variable. *)
Definition perform_right (opr : string) (left right : value) (c : CyLPConstraint.t)
  : M CyLPConstraint.t :=
  h <- get_heap ;;
  match as_CyLPVar h right with
  | None => ret c
  | Some (r, rv) =>
      let c := add_name rv c in
      if String.eqb opr "u-" then
        o <- np_ones (CyLPVar.dim rv) ;;
        ones <- new_array (Arr1 (map Qopp o)) ;;
        ret (CyLPConstraint.set_nRows (Some (CyLPVar.dim rv))
               (CyLPConstraint.set_isRange false (set_coef r ones c)))
      else if String.eqb opr "sum" then ret c
      else
        c <- (if String.eqb opr "*" then perform_mul left r rv c else ret c) ;;
        if String.eqb opr "+" || String.eqb opr "-"
        then perform_addsub opr left r rv c
        else ret c
  end.

(** Lines 270-278: a bare Variable on the left of [+] or [-]. *)
Definition perform_left (opr : string) (left : value) (c : CyLPConstraint.t)
  : M CyLPConstraint.t :=
  h <- get_heap ;;
  match as_CyLPVar h left with
  | Some (l, lv) =>
      if String.eqb opr "-" || String.eqb opr "+"
      then ones_coef false l lv (CyLPConstraint.set_isRange false c)
      else ret c
  | None => ret c
  end.

(** Lines 280-286: the right operand of [-] is an earlier partial result. *)
Definition perform_negate (opr : string) (right : value) (c : CyLPConstraint.t)
  : M CyLPConstraint.t :=
  h <- get_heap ;;
  match as_plain_CyLPExpr h right with
  | Some e =>
      if String.eqb opr "-"
      then let c := CyLPConstraint.set_isRange false c in
           negate_coef c (CyLPExpr.right e) ;;; ret c
      else ret c
  | None => ret c
  end.

Definition is_comparison (opr : string) : bool := str_in opr ["<="; ">="; "=="].

(** [var.parent.lower[var.indices] = bound] when the Variable has a
    parent, [var.lower[var.indices] = bound] otherwise; [upper] likewise. *)
Definition write_bound (is_lower : bool) (var : ref) (bound : value) : M unit :=
  v <- get_var var ;;
  let owner := match CyLPVar.parent v with Some p => p | None => var end in
  o <- get_var owner ;;
  h <- get_heap ;;
  match bound_values h bound with
  | None => raise TypeError
  | Some vals =>
      if is_lower then
        l <- setitem (CyLPVar.lower o) (CyLPVar.indices v) vals ;;
        store owner (CVar (CyLPVar.set_lower l o))
      else
        u <- setitem (CyLPVar.upper o) (CyLPVar.indices v) vals ;;
        store owner (CVar (CyLPVar.set_upper u o))
  end.

(** [len(bound)]: an array and a string have a length (the
    placeholder [''] of a unary node has length 0), a number and [None]
    have none, and neither has an instance of the module's classes,
    which define no [__len__]. *)
Definition len (h : heap) (bound : value) : M Z :=
  match bound with
  | VStr s => ret (Z.of_nat (String.length s))
  | VRef _ =>
      match as_ndarray h bound with
      | Some a => ret (np_len a)
      | None => raise AttributeError
      end
  | _ => raise TypeError
  end.

(** [getCoinInfinity() * np.ones(len(bound))], with either sign. *)
Definition infinite_bound (negative : bool) (bound : value) : M value :=
  h <- get_heap ;;
  n <- len h bound ;;
  o <- np_ones n ;;
  new_array (Arr1 (map (Qmult (if negative then Qopp getCoinInfinity
                               else getCoinInfinity)) o)).

(** Lines 288-343: the comparison operators. *)
Definition perform_compare (opr : string) (left right : value) (c : CyLPConstraint.t)
  : M CyLPConstraint.t :=
  h <- get_heap ;;
  let sl := isinstance_CyLPExpr h left in
  let sr := isinstance_CyLPExpr h right in
  bound <- (if sl && negb sr then ret right
            else if sr && negb sl then ret left
            else raise (Exception OneSideConstant)) ;;
  cd <- (if CyLPConstraint.isRange c then
           match CyLPConstraint.variables c with
           | [] => raise IndexError
           | var :: _ =>
               v <- get_var var ;;
               ret (CyLPConstraint.set_nRows (Some (CyLPVar.parentDim v)) c,
                    Some (CyLPVar.parentDim v))
           end
         else ret (c, CyLPConstraint.nRows c)) ;;
  let c := fst cd in
  let dim := snd cd in
  bound <- match as_number right with
           | Some q =>
               match dim with
               | None => raise TypeError
               | Some d => o <- np_ones d ;; new_array (Arr1 (map (Qmult q) o))
               end
           | None => ret bound
           end ;;
  let sets_lower := (str_in opr [">="; "=="] && sl) || (str_in opr ["<="; "=="] && sr) in
  let sets_upper := (str_in opr ["<="; "=="] && sl) || (str_in opr [">="; "=="] && sr) in
  if CyLPConstraint.isRange c then
    match CyLPConstraint.variables c with
    | [] => raise IndexError
    | var :: _ =>
        (if sets_lower then write_bound true var bound else ret tt) ;;;
        (if sets_upper then write_bound false var bound else ret tt) ;;;
        ret c
    end
  else
    c <- (if sets_lower then
            let c := CyLPConstraint.set_lower bound c in
            match CyLPConstraint.upper c with
            | VNone => u <- infinite_bound false bound ;;
                       ret (CyLPConstraint.set_upper u c)
            | _ => ret c
            end
          else ret c) ;;
    if sets_upper then
      let c := CyLPConstraint.set_upper bound c in
      match CyLPConstraint.lower c with
      | VNone => l <- infinite_bound true bound ;;
                 ret (CyLPConstraint.set_lower l c)
      | _ => ret c
      end
    else ret c.

(** [CyLPConstraint.perform(opr, left, right)] *)
Definition perform (opr : string) (left right : value) (c : CyLPConstraint.t)
  : M CyLPConstraint.t :=
  c <- perform_right opr left right c ;;
  c <- perform_left opr left c ;;
  c <- perform_negate opr right c ;;
  if is_comparison opr then perform_compare opr left right c else ret c.

(** ** [CyLPExpr.evaluate] *)

(** [type(token) != str or token not in CyLPExpr.operators] fails. *)
Definition as_operator (token : value) : option string :=
  match token with
  | VStr s => if str_in s CyLPExpr.operators then Some s else None
  | _ => None
  end.

(** One round of the token loop; the operand stack has its top first. *)
Definition evaluate_token (st : list value * CyLPConstraint.t) (token : value)
  : M (list value * CyLPConstraint.t) :=
  let operands := fst st in
  let cons := snd st in
  match as_operator token with
  | None =>
      h <- get_heap ;;
      match as_CyLPVar h token with
      | Some (r, _) =>
          if var_in h r (CyLPConstraint.variables cons)
          then ret (token :: operands, cons)
          else ret (token :: operands,
                    CyLPConstraint.set_variables (CyLPConstraint.variables cons ++ [r]) cons)
      | None => ret (token :: operands, cons)
      end
  | Some opr =>
      if String.eqb opr "u-" then
        match operands with
        | rgt :: rest =>
            cons <- perform opr VNone rgt cons ;;
            p <- CyLPExpr_init token (VStr "") rgt ;;
            ret (VRef p :: rest, cons)
        | _ => raise IndexError
        end
      else
        match operands with
        | rgt :: lft :: rest =>
            cons <- perform opr lft rgt cons ;;
            p <- CyLPExpr_init token lft rgt ;;
            ret (VRef p :: rest, cons)
        | _ => raise IndexError
        end
  end.

Definition evaluate (self : ref) : M CyLPConstraint.t :=
  h <- get_heap ;;
  match getPostfix (length h) h self with
  | None => raise RecursionError
  | Some tokens =>
      st <- fold_M tokens evaluate_token ([], CyLPConstraint.init) ;;
      let operands := fst st in
      let cons := snd st in
      h <- get_heap ;;
      cons <- match operands with
              | [t] =>
                  match as_CyLPVar h t with
                  | Some (r, v) =>
                      o <- np_ones (CyLPVar.dim v) ;;
                      ones <- new_array (Arr1 o) ;;
                      ret (set_coef r ones cons)
                  | None => ret cons
                  end
              | _ => ret cons
              end ;;
      (* Reset variables for future constraints *)
      for_each (map fst (CyLPConstraint.varCoefs cons)) (fun var => set_expr var var) ;;;
      ret cons
  end.

(** ** [IndexFactory] *)

(** [range(a, a + n)] *)
Definition range (a n : Z) : list Z := seqZ a n.

(** The body shared by [addVar] and [addConst], on one name space:
    the dictionary and its running index. *)
Definition add_range (name : string) (n : Z) (index : list (string * list Z)) (current : Z)
  : list (string * list Z) * Z :=
  if (n =? 0)%Z then (index, current)
  else
    (match dict_get String.eqb name index with
     | Some old => dict_set String.eqb name (old ++ range current n) index
     | None => dict_set String.eqb name (range current n) index
     end,
     (current + n)%Z).

Definition addVar (varName : string) (numberOfVars : Z) (f : IndexFactory.t) : IndexFactory.t :=
  let '(index, current) :=
    add_range varName numberOfVars (IndexFactory.varIndex f) (IndexFactory.currentVarIndex f) in
  IndexFactory.mk index (IndexFactory.constIndex f) current (IndexFactory.currentConstIndex f).

Definition addConst (constName : string) (numberOfConsts : Z) (f : IndexFactory.t)
  : IndexFactory.t :=
  let '(index, current) :=
    add_range constName numberOfConsts (IndexFactory.constIndex f)
      (IndexFactory.currentConstIndex f) in
  IndexFactory.mk (IndexFactory.varIndex f) index (IndexFactory.currentVarIndex f) current.

Definition hasVar (varName : string) (f : IndexFactory.t) : bool :=
  dict_has String.eqb varName (IndexFactory.varIndex f).

Definition hasConst (constName : string) (f : IndexFactory.t) : bool :=
  dict_has String.eqb constName (IndexFactory.constIndex f).

(** ** [CyLPModel] *)

(** [CyLPModel.addVariable] *)
Definition addVariable (name : string) (dim : Z) (isInt : bool) : M ref :=
  var <- CyLPVar_init name dim isInt ;;
  m <- get_model ;;
  put_model (CyLPModel.set_variables (CyLPModel.variables m ++ [var]) m) ;;;
  ret var.

(** [CyLPModel.makeIndexFactory] *)
Definition makeIndexFactory : M unit :=
  m <- get_model ;;
  put_model (CyLPModel.set_index [] [] 0 m) ;;;
  for_each (CyLPModel.constraints m) (fun c =>
    for_each (CyLPModel.variables m) (fun var =>
      v <- get_var var ;;
      m <- get_model ;;
      let new := List.filter (fun vname =>
                   negb (str_in vname (CyLPModel.allVarNames m))
                   && String.eqb vname (CyLPVar.name v))
                   (CyLPConstraint.varNames c) in
      put_model (CyLPModel.set_index (CyLPModel.allVarNames m ++ new)
                   (CyLPModel.allParentVarDims m) (CyLPModel.nRows m) m)) ;;;
    m <- get_model ;;
    let dims := dict_update String.eqb (CyLPConstraint.parentVarDims c)
                  (CyLPModel.allParentVarDims m) in
    put_model (CyLPModel.set_index (CyLPModel.allVarNames m) dims (CyLPModel.nRows m) m) ;;;
    match CyLPConstraint.nRows c with
    | None => raise TypeError
    | Some n =>
        put_model (CyLPModel.set_index (CyLPModel.allVarNames m) dims
                     (CyLPModel.nRows m + n)%Z m)
    end) ;;;
  m <- get_model ;;
  for_each (CyLPModel.allVarNames m) (fun varName =>
    m <- get_model ;;
    if hasVar varName (CyLPModel.inds m) then ret tt
    else match dict_get String.eqb varName (CyLPModel.allParentVarDims m) with
         | None => raise KeyError
         | Some d => put_model (CyLPModel.set_inds (addVar varName d (CyLPModel.inds m)) m)
         end).

Inductive direction := Vertical | Horizontal.

Definition rows (a : ndarray) : list (list Q) :=
  match a with Arr1 l => [l] | Arr2 m => m end.

(** Modelled from the spec: [sparseConcat] is imported from
    [CyLP.py.utils.sparseUtil], whose source is not at hand.  The spec
    describes it as block-stacking of matrix fragments, vertical or
    horizontal; the module starts every accumulation from [None], which
    is therefore taken as the empty stack.  A one-dimensional array
    counts as one row, and fragments that do not fit are refused. *)
Definition sparseConcat (a : option ndarray) (b : ndarray) (how : direction) : M ndarray :=
  match a with
  | None => ret b
  | Some a =>
      match how with
      | Vertical =>
          if forallb (fun r => forallb (fun r' => (length r =? length r')%nat) (rows b)) (rows a)
          then ret (Arr2 (rows a ++ rows b))
          else raise ValueError
      | Horizontal =>
          if (length (rows a) =? length (rows b))%nat
          then ret (Arr2 (zip_with app (rows a) (rows b)))
          else raise ValueError
      end
  end.

(** [c.varCoefs[var]], read as the array it refers to. *)
Definition coef_array (c : CyLPConstraint.t) (var : ref) : M ndarray :=
  h <- get_heap ;;
  match dict_get Nat.eqb var (CyLPConstraint.varCoefs c) with
  | None => raise KeyError
  | Some v => match as_ndarray h v with
              | Some a => ret a
              | None => raise TypeError
              end
  end.

(** The fragment of one constraint in [generateVarMatrix]. *)
Definition constraint_fragment (varName : string) (dim : Z) (c : CyLPConstraint.t)
  : M ndarray :=
  h <- get_heap ;;
  let keys := List.filter (fun k => match h !! k with
                                    | Some (CVar v) => String.eqb (CyLPVar.name v) varName
                                    | _ => false
                                    end)
                (map fst (CyLPConstraint.varCoefs c)) in
  match keys with
  | [] =>
      match CyLPConstraint.nRows c with
      | None => raise TypeError
      | Some n =>
          z <- np_zeros dim ;;
          if (n <? 0)%Z then raise ValueError else ret (Arr2 (replicate (Z.to_nat n) z))
      end
  | k0 :: others =>
      if match CyLPConstraint.nRows c with Some 1%Z => true | _ => false end then
        z <- np_zeros dim ;;
        coef <- fold_M keys (fun coef var =>
                  v <- get_var var ;;
                  a <- coef_array c var ;;
                  additem coef (CyLPVar.indices v) a) z ;;
        ret (Arr1 coef)
      else
        (* Constraint has matrix coefficients *)
        coef <- coef_array c k0 ;;
        fold_M others (fun coef var =>
          a <- coef_array c var ;;
          sparseConcat (Some coef) a Vertical) coef
  end.

(** [CyLPModel.generateVarMatrix] *)
Definition generateVarMatrix (varName : string) : M (option ndarray) :=
  m <- get_model ;;
  match dict_get String.eqb varName (CyLPModel.allParentVarDims m) with
  | None => raise KeyError
  | Some dim =>
      fold_M (CyLPModel.constraints m) (fun mainCoef c =>
        coef <- constraint_fragment varName dim c ;;
        r <- sparseConcat mainCoef coef Vertical ;;
        ret (Some r)) None
  end.

(** [np.concatenate((acc, bound), axis=0)] onto a one-dimensional
    accumulator: the operand must itself be a one-dimensional array. *)
Definition concatenate (acc : list Q) (bound : value) : M (list Q) :=
  h <- get_heap ;;
  match as_ndarray h bound with
  | Some (Arr1 l) => ret (acc ++ l)
  | _ => raise ValueError
  end.

Record matrices := mkMatrices {
  masterCoefMat : option ndarray;
  c_lower : list Q;
  c_upper : list Q;
  v_lower : list Q;
  v_upper : list Q }.

(** [CyLPModel.makeMatrices] *)
Definition makeMatrices : M matrices :=
  makeIndexFactory ;;;
  m <- get_model ;;
  master <- fold_M (CyLPModel.allVarNames m) (fun acc varName =>
              vmat <- generateVarMatrix varName ;;
              match vmat with
              | None => raise TypeError
              | Some vmat => r <- sparseConcat acc vmat Horizontal ;; ret (Some r)
              end) None ;;
  cl <- fold_M (CyLPModel.constraints m) (fun acc c =>
          if CyLPConstraint.isRange c then ret acc
          else concatenate acc (CyLPConstraint.lower c)) [] ;;
  cu <- fold_M (CyLPModel.constraints m) (fun acc c =>
          if CyLPConstraint.isRange c then ret acc
          else concatenate acc (CyLPConstraint.upper c)) [] ;;
  vl <- fold_M (CyLPModel.variables m) (fun acc v =>
          x <- get_var v ;; ret (acc ++ CyLPVar.lower x)) [] ;;
  vu <- fold_M (CyLPModel.variables m) (fun acc v =>
          x <- get_var v ;; ret (acc ++ CyLPVar.upper x)) [] ;;
  ret (mkMatrices master cl cu vl vu).

(** [CyLPModel.addConstraint]: the expression is evaluated once to see
    whether it is a range, and once more for the constraint that is kept. *)
Definition addConstraint (cons : ref) : M unit :=
  c <- evaluate cons ;;
  (if negb (CyLPConstraint.isRange c) then
     c' <- evaluate cons ;;
     m <- get_model ;;
     put_model (CyLPModel.set_constraints (CyLPModel.constraints m ++ [c']) m)
   else ret tt) ;;;
  makeMatrices ;;;
  ret tt.

(** ** [CyLPArray]

    The class overrides eight special methods of [np.ndarray]; every
    override returns [NotImplemented] when the other operand is an
    instance of [CyLPExpr] and calls the method of [np.ndarray]
    otherwise.  A special method the class does not define is inherited
    from [np.ndarray]. *)

Inductive special :=
| m_le | m_ge | m_eq | m_lt | m_gt | m_ne
| m_add | m_radd | m_sub | m_rsub | m_mul | m_rmul.

(** The [def]s in the body of [class CyLPArray(np.ndarray)]. *)
Definition CyLPArray_defines (m : special) : bool :=
  match m with
  | m_le | m_ge | m_mul | m_rmul | m_add | m_radd | m_rsub | m_sub => true
  | m_eq | m_lt | m_gt | m_ne => false
  end.

Inductive outcome :=
| NotImplemented               (* the array yields to the other operand *)
| ndarray_method (m : special). (* [np.ndarray.m(self, other)] decides *)

(** What calling special method [m] of a [CyLPArray] with [other] does. *)
Definition CyLPArray_call (h : heap) (m : special) (other : value) : outcome :=
  if CyLPArray_defines m then
    if isinstance_CyLPExpr h other then NotImplemented else ndarray_method m
  else ndarray_method m.

(** The special methods behind [<=], [>=], [+], [-], [*] and the
    reverse forms of the last three. *)
Definition overridden_methods : list special :=
  [m_le; m_ge; m_add; m_sub; m_mul; m_radd; m_rsub; m_rmul].

(** ** Running the module on concrete programs

    Each scenario below is a short client program, written as the
    sequence of method calls Python makes for it.  A binary operator
    whose left operand is a number or an array that yields ends in the
    reflected method of the symbolic right operand: [2 * x] is
    [x.__rmul__(2)], [y - e] is [e.__rsub__(y)] (a Variable has no
    [__sub__]), and [1.1 <= s] is [s.__ge__(1.1)]. *)

Definition empty_world : world := mkWorld [] CyLPModel.init.

Definition lower_of (w : world) (var : ref) : option (list Q) :=
  match objects w !! var with Some (CVar v) => Some (CyLPVar.lower v) | _ => None end.
Definition upper_of (w : world) (var : ref) : option (list Q) :=
  match objects w !! var with Some (CVar v) => Some (CyLPVar.upper v) | _ => None end.
Definition expr_of (w : world) (r : ref) : option ref :=
  match objects w !! r with
  | Some (CVar v) => Some (CyLPVar.expr v)
  | Some (CExpr e) => Some (CyLPExpr.expr e)
  | _ => None
  end.

(** The coefficient arrays a constraint records, as they read in [w]. *)
Definition coef_values (w : world) (c : CyLPConstraint.t) : list (option ndarray) :=
  map (fun kv => as_ndarray (objects w) (snd kv)) (CyLPConstraint.varCoefs c).
Definition bound_of (w : world) (b : value) : option ndarray := as_ndarray (objects w) b.

(** [x = model.addVariable('x', 3)] and the expression
    [coef * x[1:3] <= bound]; [then] is what is done with it. *)
Definition slice_constraint {A} (coef bound : ndarray) (and_then : ref -> M A) : M A :=
  x <- addVariable "x" 3 false ;;
  v <- getitem x (KSlice 1 3) ;;
  coef <- new_array coef ;;
  e <- CyLPExpr_rmul v coef ;;
  bound <- new_array bound ;;
  e <- CyLPExpr_le e bound ;;
  and_then e.

(** [x = model.addVariable('x', 3)] and the chained comparison
    [1.1 <= x[1:3] <= CyLPArray([2.0, 3.5])]: Python evaluates
    [s = x[1:3]] once, then [1.1 <= s], which is [s.__ge__(1.1)], and,
    that node being true as an object, [s <= x_u]. *)
Definition range_scenario {A} (and_then : ref -> M A) : M (ref * A) :=
  x <- addVariable "x" 3 false ;;
  s <- getitem x (KSlice 1 3) ;;
  _ <- CyLPExpr_ge s (VNum 1.1%Q) ;;
  x_u <- new_array (Arr1 [2.0%Q; 3.5%Q]) ;;
  e <- CyLPExpr_le s x_u ;;
  a <- and_then e ;;
  ret (x, a).

(** The expression [y - c * x <= 5] over a two-entry [x], a one-entry
    [y] and the coefficient array [c], which the caller owns. *)
Definition difference_expr (c : value) : M (ref * ref) :=
  x <- CyLPVar_init "x" 2 false ;;
  y <- CyLPVar_init "y" 1 false ;;
  cx <- CyLPExpr_rmul x c ;;
  d <- CyLPExpr_rsub cx (VRef y) ;;
  e <- CyLPExpr_le d (VNum 5%Q) ;;
  ret (x, e).

(** The expression is evaluated; then it is written again over fresh
    copies of its variables and evaluated again.  Each coefficient map
    is read when its evaluation returns. *)
Definition evaluate_twice : M (list (option ndarray) * list (option ndarray)) :=
  c <- new_array (Arr1 [1%Q; 2%Q]) ;;
  xe <- difference_expr c ;;
  first <- evaluate (snd xe) ;;
  first_coefs <- (fun w => Ok (coef_values w first) w) ;;
  xe' <- difference_expr c ;;
  second <- evaluate (snd xe') ;;
  second_coefs <- (fun w => Ok (coef_values w second) w) ;;
  ret (first_coefs, second_coefs).

(** [model.addConstraint(y - c * x <= 5)], and the coefficients of the
    constraint the model keeps. *)
Definition add_difference : M (list (option ndarray)) :=
  c <- new_array (Arr1 [1%Q; 2%Q]) ;;
  xe <- difference_expr c ;;
  addConstraint (snd xe) ;;;
  m <- get_model ;;
  fun w => Ok (concat (map (coef_values w) (CyLPModel.constraints m))) w.

(** The names of the model's variables, in creation order. *)
Definition variable_names : M (list string) :=
  m <- get_model ;;
  fold_M (CyLPModel.variables m)
    (fun acc v => x <- get_var v ;; ret (acc ++ [CyLPVar.name x])) [].

(** [x = model.addVariable('x', 3); y = model.addVariable('y', 2);
     model.addConstraint(2 * y <= 5); model.addConstraint(2 * x <= 5)] *)
Definition y_before_x : M (list string) :=
  x <- addVariable "x" 3 false ;;
  y <- addVariable "y" 2 false ;;
  e <- CyLPExpr_rmul y (VNum 2%Q) ;;
  e <- CyLPExpr_le e (VNum 5%Q) ;;
  addConstraint e ;;;
  e <- CyLPExpr_rmul x (VNum 2%Q) ;;
  e <- CyLPExpr_le e (VNum 5%Q) ;;
  addConstraint e ;;;
  variable_names.

(** [y = model.addVariable('y', 2)] and the expression [y >= 0]. *)
Definition nonnegative_y {A} (and_then : ref -> M A) : M (ref * ref * A) :=
  y <- addVariable "y" 2 false ;;
  e <- CyLPExpr_ge y (VNum 0%Q) ;;
  a <- and_then e ;;
  ret (y, e, a).

(** ** Sequences of [IndexFactory] calls *)

Inductive call :=
| AddVar (name : string) (n : Z)
| AddConst (name : string) (n : Z).

Definition count (c : call) : Z :=
  match c with AddVar _ n | AddConst _ n => n end.

Definition run_call (f : IndexFactory.t) (c : call) : IndexFactory.t :=
  match c with
  | AddVar name n => addVar name n f
  | AddConst name n => addConst name n f
  end.

(** The calls made in order on a new factory. *)
Definition run_calls (cs : list call) : IndexFactory.t :=
  fold_left run_call cs IndexFactory.init.

(** The sums of the counts given to [addVar] and to [addConst]. *)
Definition var_total (cs : list call) : Z :=
  fold_right (fun c acc => match c with AddVar _ n => (n + acc)%Z | _ => acc end) 0%Z cs.
Definition const_total (cs : list call) : Z :=
  fold_right (fun c acc => match c with AddConst _ n => (n + acc)%Z | _ => acc end) 0%Z cs.

(** Every index assigned in one name space, range after range. *)
Definition assigned (index : list (string * list Z)) : list Z := concat (map snd index).

(** The ranges of a name space are pairwise disjoint, no index is
    assigned twice, and together they are the [total] indices
    [0, ..., total - 1]. *)
Definition ranges_partition (index : list (string * list Z)) (total : Z) : Prop :=
  (forall n1 n2 r1 r2,
      n1 <> n2 ->
      dict_get String.eqb n1 index = Some r1 ->
      dict_get String.eqb n2 index = Some r2 ->
      forall i, i ∈ r1 -> i ∉ r2)
  /\ NoDup (assigned index)
  /\ Z.of_nat (length (assigned index)) = total
  /\ assigned index ≡ₚ seqZ 0 total.

(** Adding [n] more entries under a name that already has range [old]
    keeps [old] as it is and appends [n] indices that were not assigned
    before, to any name. *)
Definition extends_range (index index' : list (string * list Z)) (name : string)
    (old : list Z) (n : Z) : Prop :=
  exists new,
    dict_get String.eqb name index' = Some (old ++ new)
    /\ Z.of_nat (length new) = n
    /\ (forall i, i ∈ new -> i ∉ assigned index)
    /\ (forall other, other <> name ->
          dict_get String.eqb other index' = dict_get String.eqb other index).

(** ** Notions used in the statements *)

Definition final_world {A} (r : res A) : world :=
  match r with Ok _ w => w | Raise _ w => w end.



(** A computation that keeps [P] true of the state, however it ends. *)
Definition preserves (P : world -> Prop) {A} (m : M A) : Prop :=
  forall w, P w -> P (final_world (m w)).

(** The store and the model's list of constraints are [h] and [cs]. *)
Definition same_constraints (h : heap) (cs : list CyLPConstraint.t) (w : world) : Prop :=
  objects w = h /\ CyLPModel.constraints (model w) = cs.

(** Every operand of a node that is itself symbolic was created before
    the node: the constructors of [CyLPExpr] only take existing objects. *)
Definition operands_older (h : heap) : Prop :=
  forall r e c,
    h !! r = Some (CExpr e) ->
    CyLPExpr.left e = VRef c \/ CyLPExpr.right e = VRef c ->
    isinstance_CyLPExpr h (VRef c) = true ->
    c < r.

(** An operand that is not itself a built-up node. *)
Definition leaf (h : heap) (v : value) : Prop := as_plain_CyLPExpr h v = None.


(** The state of a factory after calls whose counts add up to [vt] for
    [addVar] and [ct] for [addConst]. *)
Definition factory_inv (f : IndexFactory.t) (vt ct : Z) : Prop :=
  (0 <= vt)%Z /\ (0 <= ct)%Z
  /\ IndexFactory.currentVarIndex f = vt
  /\ IndexFactory.currentConstIndex f = ct
  /\ assigned (IndexFactory.varIndex f) ≡ₚ seqZ 0 vt
  /\ assigned (IndexFactory.constIndex f) ≡ₚ seqZ 0 ct.

(** The bound arrays of the unsliced Variable [v], which was [x], once
    [v opr c] has been evaluated: for [>=] every entry of [lower] is
    [c], for [<=] every entry of [upper]; the other array is as before. *)
Definition bound_set (opr : string) (v : ref) (x : CyLPVar.t) (c : Q) (w' : world) : Prop :=
  let every_entry_c := replicate (Z.to_nat (CyLPVar.dim x)) c in
  (opr = ">=" ->
   lower_of w' v = Some every_entry_c /\ upper_of w' v = Some (CyLPVar.upper x))
  /\ (opr = "<=" ->
      upper_of w' v = Some every_entry_c /\ lower_of w' v = Some (CyLPVar.lower x)).

(** [-x[1:1]] under evaluation, then the operands of [A * y] for a
    two-row matrix [A]: the state in which [perform] meets the [*] of
    [-x[1:1] + A * y]. *)
Definition zero_rows_scenario : M (CyLPConstraint.t * value * value) :=
  x <- CyLPVar_init "x" 3 false ;;
  s <- getitem x (KSlice 1 1) ;;
  c <- perform "u-" VNone (VRef s) CyLPConstraint.init ;;
  y <- CyLPVar_init "y" 1 false ;;
  A <- new_array (Arr2 [[1%Q]; [2%Q]]) ;;
  ret (c, A, VRef y).

(** [-x[1:1] + A * y], evaluated: [n + ay] ends in [ay.__radd__(n)]. *)
Definition zero_rows_expr : M CyLPConstraint.t :=
  x <- CyLPVar_init "x" 3 false ;;
  s <- getitem x (KSlice 1 1) ;;
  n <- CyLPExpr_neg s ;;
  y <- CyLPVar_init "y" 1 false ;;
  A <- new_array (Arr2 [[1%Q]; [2%Q]]) ;;
  ay <- CyLPExpr_rmul y A ;;
  e <- CyLPExpr_radd ay (VRef n) ;;
  evaluate e.

(** ** Small programs whose final states instantiate the general statements *)

(** [x = model.addVariable('x', 3); y = model.addVariable('y', 2)] and
    the expression [x <= y]. *)
Definition x_le_y : M ref :=
  x <- addVariable "x" 3 false ;;
  y <- addVariable "y" 2 false ;;
  CyLPExpr_le x (VRef y).

(** [x], [y] as above and the expression [2 * x <= 3 * y], evaluated. *)
Definition products_compared : M CyLPConstraint.t :=
  x <- addVariable "x" 3 false ;;
  y <- addVariable "y" 2 false ;;
  l <- CyLPExpr_rmul x (VNum 2%Q) ;;
  r <- CyLPExpr_rmul y (VNum 3%Q) ;;
  e <- CyLPExpr_le l (VRef r) ;;
  evaluate e.



(** A two-by-two matrix and a Variable of two entries, the operands of
    a product. *)
Definition matrix_and_variable : M (value * ref) :=
  A <- new_array (Arr2 [[1%Q; 2%Q]; [3%Q; 4%Q]]) ;;
  x <- CyLPVar_init "x" 2 false ;;
  ret (A, x).

(** ** Further notions: more of the module, and what the later
    statements are phrased with *)

(** [IndexFactory.getLastVarIndex], [getLastConstIndex] *)
Definition getLastVarIndex (f : IndexFactory.t) : Z := (IndexFactory.currentVarIndex f - 1)%Z.
Definition getLastConstIndex (f : IndexFactory.t) : Z :=
  (IndexFactory.currentConstIndex f - 1)%Z.

(** The range a name has, [[]] when the name is absent. *)
Definition range_of (name : string) (index : list (string * list Z)) : list Z :=
  match dict_get String.eqb name index with Some r => r | None => [] end.

(** Every range of the name space is strictly increasing and lies
    within [0, current). *)
Definition ranges_increasing (index : list (string * list Z)) (current : Z) : Prop :=
  forall name r, dict_get String.eqb name index = Some r ->
    StronglySorted Z.lt r /\ Forall (fun i => 0 <= i < current)%Z r.

(** The Variable that [x[start:to]] creates at reference [self] for the
    Variable [v] at reference [parent]. *)
Definition slice_variable (v : CyLPVar.t) (parent self : ref) (start to : Z) : CyLPVar.t :=
  let n := Z.to_nat (to - start) in
  CyLPVar.mk (CyLPVar.name v) (to - start) (CyLPVar.dim v) (Some parent) false self
    (replicate n (Qopp getCoinInfinity)) (replicate n getCoinInfinity)
    (Some (seqZ start (to - start))) (Some start) (Some to).

(** The Variable that [x[k]] creates. *)
Definition item_variable (v : CyLPVar.t) (parent self : ref) (k : Z) : CyLPVar.t :=
  CyLPVar.mk (CyLPVar.name v) 1 (CyLPVar.dim v) (Some parent) false self
    [Qopp getCoinInfinity] [getCoinInfinity] (Some [k]) None None.

(** The program [s = x[k]; e = (s opr c); e.evaluate()]. *)
Definition bound_on_item (x : ref) (k : Z) (opr : string) (c : Q) : M CyLPConstraint.t :=
  s <- getitem x (KInt k) ;;
  e <- compare_node opr s (VNum c) ;;
  evaluate e.

(** [x = model.addVariable('x', 3)] *)
Definition one_variable : M ref := addVariable "x" 3 false.

(** The store, the model's list of variables and its list of
    constraints are [h], [vs] and [cs]. *)
Definition same_problem (h : heap) (vs : list ref) (cs : list CyLPConstraint.t)
    (w : world) : Prop :=
  objects w = h /\ CyLPModel.variables (model w) = vs /\ CyLPModel.constraints (model w) = cs.

(** The entries of a row-bound array, as they read in [w]. *)
Definition entries (w : world) (b : value) : list Q :=
  match bound_of w b with Some (Arr1 l) => l | _ => [] end.

(** The constraints that [makeMatrices] takes row bounds from. *)
Definition with_rows (cs : list CyLPConstraint.t) : list CyLPConstraint.t :=
  List.filter (fun c => negb (CyLPConstraint.isRange c)) cs.

(** [x = model.addVariable('x', 3);
     model.addConstraint(CyLPArray([1, 2]) * x[1:3] <= CyLPArray([5]))] *)
Definition one_row_model : M unit :=
  slice_constraint (Arr1 [1%Q; 2%Q]) (Arr1 [5%Q]) addConstraint.

(** What [getPostfix] contributes for one operand (lines 125-130): the
    postfix of a symbolic operand, the operand itself otherwise. *)
Definition operand_postfix (h : heap) (v : value) : option (list value) :=
  match v with
  | VRef r => if isinstance_CyLPExpr h v then getPostfix (length h) h r else Some [v]
  | _ => Some [v]
  end.

(** A value that, if it is a reference, refers to an object of the store. *)
Definition in_store (h : heap) (v : value) : Prop :=
  forall c, v = VRef c -> c < length h.

(** Every operand of every node is in the store. *)
Definition closed (h : heap) : Prop :=
  forall r e, h !! r = Some (CExpr e) ->
              in_store h (CyLPExpr.left e) /\ in_store h (CyLPExpr.right e).

(** Two objects of the same class that, if nodes, have the same
    operator and operands. *)
Definition same_shape (c c' : cell) : Prop :=
  match c, c' with
  | CVar _, CVar _ => True
  | CExpr a, CExpr b =>
      CyLPExpr.opr a = CyLPExpr.opr b /\ CyLPExpr.left a = CyLPExpr.left b
      /\ CyLPExpr.right a = CyLPExpr.right b
  | CArr _, CArr _ => True
  | _, _ => False
  end.

(** [h'] has the objects of [h], up to attributes other than a node's
    operator and operands, and maybe more. *)
Definition grows (h h' : heap) : Prop :=
  forall r c, h !! r = Some c -> exists c', h' !! r = Some c' /\ same_shape c c'.

(** The row bounds [perform] leaves after [lft >= q] or [lft <= q] on a
    constraint of [d] rows that had none: the side compared with is all
    [q], the other side is unbounded. *)
Definition one_sided (opr : string) (d : Z) (q : Q) (lo up : option ndarray) : Prop :=
  let all_q := Some (Arr1 (replicate (Z.to_nat d) q)) in
  (opr = ">=" -> lo = all_q
                 /\ up = Some (Arr1 (replicate (Z.to_nat d) getCoinInfinity)))
  /\ (opr = "<=" -> up = all_q
                    /\ lo = Some (Arr1 (replicate (Z.to_nat d) (Qopp getCoinInfinity)))).

(** [x = model.addVariable('x', 3)] and [2 * x] under evaluation: the
    state in which [perform] meets the comparison of [2 * x <= 5]. *)
Definition scaled_variable : M (CyLPConstraint.t * ref) :=
  x <- addVariable "x" 3 false ;;
  c <- perform "*" (VNum 2%Q) (VRef x) CyLPConstraint.init ;;
  p <- CyLPExpr_init (VStr "*") (VNum 2%Q) (VRef x) ;;
  ret (c, p).

(** [x = model.addVariable('x', 3)] and the expression [x.sum() >= 1]. *)
Definition sum_at_least_one : M ref :=
  x <- addVariable "x" 3 false ;;
  s <- CyLPVar_sum x ;;
  CyLPExpr_ge s (VNum 1%Q).

(** [x = model.addVariable('x', 3)] and the expression [-x <= 4]. *)
Definition negation_at_most_four : M ref :=
  x <- addVariable "x" 3 false ;;
  n <- CyLPExpr_neg x ;;
  CyLPExpr_le n (VNum 4%Q).

(** The names of the Variables among the objects [refs], in order. *)
Definition names_in (h : heap) (refs : list ref) : list string :=
  omap (fun r => match h !! r with
                 | Some (CVar v) => Some (CyLPVar.name v)
                 | _ => None
                 end) refs.

(** The names of the model's variables. *)
Definition model_names (w : world) : list string :=
  names_in (objects w) (CyLPModel.variables (model w)).

(** The row counts of a list of constraints, added up. *)
Definition total_rows (cs : list CyLPConstraint.t) : Z :=
  foldr Z.add 0%Z (map (fun c => default 0%Z (CyLPConstraint.nRows c)) cs).

(** [x = model.addVariable('x', 3); y = model.addVariable('y', 2);
     model.addConstraint(2 * y <= 5)] *)
Definition y_constrained : M unit :=
  x <- addVariable "x" 3 false ;;
  y <- addVariable "y" 2 false ;;
  e <- CyLPExpr_rmul y (VNum 2%Q) ;;
  e <- CyLPExpr_le e (VNum 5%Q) ;;
  addConstraint e.

(** The state [w] with another index factory. *)
Definition with_inds (f : IndexFactory.t) (w : world) : world :=
  mkWorld (objects w) (CyLPModel.set_inds f (model w)).

(** A computation that neither reads nor writes the index factory. *)
Definition ignores_inds (m : M unit) : Prop :=
  forall f w w', m w = Ok tt w' -> m (with_inds f w) = Ok tt (with_inds f w').

(** [x = model.addVariable('x', 3)], the slice [x[1:3]] and the vector
    [[1, 2]]: a constraint of one row that records the vector as the
    coefficient of the slice is [mk ["x"] ... [(1, VRef 2)] ...]. *)
Definition slice_and_vector : M (ref * value) :=
  x <- addVariable "x" 3 false ;;
  s <- getitem x (KSlice 1 3) ;;
  a <- new_array (Arr1 [1%Q; 2%Q]) ;;
  ret (s, a).

(** The model is [m]. *)
Definition same_model (m : CyLPModel.t) (w : world) : Prop := model w = m.

(** [x = model.addVariable('x', 3); y = model.addVariable('y', 2)] *)
Definition two_variables : M (ref * ref) :=
  x <- addVariable "x" 3 false ;;
  y <- addVariable "y" 2 false ;;
  ret (x, y).

(** [x = model.addVariable('x', 3)] and the expression [x >= 1]. *)
Definition at_least_one : M ref :=
  x <- addVariable "x" 3 false ;;
  CyLPExpr_ge x (VNum 1%Q).

(** [s.rjust(width)]: spaces on the left up to [width]; a longer string
    is returned as it is. *)
Definition rjust (width : nat) (s : string) : string :=
  fold_right String.append s (replicate (width - String.length s) " ").

(** [str(rg)] for a list of integers. *)
Definition str_list (rg : list Z) : string :=
  "[" +:+ String.concat ", " (map pretty rg) +:+ "]".

Definition newline : string := String (Ascii.ascii_of_nat 10) "".

(** ['%s : %s\n' % (name.rjust(15), str(rg))] *)
Definition index_line (item : string * list Z) : string :=
  rjust 15 (fst item) +:+ " : " +:+ str_list (snd item) +:+ newline.

(** [IndexFactory.__repr__]; each dictionary is gone through in the
    order of its items. *)
Definition IndexFactory_repr (f : IndexFactory.t) : string :=
  let s := "variables : " +:+ newline in
  let s := fold_left (fun _ item => index_line item) (IndexFactory.varIndex f) s in
  let s := s +:+ newline in
  let s := s +:+ "constraints : " +:+ newline in
  fold_left (fun s item => s +:+ index_line item) (IndexFactory.constIndex f) s.

(** The lines of a dictionary, one after the other. *)
Definition index_lines (items : list (string * list Z)) : string :=
  fold_right (fun item rest => index_line item +:+ rest) "" items.

(** [x = model.addVariable('x', 3)] and the expression [2 * x <= 5]. *)
Definition twice_at_most_five : M ref :=
  x <- addVariable "x" 3 false ;;
  p <- CyLPExpr_rmul x (VNum 2%Q) ;;
  CyLPExpr_le p (VNum 5%Q).

(** [y = model.addVariable('y', 2)] and the expression [y == 4]. *)
Definition fixed_y : M value :=
  y <- addVariable "y" 2 false ;;
  CyLPExpr_eq y (VNum 4%Q).

(** What [getPostfix] contributes for one operand when it recurses with
    [fuel] (lines 125-130). *)
Definition side (fuel : nat) (h : heap) (v : value) : option (list value) :=
  match v with
  | VRef r => if isinstance_CyLPExpr h v then getPostfix fuel h r else Some [v]
  | _ => Some [v]
  end.





(** * Properties *)

(** ** The postfix walk has fuel enough *)

Lemma getPostfix_more_fuel h : forall n m r ts,
  getPostfix n h r = Some ts -> n <= m -> getPostfix m h r = Some ts.
Proof.
  induction n as [|n IH]; intros m r ts Hn Hle; [done|].
  destruct m as [|m]; [lia|]. simpl in *.
  destruct (h !! r) as [[x|e|a]|]; try done.
  assert (forall v l,
            match v with
            | VRef r0 => if isinstance_CyLPExpr h v then getPostfix n h r0 else Some [v]
            | _ => Some [v]
            end = Some l ->
            match v with
            | VRef r0 => if isinstance_CyLPExpr h v then getPostfix m h r0 else Some [v]
            | _ => Some [v]
            end = Some l) as Hside.
  { intros [| | |c] l; try done. destruct (isinstance_CyLPExpr h (VRef c)); [|done].
    intros H. apply IH; [done | lia]. }
  destruct (match CyLPExpr.left e with VRef _ => _ | _ => _ end) as [l|] eqn:El; [|done].
  simpl in Hn.
  destruct (match CyLPExpr.right e with VRef _ => _ | _ => _ end) as [l'|] eqn:Er; [|done].
  rewrite (Hside _ _ El). simpl. rewrite (Hside _ _ Er). exact Hn.
Qed.

Lemma getPostfix_enough h :
  operands_older h ->
  forall r, isinstance_CyLPExpr h (VRef r) = true ->
            exists ts, getPostfix (S r) h r = Some ts.
Proof.
  intros Hwf r. induction r as [r IH] using lt_wf_ind. intros Hr.
  simpl in Hr. simpl. destruct (h !! r) as [[x|e|a]|] eqn:Ecell; try done; [eauto|].
  assert (forall v, CyLPExpr.left e = v \/ CyLPExpr.right e = v ->
            exists l, match v with
                      | VRef r0 => if isinstance_CyLPExpr h v then getPostfix r h r0
                                   else Some [v]
                      | _ => Some [v]
                      end = Some l) as Hside.
  { intros [| | |c] Hv; eauto.
    destruct (isinstance_CyLPExpr h (VRef c)) eqn:Ec; [|eauto].
    assert (c < r) as Hlt by (eapply Hwf; eauto).
    destruct (IH c Hlt Ec) as [ts Hts]. exists ts.
    eapply getPostfix_more_fuel; [exact Hts | lia]. }
  destruct (Hside (CyLPExpr.left e)) as [l ->]; [auto|].
  destruct (Hside (CyLPExpr.right e)) as [l' ->]; [auto|].
  simpl. eauto.
Qed.

(** On a store whose nodes only refer to older objects, the fuel that
    [evaluate] gives [getPostfix] is enough. *)
Lemma getPostfix_total h r :
  operands_older h -> isinstance_CyLPExpr h (VRef r) = true ->
  exists ts, getPostfix (length h) h r = Some ts.
Proof.
  intros Hwf Hr. destruct (getPostfix_enough h Hwf r Hr) as [ts Hts].
  exists ts. eapply getPostfix_more_fuel; [exact Hts|].
  simpl in Hr. destruct (h !! r) eqn:E; [|done].
  apply lookup_lt_Some in E. lia.
Qed.

(** ** Dictionaries *)

Section DictFacts.
Context {V : Type}.
Implicit Types (d : list (string * V)) (k : string).

Lemma dict_get_set_eq k v d : dict_get String.eqb k (dict_set String.eqb k v d) = Some v.
Proof.
  induction d as [|[k' v'] d IH]; simpl.
  - by rewrite String.eqb_refl.
  - destruct (String.eqb k' k) eqn:E; simpl; rewrite E; eauto.
Qed.

Lemma dict_get_set_ne k k' v d :
  k' <> k -> dict_get String.eqb k' (dict_set String.eqb k v d) = dict_get String.eqb k' d.
Proof.
  intros Hne. induction d as [|[k0 v0] d IH]; simpl.
  - destruct (String.eqb k k') eqn:E; [apply String.eqb_eq in E; congruence | done].
  - destruct (String.eqb k0 k) eqn:E; simpl.
    + apply String.eqb_eq in E; subst k0.
      destruct (String.eqb k k') eqn:E'; [apply String.eqb_eq in E'; congruence | done].
    + by rewrite IH.
Qed.
End DictFacts.

Lemma dict_get_set_nat {V} (k : nat) (v : V) d :
  dict_get Nat.eqb k (dict_set Nat.eqb k v d) = Some v.
Proof.
  induction d as [|[k' v'] d IH]; simpl.
  - by rewrite Nat.eqb_refl.
  - destruct (Nat.eqb k' k) eqn:E; simpl; rewrite E; eauto.
Qed.

(** ** The index factory *)

Lemma assigned_cons k r index : assigned ((k, r) :: index) = r ++ assigned index.
Proof. reflexivity. Qed.

Lemma assigned_set_present name old new index :
  dict_get String.eqb name index = Some old ->
  assigned (dict_set String.eqb name (old ++ new) index) ≡ₚ assigned index ++ new.
Proof.
  induction index as [|[k r] index IH]; simpl; [done|].
  destruct (String.eqb k name) eqn:E; intros H.
  - injection H as ->. rewrite !assigned_cons.
    rewrite <- !(assoc_L (++)). f_equiv. apply Permutation_app_comm.
  - rewrite !assigned_cons, <- (assoc_L (++)). f_equiv. by apply IH.
Qed.

Lemma assigned_set_absent name new index :
  dict_get String.eqb name index = None ->
  assigned (dict_set String.eqb name new index) = assigned index ++ new.
Proof.
  induction index as [|[k r] index IH]; simpl.
  - intros _. unfold assigned; simpl. by rewrite app_nil_r.
  - destruct (String.eqb k name) eqn:E; [done|]. intros H.
    rewrite !assigned_cons, IH by done. by rewrite (assoc_L (++)).
Qed.

Lemma dict_get_assigned name r index i :
  dict_get String.eqb name index = Some r -> i ∈ r -> i ∈ assigned index.
Proof.
  induction index as [|[k r'] index IH]; simpl; [done|].
  rewrite assigned_cons, elem_of_app.
  destruct (String.eqb k name); [intros [= ->]; auto | auto].
Qed.

Lemma NoDup_assigned_disjoint index n1 n2 r1 r2 :
  NoDup (assigned index) -> n1 <> n2 ->
  dict_get String.eqb n1 index = Some r1 ->
  dict_get String.eqb n2 index = Some r2 ->
  forall i, i ∈ r1 -> i ∉ r2.
Proof.
  induction index as [|[k r] index IH]; simpl; [done|].
  rewrite assigned_cons, NoDup_app. intros (Hr & Hdis & Hrest) Hne H1 H2 i Hi1 Hi2.
  destruct (String.eqb k n1) eqn:E1, (String.eqb k n2) eqn:E2.
  - apply String.eqb_eq in E1, E2. congruence.
  - injection H1 as ->. eapply Hdis; [done|]. eapply dict_get_assigned; eauto.
  - injection H2 as ->. eapply Hdis; [done|]. eapply dict_get_assigned; eauto.
  - eapply IH; eauto.
Qed.

Lemma add_range_assigned name n index current :
  (0 < n)%Z -> (0 <= current)%Z ->
  assigned index ≡ₚ seqZ 0 current ->
  assigned (fst (add_range name n index current)) ≡ₚ seqZ 0 (current + n)
  /\ snd (add_range name n index current) = (current + n)%Z.
Proof.
  intros Hn Hc Hp. unfold add_range.
  destruct (Z.eqb_spec n 0); [lia|]. simpl. split; [|done].
  rewrite seqZ_app by lia. rewrite Z.add_0_l.
  destruct (dict_get String.eqb name index) eqn:E.
  - rewrite assigned_set_present by done. by rewrite Hp.
  - rewrite assigned_set_absent by done. by rewrite Hp.
Qed.

Lemma partition_of_permutation index total :
  assigned index ≡ₚ seqZ 0 total -> (0 <= total)%Z -> ranges_partition index total.
Proof.
  intros Hp Ht.
  assert (NoDup (assigned index)) as Hnd by (rewrite Hp; apply NoDup_seqZ).
  repeat split; [|done| |done].
  - intros. eapply NoDup_assigned_disjoint; eauto.
  - rewrite Hp, length_seqZ. lia.
Qed.

Lemma factory_inv_init : factory_inv IndexFactory.init 0 0.
Proof. repeat split; simpl; try lia; reflexivity. Qed.

Lemma run_call_inv f c vt ct :
  (0 < count c)%Z -> factory_inv f vt ct ->
  factory_inv (run_call f c)
    (match c with AddVar _ n => vt + n | _ => vt end)%Z
    (match c with AddConst _ n => ct + n | _ => ct end)%Z.
Proof.
  intros Hc (Hvt & Hct & Hv & Hk & Hpv & Hpc).
  destruct c as [name n|name n]; simpl in *.
  - unfold addVar.
    destruct (add_range_assigned name n (IndexFactory.varIndex f)
                (IndexFactory.currentVarIndex f)) as [Hp Hcur];
      [lia | lia | by rewrite Hv |].
    destruct (add_range _ _ _ _) as [index current]; simpl in *.
    subst current. rewrite Hv in Hp. repeat split; simpl; try lia; try done.
  - unfold addConst.
    destruct (add_range_assigned name n (IndexFactory.constIndex f)
                (IndexFactory.currentConstIndex f)) as [Hp Hcur];
      [lia | lia | by rewrite Hk |].
    destruct (add_range _ _ _ _) as [index current]; simpl in *.
    subst current. rewrite Hk in Hp. repeat split; simpl; try lia; try done.
Qed.

Lemma fold_run_call_inv cs : forall f vt ct,
  Forall (fun c => 0 < count c)%Z cs -> factory_inv f vt ct ->
  factory_inv (fold_left run_call cs f) (vt + var_total cs) (ct + const_total cs).
Proof.
  induction cs as [|c cs IH]; intros f vt ct Hall Hinv; simpl.
  - by rewrite !Z.add_0_r.
  - inversion Hall as [|? ? Hc Hcs]; subst.
    pose proof (run_call_inv f c vt ct Hc Hinv) as Hstep.
    specialize (IH _ _ _ Hcs Hstep).
    destruct c as [name n|name n]; simpl in *;
      [ replace (vt + (n + var_total cs))%Z with (vt + n + var_total cs)%Z by lia
      | replace (ct + (n + const_total cs))%Z with (ct + n + const_total cs)%Z by lia ];
      exact IH.
Qed.

Lemma add_range_extends name n index current old :
  (0 < n)%Z -> (0 <= current)%Z ->
  assigned index ≡ₚ seqZ 0 current ->
  dict_get String.eqb name index = Some old ->
  extends_range index (fst (add_range name n index current)) name old n.
Proof.
  intros Hn Hc Hp Hget. unfold add_range.
  destruct (Z.eqb_spec n 0); [lia|]. rewrite Hget. simpl.
  exists (range current n). repeat split.
  - apply dict_get_set_eq.
  - unfold range. rewrite length_seqZ. lia.
  - intros i Hi. unfold range in Hi. rewrite Hp, !elem_of_seqZ in *. lia.
  - intros other Hne. by apply dict_get_set_ne.
Qed.

(** The usage example of the class: [x] gets [range(10)], [y] gets
    [range(10, 15)], [Manpower] gets [range(4)] and [Gold] [range(4, 14)]. *)
Example IndexFactory_usage :
  let i := run_calls [AddVar "x" 10; AddVar "y" 5; AddConst "Manpower" 4; AddConst "Gold" 10] in
  hasVar "x" i = true
  /\ dict_get String.eqb "y" (IndexFactory.varIndex i) = Some (range 10 5)
  /\ dict_get String.eqb "Manpower" (IndexFactory.constIndex i) = Some (range 0 4)
  /\ dict_get String.eqb "Gold" (IndexFactory.constIndex i) = Some (range 4 10).
Proof. repeat split. Qed.

(** C6.  Whatever sequence of [addVar] and [addConst] calls with positive
    counts is made on a new factory, the ranges assigned in each name
    space are pairwise disjoint, no index is assigned twice, and they
    cover exactly as many indices as the counts add up to (the indices
    from 0 up to that sum); and adding to a name that is present keeps
    its old range and appends to it as many indices as asked, none of
    which was assigned before. *)
Theorem index_ranges_partition (cs : list call) :
  Forall (fun c => 0 < count c)%Z cs ->
  let f := run_calls cs in
  ranges_partition (IndexFactory.varIndex f) (var_total cs)
  /\ ranges_partition (IndexFactory.constIndex f) (const_total cs)
  /\ (forall name old n, (0 < n)%Z ->
        dict_get String.eqb name (IndexFactory.varIndex f) = Some old ->
        extends_range (IndexFactory.varIndex f)
          (IndexFactory.varIndex (addVar name n f)) name old n)
  /\ (forall name old n, (0 < n)%Z ->
        dict_get String.eqb name (IndexFactory.constIndex f) = Some old ->
        extends_range (IndexFactory.constIndex f)
          (IndexFactory.constIndex (addConst name n f)) name old n).
Proof.
  intros Hall f.
  destruct (fold_run_call_inv cs IndexFactory.init 0 0 Hall factory_inv_init)
    as (Hvt & Hct & Hv & Hk & Hpv & Hpc).
  rewrite !Z.add_0_l in *. fold (run_calls cs) in *. fold f in Hv, Hk, Hpv, Hpc.
  split; [by apply partition_of_permutation|].
  split; [by apply partition_of_permutation|].
  split.
  - intros name old n Hn Hget. unfold addVar.
    pose proof (add_range_extends name n (IndexFactory.varIndex f)
                  (IndexFactory.currentVarIndex f) old Hn) as Hext.
    destruct (add_range _ _ _ _) as [index current]; simpl in *.
    apply Hext; [lia | by rewrite Hv | done].
  - intros name old n Hn Hget. unfold addConst.
    pose proof (add_range_extends name n (IndexFactory.constIndex f)
                  (IndexFactory.currentConstIndex f) old Hn) as Hext.
    destruct (add_range _ _ _ _) as [index current]; simpl in *.
    apply Hext; [lia | by rewrite Hk | done].
Qed.

Lemma index_ranges_partition_witness :
  Forall (fun c => 0 < count c)%Z
    [AddVar "x" 10; AddVar "y" 5; AddConst "Manpower" 4; AddVar "x" 2]
  /\ ranges_partition
       (IndexFactory.varIndex
          (run_calls [AddVar "x" 10; AddVar "y" 5; AddConst "Manpower" 4; AddVar "x" 2]))
       17.
Proof.
  split.
  - repeat constructor.
  - apply (index_ranges_partition
             [AddVar "x" 10; AddVar "y" 5; AddConst "Manpower" 4; AddVar "x" 2]).
    repeat constructor.
Defined.

(** ** Running the monad symbolically *)

Lemma run_ret {A B} (a : A) (k : A -> M B) w : bind (ret a) k w = k a w.
Proof. reflexivity. Qed.

Lemma run_raise {A B} e (k : A -> M B) w : bind (raise e) k w = Raise e w.
Proof. reflexivity. Qed.

Lemma run_assoc {A B C} (m : M A) (f : A -> M B) (g : B -> M C) w :
  bind (bind m f) g w = bind m (fun a => bind (f a) g) w.
Proof. unfold bind. by destruct (m w). Qed.

Lemma run_get_heap {B} (k : heap -> M B) w : bind get_heap k w = k (objects w) w.
Proof. reflexivity. Qed.

Lemma run_get_model {B} (k : CyLPModel.t -> M B) w : bind get_model k w = k (model w) w.
Proof. reflexivity. Qed.

Lemma run_store {B} r c (k : unit -> M B) w :
  bind (store r c) k w = k tt (mkWorld (<[r := c]> (objects w)) (model w)).
Proof. reflexivity. Qed.

Lemma run_new_array {B} a (k : value -> M B) w :
  bind (new_array a) k w =
    k (VRef (length (objects w))) (mkWorld (objects w ++ [CArr a]) (model w)).
Proof. reflexivity. Qed.

Lemma run_CyLPExpr_init {B} o l r (k : ref -> M B) w :
  bind (CyLPExpr_init o l r) k w =
    k (length (objects w))
      (mkWorld (objects w ++ [CExpr (CyLPExpr.mk o l r (length (objects w)))]) (model w)).
Proof. reflexivity. Qed.

Lemma run_get_var {B} r x (k : CyLPVar.t -> M B) w :
  objects w !! r = Some (CVar x) -> bind (get_var r) k w = k x w.
Proof. intros H. unfold get_var, bind, get_heap, ret. by rewrite H. Qed.

Lemma run_np_ones {B} d (k : list Q -> M B) w :
  (0 <= d)%Z -> bind (np_ones d) k w = k (replicate (Z.to_nat d) 1%Q) w.
Proof. intros H. unfold np_ones. destruct (Z.ltb_spec d 0); [lia|done]. Qed.

Ltac run :=
  repeat first
    [ rewrite run_assoc | rewrite run_ret | rewrite run_raise
    | rewrite run_get_heap | rewrite run_get_model | rewrite run_store
    | rewrite run_new_array | rewrite run_CyLPExpr_init ].

Lemma bind_ok {A B} (m : M A) (k : A -> M B) w a w' :
  m w = Ok a w' -> bind m k w = k a w'.
Proof. intros H. unfold bind. by rewrite H. Qed.

(** ** Which errors a computation can raise *)

Ltac monad_unfold :=
  unfold bind, ret, raise, get_heap, get_model, put_model, alloc, store, alloc_self in *.


















(** ** Comparisons in [perform] *)

Lemma is_comparison_cases opr :
  is_comparison opr = true -> opr = "<=" \/ opr = ">=" \/ opr = "==".
Proof.
  unfold is_comparison, str_in. simpl.
  destruct (String.eqb_spec opr "<="); [auto|].
  destruct (String.eqb_spec opr ">="); [auto|].
  destruct (String.eqb_spec opr "=="); [auto|]. done.
Qed.


Lemma perform_left_comparison opr lft c w :
  is_comparison opr = true -> perform_left opr lft c w = Ok c w.
Proof.
  intros Hop. unfold perform_left. monad_unfold.
  destruct (as_CyLPVar (objects w) lft) as [[l lv]|]; [|done].
  apply is_comparison_cases in Hop as [-> | [-> | ->]]; reflexivity.
Qed.

Lemma perform_negate_comparison opr rgt c w :
  is_comparison opr = true -> perform_negate opr rgt c w = Ok c w.
Proof.
  intros Hop. unfold perform_negate. monad_unfold.
  destruct (as_plain_CyLPExpr (objects w) rgt); [|done].
  apply is_comparison_cases in Hop as [-> | [-> | ->]]; reflexivity.
Qed.






(** ** Evaluating a comparison of two leaves *)

Lemma Qmult_one (q : Q) : Qmult q 1 = q.
Proof.
  destruct q as [n d]. unfold Qmult. simpl.
  by rewrite Z.mul_1_r, Pos.mul_1_r.
Qed.

Lemma map_replicate {A B} (f : A -> B) n x : map f (replicate n x) = replicate n (f x).
Proof. induction n; simpl; congruence. Qed.

Lemma scalar_ones (q : Q) n : map (Qmult q) (replicate n 1%Q) = replicate n q.
Proof. by rewrite map_replicate, Qmult_one. Qed.

Lemma getPostfix_var fuel h r x :
  h !! r = Some (CVar x) -> getPostfix (S fuel) h r = Some [VRef r].
Proof. intros H. simpl. by rewrite H. Qed.

Lemma getPostfix_leaves h e opr lft rgt x :
  h !! e = Some (CExpr (CyLPExpr.mk opr lft rgt x)) ->
  leaf h lft -> leaf h rgt ->
  getPostfix (length h) h e = Some [lft; rgt; opr].
Proof.
  intros He Hl Hr.
  assert (e < length h) as Hlen by (by eapply lookup_lt_Some).
  assert (forall v, leaf h v ->
            match v with
            | VRef r => if isinstance_CyLPExpr h v then getPostfix (length h - 1) h r
                        else Some [v]
            | _ => Some [v]
            end = Some [v]) as Hside.
  { intros [| | |r] Hv; try done.
    unfold leaf, as_plain_CyLPExpr in Hv. unfold isinstance_CyLPExpr.
    destruct (h !! r) as [[y| |]|] eqn:Er; try done.
    assert (r < length h) by (by eapply lookup_lt_Some).
    assert (r <> e) by (intros ->; congruence).
    destruct (length h - 1) as [|n] eqn:En; [lia|].
    by erewrite getPostfix_var. }
  destruct (length h) as [|n] eqn:En; [lia|].
  simpl. rewrite He. simpl.
  replace (S n - 1) with n in Hside by lia.
  rewrite (Hside lft Hl). simpl. rewrite (Hside rgt Hr). done.
Qed.

Lemma evaluate_token_constant ops c t w :
  as_operator t = None -> as_CyLPVar (objects w) t = None ->
  evaluate_token (ops, c) t w = Ok (t :: ops, c) w.
Proof.
  intros Ho Hv. unfold evaluate_token. simpl. rewrite Ho. monad_unfold. by rewrite Hv.
Qed.

Lemma evaluate_token_variable ops c r x w :
  objects w !! r = Some (CVar x) ->
  exists c', evaluate_token (ops, c) (VRef r) w = Ok (VRef r :: ops, c') w
    /\ (CyLPConstraint.variables c = [] -> c' = CyLPConstraint.set_variables [r] c)
    /\ CyLPConstraint.isRange c' = CyLPConstraint.isRange c.
Proof.
  intros Hr. unfold evaluate_token. simpl. monad_unfold. rewrite Hr.
  destruct (var_in _ _ _) eqn:Hin.
  - exists c. repeat split. intros Hv. rewrite Hv in Hin. done.
  - eexists. repeat split. intros ->. done.
Qed.

Lemma evaluate_token_comparison ops c opr lft rgt w :
  is_comparison opr = true ->
  evaluate_token (rgt :: lft :: ops, c) (VStr opr) w =
    (cons <- perform opr lft rgt c ;;
     p <- CyLPExpr_init (VStr opr) lft rgt ;;
     ret (VRef p :: ops, cons)) w.
Proof.
  intros Hop. unfold evaluate_token.
  apply is_comparison_cases in Hop as [-> | [-> | ->]]; reflexivity.
Qed.



Lemma variable_leaf h r x : h !! r = Some (CVar x) -> leaf h (VRef r).
Proof. intros H. unfold leaf. simpl. by rewrite H. Qed.

Lemma variable_symbolic h r x : h !! r = Some (CVar x) -> isinstance_CyLPExpr h (VRef r) = true.
Proof. intros H. simpl. by rewrite H. Qed.




Lemma run_evaluate_token_comparison {B} ops c opr lft rgt
    (k : list value * CyLPConstraint.t -> M B) w :
  is_comparison opr = true ->
  bind (evaluate_token (rgt :: lft :: ops, c) (VStr opr)) k w =
    bind (cons <- perform opr lft rgt c ;;
          p <- CyLPExpr_init (VStr opr) lft rgt ;;
          ret (VRef p :: ops, cons)) k w.
Proof.
  intros Hop. unfold bind at 1 2. by rewrite evaluate_token_comparison.
Qed.





(** Two built-up sides: [2 * x <= 3 * y] raises the same error. *)
Example products_compared_raise :
  exists w, products_compared empty_world = Raise (Exception OneSideConstant) w.
Proof. eexists. vm_compute. reflexivity. Qed.

(** ** A bound on an unsliced Variable *)

Lemma write_bound_bare (w : world) (b : bool) (v : ref) (x : CyLPVar.t)
    (bound : value) (vals : list Q) :
  objects w !! v = Some (CVar x) ->
  CyLPVar.parent x = None -> CyLPVar.indices x = None ->
  bound_values (objects w) bound = Some vals ->
  length vals = length (if b then CyLPVar.lower x else CyLPVar.upper x) ->
  write_bound b v bound w =
    Ok tt (mkWorld (<[v := CVar (if b then CyLPVar.set_lower vals x
                                 else CyLPVar.set_upper vals x)]> (objects w)) (model w)).
Proof.
  intros Hv Hpar Hind Hb Hlen. unfold write_bound.
  rewrite (run_get_var v x) by done. rewrite Hpar.
  rewrite (run_get_var v x) by done. run. rewrite Hb, Hind.
  unfold setitem. destruct b; rewrite Hlen, Nat.eqb_refl; reflexivity.
Qed.

Lemma perform_compare_bare w opr v x c cons vs :
  objects w !! v = Some (CVar x) ->
  CyLPVar.parent x = None -> CyLPVar.indices x = None ->
  (0 <= CyLPVar.parentDim x)%Z ->
  length (CyLPVar.lower x) = Z.to_nat (CyLPVar.parentDim x) ->
  length (CyLPVar.upper x) = Z.to_nat (CyLPVar.parentDim x) ->
  CyLPConstraint.isRange cons = true ->
  CyLPConstraint.variables cons = v :: vs ->
  opr = ">=" \/ opr = "<=" ->
  let vals := replicate (Z.to_nat (CyLPVar.parentDim x)) c in
  let x' := if String.eqb opr ">=" then CyLPVar.set_lower vals x
            else CyLPVar.set_upper vals x in
  perform_compare opr (VRef v) (VNum c) cons w =
    Ok (CyLPConstraint.set_nRows (Some (CyLPVar.parentDim x)) cons)
       (mkWorld (<[v := CVar x']> (objects w ++ [CArr (Arr1 vals)])) (model w)).
Proof.
  intros Hv Hpar Hind Hdim Hlo Hup Hrange Hvars Hop vals x'.
  assert (v < length (objects w)) as Hlt by (by eapply lookup_lt_Some).
  unfold perform_compare. run.
  rewrite (variable_symbolic _ _ _ Hv). simpl isinstance_CyLPExpr. simpl andb.
  run. rewrite Hrange, Hvars. run.
  rewrite (run_get_var v x) by done. run. simpl fst. simpl snd. simpl as_number.
  cbv beta iota. run.
  rewrite run_np_ones by done. run. rewrite scalar_ones. fold vals.
  cbn [CyLPConstraint.isRange CyLPConstraint.variables CyLPConstraint.set_nRows].
  rewrite Hrange, Hvars.
  set (w1 := mkWorld (objects w ++ [CArr (Arr1 vals)]) (model w)).
  assert (objects w1 !! v = Some (CVar x)) as Hv1.
  { unfold w1. cbn [objects]. by rewrite lookup_app_l. }
  assert (bound_values (objects w1) (VRef (length (objects w))) = Some vals) as Hb.
  { unfold bound_values, as_ndarray, w1. cbn [objects]. by rewrite list_lookup_middle. }
  assert (forall b, write_bound b v (VRef (length (objects w))) w1 =
            Ok tt (mkWorld (<[v := CVar (if b then CyLPVar.set_lower vals x
                                         else CyLPVar.set_upper vals x)]> (objects w1))
                     (model w1))) as Hw.
  { intros b. apply write_bound_bare; try done.
    unfold vals. rewrite length_replicate. by destruct b. }
  subst x'.
  destruct Hop as [-> | ->];
    cbn [str_in existsb String.eqb Ascii.eqb Bool.eqb orb andb];
    run; unfold bind; rewrite Hw; reflexivity.
Qed.

Lemma perform_bare_bound w opr v x c cons vs :
  objects w !! v = Some (CVar x) ->
  CyLPVar.parent x = None -> CyLPVar.indices x = None ->
  (0 <= CyLPVar.parentDim x)%Z ->
  length (CyLPVar.lower x) = Z.to_nat (CyLPVar.parentDim x) ->
  length (CyLPVar.upper x) = Z.to_nat (CyLPVar.parentDim x) ->
  CyLPConstraint.isRange cons = true ->
  CyLPConstraint.variables cons = v :: vs ->
  opr = ">=" \/ opr = "<=" ->
  let vals := replicate (Z.to_nat (CyLPVar.parentDim x)) c in
  let x' := if String.eqb opr ">=" then CyLPVar.set_lower vals x
            else CyLPVar.set_upper vals x in
  perform opr (VRef v) (VNum c) cons w =
    Ok (CyLPConstraint.set_nRows (Some (CyLPVar.parentDim x)) cons)
       (mkWorld (<[v := CVar x']> (objects w ++ [CArr (Arr1 vals)])) (model w)).
Proof.
  intros Hv Hpar Hind Hdim Hlo Hup Hrange Hvars Hop vals x'.
  assert (is_comparison opr = true) as Hcmp by (by destruct Hop as [-> | ->]).
  unfold perform.
  assert (perform_right opr (VRef v) (VNum c) cons w = Ok cons w) as Hr by reflexivity.
  unfold bind at 1. rewrite Hr.
  unfold bind at 1. rewrite perform_left_comparison by done.
  unfold bind at 1. rewrite perform_negate_comparison by done.
  rewrite Hcmp. by eapply perform_compare_bare.
Qed.
Lemma evaluate_bare_bound (w : world) (e : ref) (opr : string) (v : ref) (x : CyLPVar.t)
    (c : Q) (self : ref) :
  objects w !! e = Some (CExpr (CyLPExpr.mk (VStr opr) (VRef v) (VNum c) self)) ->
  objects w !! v = Some (CVar x) ->
  CyLPVar.parent x = None -> CyLPVar.indices x = None ->
  (0 <= CyLPVar.parentDim x)%Z ->
  length (CyLPVar.lower x) = Z.to_nat (CyLPVar.parentDim x) ->
  length (CyLPVar.upper x) = Z.to_nat (CyLPVar.parentDim x) ->
  opr = ">=" \/ opr = "<=" ->
  let vals := replicate (Z.to_nat (CyLPVar.parentDim x)) c in
  let x' := if String.eqb opr ">=" then CyLPVar.set_lower vals x
            else CyLPVar.set_upper vals x in
  let h1 := <[v := CVar x']> (objects w ++ [CArr (Arr1 vals)]) in
  evaluate e w =
    Ok (CyLPConstraint.set_nRows (Some (CyLPVar.parentDim x))
          (CyLPConstraint.set_variables [v] CyLPConstraint.init))
       (mkWorld (h1 ++ [CExpr (CyLPExpr.mk (VStr opr) (VRef v) (VNum c) (length h1))])
          (model w)).
Proof.
  intros He Hv Hpar Hind Hdim Hlo Hup Hop vals x' h1.
  assert (is_comparison opr = true) as Hcmp by (by destruct Hop as [-> | ->]).
  unfold evaluate. run.
  erewrite getPostfix_leaves; [|exact He|by eapply variable_leaf|done].
  cbn [fold_M]. run.
  destruct (evaluate_token_variable [] CyLPConstraint.init v x w Hv) as (c1 & Ht1 & Hc1 & _).
  rewrite (Hc1 eq_refl) in Ht1. clear Hc1 c1.
  erewrite bind_ok by exact Ht1. run.
  erewrite bind_ok by (by apply evaluate_token_constant). run.
  erewrite bind_ok; cycle 1.
  { rewrite evaluate_token_comparison by done. run.
    erewrite bind_ok by (eapply perform_bare_bound; eauto). run. reflexivity. }
  run. fold vals x' h1. cbn [fst snd objects].
  replace (as_CyLPVar _ _) with (@None (nat * CyLPVar.t)).
  - reflexivity.
  - unfold as_CyLPVar. by rewrite list_lookup_middle.
Qed.

Lemma compare_node_fresh (w : world) (opr : string) (v : ref) (x : CyLPVar.t) (other : value) :
  objects w !! v = Some (CVar x) ->
  let e := length (objects w) in
  compare_node opr v other w =
    Ok e (mkWorld (<[v := CVar (CyLPVar.set_expr e x)]>
                     (objects w
                      ++ [CExpr (CyLPExpr.mk (VStr opr) (VRef (CyLPVar.expr x)) other e)]))
            (model w)).
Proof.
  intros Hv e. assert (v < length (objects w)) by (by eapply lookup_lt_Some).
  unfold compare_node, get_expr, set_expr. run. rewrite Hv. run.
  cbn [objects]. rewrite lookup_app_l, Hv by done. reflexivity.
Qed.

(** ** What [makeMatrices] leaves alone *)

Section Preserved.
Context (P : world -> Prop).

Lemma preserves_ret {A} (a : A) : preserves P (ret a).
Proof. intros w H. exact H. Qed.

Lemma preserves_raise {A} e : preserves P (@raise A e).
Proof. intros w H. exact H. Qed.

Lemma preserves_get_heap : preserves P get_heap.
Proof. intros w H. exact H. Qed.

Lemma preserves_bind {A B} (m : M A) (k : A -> M B) :
  preserves P m -> (forall a, preserves P (k a)) -> preserves P (bind m k).
Proof.
  intros Hm Hk w Hw. unfold bind. specialize (Hm w Hw).
  destruct (m w) as [a w'|e w']; [by apply Hk | exact Hm].
Qed.

Lemma preserves_for_each {A} (l : list A) (body : A -> M unit) :
  (forall a, preserves P (body a)) -> preserves P (for_each l body).
Proof.
  intros Hb. induction l as [|a l IH]; simpl.
  - apply preserves_ret.
  - apply preserves_bind; [apply Hb | intros _; exact IH].
Qed.

Lemma preserves_fold_M {A S} (l : list A) (body : S -> A -> M S) :
  (forall s a, preserves P (body s a)) -> forall s, preserves P (fold_M l body s).
Proof.
  intros Hb. induction l as [|a l IH]; intros s; simpl.
  - apply preserves_ret.
  - apply preserves_bind; [apply Hb | intros s'; apply IH].
Qed.
End Preserved.

Lemma preserves_get_model_bind h cs {B} (k : CyLPModel.t -> M B) :
  (forall m, CyLPModel.constraints m = cs -> preserves (same_constraints h cs) (k m)) ->
  preserves (same_constraints h cs) (bind get_model k).
Proof. intros Hk w Hw. rewrite run_get_model. apply Hk; [apply Hw | exact Hw]. Qed.

Lemma preserves_put_model h cs m :
  CyLPModel.constraints m = cs -> preserves (same_constraints h cs) (put_model m).
Proof. intros Hm w [Hh _]. split; [exact Hh | exact Hm]. Qed.

(** One structural step; [known] closes goals about computations
    already dealt with. *)
Ltac preserved_by known :=
  repeat first
    [ known
    | apply preserves_ret | apply preserves_raise | apply preserves_get_heap
    | apply preserves_get_model_bind; intros ? ?
    | apply preserves_put_model; assumption
    | apply preserves_bind; [|intros ?]
    | apply preserves_for_each; intros ?
    | apply preserves_fold_M; intros ? ?
    | progress cbv zeta
    | case_match ].

Lemma preserves_get_var h cs r : preserves (same_constraints h cs) (get_var r).
Proof. unfold get_var. preserved_by fail. Qed.

Lemma preserves_np_zeros h cs d : preserves (same_constraints h cs) (np_zeros d).
Proof. unfold np_zeros. preserved_by fail. Qed.

Lemma preserves_additem h cs a i c : preserves (same_constraints h cs) (additem a i c).
Proof. unfold additem. preserved_by fail. Qed.

Lemma preserves_sparseConcat h cs a b d : preserves (same_constraints h cs) (sparseConcat a b d).
Proof. unfold sparseConcat. preserved_by fail. Qed.

Lemma preserves_coef_array h cs c v : preserves (same_constraints h cs) (coef_array c v).
Proof. unfold coef_array. preserved_by fail. Qed.

Lemma preserves_concatenate h cs a b : preserves (same_constraints h cs) (concatenate a b).
Proof. unfold concatenate. preserved_by fail. Qed.

Ltac preserved_known :=
  first [ apply preserves_get_var | apply preserves_np_zeros | apply preserves_additem
        | apply preserves_sparseConcat | apply preserves_coef_array
        | apply preserves_concatenate ].

Lemma preserves_makeIndexFactory h cs : preserves (same_constraints h cs) makeIndexFactory.
Proof. unfold makeIndexFactory. preserved_by preserved_known. Qed.

Lemma preserves_generateVarMatrix h cs n : preserves (same_constraints h cs) (generateVarMatrix n).
Proof. unfold generateVarMatrix, constraint_fragment. preserved_by preserved_known. Qed.

Lemma preserves_makeMatrices h cs : preserves (same_constraints h cs) makeMatrices.
Proof.
  unfold makeMatrices.
  preserved_by ltac:(first [ apply preserves_makeIndexFactory
                           | apply preserves_generateVarMatrix | preserved_known ]).
Qed.

(** C10.  Let [e] be the comparison [v >= c] or [v <= c] of an unsliced
    Variable [v] (no parent, no indices, bound arrays as long as its
    dimension) with a scalar [c].  Evaluating [e] returns a constraint
    that is still a range, with no coefficient and no row bounds, and
    leaves every entry of [v]'s own lower array (for [>=]) or upper
    array (for [<=]) equal to [c]; [addConstraint e] sets the bound in
    the same way and leaves the model's list of constraints as it was. *)
Theorem bare_variable_bound_is_range (w : world) (e v self : ref) (x : CyLPVar.t)
    (opr : string) (c : Q) :
  objects w !! e = Some (CExpr (CyLPExpr.mk (VStr opr) (VRef v) (VNum c) self)) ->
  objects w !! v = Some (CVar x) ->
  CyLPVar.parent x = None -> CyLPVar.indices x = None ->
  CyLPVar.parentDim x = CyLPVar.dim x -> (0 <= CyLPVar.dim x)%Z ->
  length (CyLPVar.lower x) = Z.to_nat (CyLPVar.dim x) ->
  length (CyLPVar.upper x) = Z.to_nat (CyLPVar.dim x) ->
  opr = ">=" \/ opr = "<=" ->
  (exists cons w2,
      evaluate e w = Ok cons w2
      /\ CyLPConstraint.isRange cons = true
      /\ CyLPConstraint.varCoefs cons = []
      /\ CyLPConstraint.lower cons = VNone
      /\ CyLPConstraint.upper cons = VNone
      /\ bound_set opr v x c w2)
  /\ CyLPModel.constraints (model (final_world (addConstraint e w)))
     = CyLPModel.constraints (model w)
  /\ bound_set opr v x c (final_world (addConstraint e w)).
Proof.
  intros He Hv Hpar Hind Hpd Hdim Hlo Hup Hop.
  assert (v < length (objects w)) as Hlt by (by eapply lookup_lt_Some).
  pose proof (evaluate_bare_bound w e opr v x c self He Hv Hpar Hind) as Hev.
  rewrite Hpd in Hev. specialize (Hev Hdim Hlo Hup Hop). cbv zeta in Hev.
  set (vals := replicate (Z.to_nat (CyLPVar.dim x)) c) in *.
  set (x' := if String.eqb opr ">=" then _ else _) in Hev.
  set (h1 := <[v := CVar x']> _) in Hev.
  set (w2 := mkWorld _ (model w)) in Hev.
  assert (objects w2 !! v = Some (CVar x')) as Hv2.
  { unfold w2, h1. cbn [objects].
    rewrite lookup_app_l by (rewrite length_insert, length_app; lia).
    apply list_lookup_insert_eq. rewrite length_app. lia. }
  assert (bound_set opr v x c w2) as Hbounds.
  { unfold bound_set, lower_of, upper_of. rewrite Hv2. fold vals. subst x'.
    split; intros ->; simpl; done. }
  split.
  { eexists _, w2. split; [exact Hev|]. do 4 (split; [reflexivity|]). exact Hbounds. }
  assert (addConstraint e w = bind makeMatrices (fun _ => ret tt) w2) as Hadd.
  { unfold addConstraint. erewrite bind_ok by exact Hev. reflexivity. }
  rewrite Hadd.
  assert (same_constraints (objects w2) (CyLPModel.constraints (model w))
            (final_world (bind makeMatrices (fun _ => ret tt) w2))) as [Hobj Hcs].
  { apply preserves_bind; [apply preserves_makeMatrices | intros; apply preserves_ret |].
    split; reflexivity. }
  split; [exact Hcs|].
  unfold bound_set, lower_of, upper_of in *. rewrite Hobj. exact Hbounds.
Qed.

Lemma bare_variable_bound_is_range_witness :
  CyLPModel.constraints
    (model (final_world (addConstraint 1
              (final_world (nonnegative_y (fun _ => ret tt) empty_world)))))
  = []
  /\ bound_set ">=" 0 (CyLPVar.set_expr 1 (new_variable "y" 2 false 0 [1%Q; 1%Q])) 0%Q
       (final_world (addConstraint 1
          (final_world (nonnegative_y (fun _ => ret tt) empty_world)))).
Proof.
  refine (proj2 (bare_variable_bound_is_range
                   (final_world (nonnegative_y (fun _ => ret tt) empty_world))
                   1 0 1 (CyLPVar.set_expr 1 (new_variable "y" 2 false 0 [1%Q; 1%Q]))
                   ">=" 0%Q _ _ _ _ _ _ _ _ _)).
  - vm_compute. reflexivity.
  - vm_compute. reflexivity.
  - reflexivity.
  - reflexivity.
  - reflexivity.
  - vm_compute. discriminate.
  - reflexivity.
  - reflexivity.
  - left. reflexivity.
Defined.

(** ** A matrix or vector times a Variable *)

Lemma add_name_fields rv c :
  CyLPConstraint.nRows (add_name rv c) = CyLPConstraint.nRows c
  /\ CyLPConstraint.varCoefs (add_name rv c) = CyLPConstraint.varCoefs c
  /\ CyLPConstraint.isRange (add_name rv c) = CyLPConstraint.isRange c.
Proof. unfold add_name. by destruct (str_in _ _). Qed.

(** [perform "*"] with an array on the left and a Variable on the
    right is [perform_mul] after the Variable's name has been noted. *)
Lemma perform_mul_array w c lft rgt a r rv :
  as_ndarray (objects w) lft = Some a ->
  as_CyLPVar (objects w) rgt = Some (r, rv) ->
  perform "*" lft rgt c w =
    if negb (CyLPVar.dim rv =? last_axis a)%Z then
      match a with
      | Arr1 _ => Raise IndexError w
      | Arr2 _ => Raise (Exception ColumnsExpected) w
      end
    else
      let nr := match a with Arr1 _ => 1%Z | Arr2 _ => np_len a end in
      if nRows_conflicts (add_name rv c) nr then Raise (Exception RowsExpected) w
      else Ok (CyLPConstraint.set_isRange false
                 (set_coef r lft (CyLPConstraint.set_nRows (Some nr) (add_name rv c)))) w.
Proof.
  intros Ha Hr.
  assert (as_number lft = None) as Hn by (destruct lft; done).
  assert (as_CyLPVar (objects w) lft = None) as Hl.
  { destruct lft as [| | |l]; try done. simpl in *. by destruct (objects w !! l) as [[]|]. }
  assert (as_plain_CyLPExpr (objects w) rgt = None) as Hp.
  { destruct rgt as [| | |l]; try done. simpl in *. by destruct (objects w !! l) as [[]|]. }
  assert (forall c', perform_left "*" lft c' w = Ok c' w) as Hleft.
  { intros c'. unfold perform_left. run. by rewrite Hl. }
  assert (forall c', perform_negate "*" rgt c' w = Ok c' w) as Hneg.
  { intros c'. unfold perform_negate. run. by rewrite Hp. }
  unfold perform, perform_right. run. rewrite Hr. cbn [String.eqb Ascii.eqb Bool.eqb].
  cbv beta iota. simpl orb. cbv beta iota. run.
  unfold perform_mul. rewrite Hn. run. rewrite Ha.
  destruct (negb _).
  - by destruct a.
  - cbv zeta. destruct (nRows_conflicts _ _); [done|]. run.
    rewrite (bind_ok _ _ _ _ _ (Hleft _)). rewrite (bind_ok _ _ _ _ _ (Hneg _)).
    reflexivity.
Qed.

(** C5, as amended.  When [perform] handles [*] with an array on the
    left and a Variable on the right, it raises an error if the array's
    last-axis length differs from the Variable's [dim] (the module's
    column-count error when the array is two-dimensional); it raises
    the row-count error if the array's row count differs from a
    non-zero row count the constraint already has; and otherwise,
    that is with no row count yet, a row count of zero or the same row
    count, it records the array as the Variable's coefficient, sets the
    row count to the array's outer dimension (1 for a one-dimensional
    array) and marks the constraint as not a range. *)
Theorem matrix_times_variable (w : world) (c : CyLPConstraint.t) (lft rgt : value)
    (a : ndarray) (r : ref) (rv : CyLPVar.t) :
  as_ndarray (objects w) lft = Some a ->
  as_CyLPVar (objects w) rgt = Some (r, rv) ->
  let nr := match a with Arr1 _ => 1%Z | Arr2 m => Z.of_nat (length m) end in
  (last_axis a <> CyLPVar.dim rv ->
   exists e, perform "*" lft rgt c w = Raise e w
             /\ (forall m, a = Arr2 m -> e = Exception ColumnsExpected))
  /\ (last_axis a = CyLPVar.dim rv ->
      forall n, CyLPConstraint.nRows c = Some n -> n <> 0%Z -> n <> nr ->
      perform "*" lft rgt c w = Raise (Exception RowsExpected) w)
  /\ (last_axis a = CyLPVar.dim rv ->
      CyLPConstraint.nRows c = None \/ CyLPConstraint.nRows c = Some 0%Z
      \/ CyLPConstraint.nRows c = Some nr ->
      exists c', perform "*" lft rgt c w = Ok c' w
                 /\ dict_get Nat.eqb r (CyLPConstraint.varCoefs c') = Some lft
                 /\ CyLPConstraint.nRows c' = Some nr
                 /\ CyLPConstraint.isRange c' = false).
Proof.
  intros Ha Hr nr. rewrite (perform_mul_array w c lft rgt a r rv Ha Hr).
  destruct (add_name_fields rv c) as (Hn & _ & _).
  assert (match a with Arr1 _ => 1%Z | Arr2 _ => np_len a end = nr) as -> by (by destruct a).
  split; [|split].
  - intros Hne. destruct (Z.eqb_spec (CyLPVar.dim rv) (last_axis a)); [congruence|].
    simpl. destruct a; eauto. eexists. split; [done|]. intros m [=].
  - intros He n Hrows Hn0 Hnr. rewrite <- He, Z.eqb_refl. simpl.
    unfold nRows_conflicts. rewrite Hn, Hrows.
    destruct (Z.eqb_spec n 0), (Z.eqb_spec n nr); try congruence. done.
  - intros He Hrows. rewrite <- He, Z.eqb_refl. simpl.
    assert (nRows_conflicts (add_name rv c) nr = false) as ->.
    { unfold nRows_conflicts. rewrite Hn.
      destruct Hrows as [-> | [-> | ->]]; try done. by rewrite Z.eqb_refl, andb_false_r. }
    eexists. split; [done|]. split; [|done]. apply dict_get_set_nat.
Qed.

Lemma matrix_times_variable_witness :
  exists c', perform "*" (VRef 0) (VRef 1) CyLPConstraint.init
               (final_world (matrix_and_variable empty_world))
             = Ok c' (final_world (matrix_and_variable empty_world))
             /\ dict_get Nat.eqb 1 (CyLPConstraint.varCoefs c') = Some (VRef 0)
             /\ CyLPConstraint.nRows c' = Some 2%Z
             /\ CyLPConstraint.isRange c' = false.
Proof.
  refine (proj2 (proj2 (matrix_times_variable
            (final_world (matrix_and_variable empty_world))
            CyLPConstraint.init (VRef 0) (VRef 1)
            (Arr2 [[1%Q; 2%Q]; [3%Q; 4%Q]]) 1
            (new_variable "x" 2 false 1 [1%Q; 1%Q]) _ _)) _ _).
  - vm_compute. reflexivity.
  - vm_compute. reflexivity.
  - reflexivity.
  - left. reflexivity.
Defined.

(** C5, the claim as stated fails.  In [-x[1:1] + A * y] the unary
    minus on the empty slice sets the row count to 0; [A] has two rows,
    which differs from it, and [perform] raises nothing: the row count
    becomes 2, and the whole expression evaluates. *)
Lemma zero_row_count_is_overwritten :
  match zero_rows_scenario empty_world with
  | Ok (c, A, y) w =>
      CyLPConstraint.nRows c = Some 0%Z
      /\ option_map np_len (as_ndarray (objects w) A) = Some 2%Z
      /\ match perform "*" A y c w with
         | Ok c' _ => CyLPConstraint.nRows c' = Some 2%Z
         | Raise _ _ => False
         end
  | Raise _ _ => False
  end
  /\ match zero_rows_expr empty_world with
     | Ok c _ => CyLPConstraint.nRows c = Some 2%Z
     | Raise _ _ => False
     end.
Proof. vm_compute. repeat split. Qed.

(** ** The module on concrete programs *)

(** C1, what the code does.  With [x = addVariable('x', 3)] and the
    constraint [A * x[1:3] <= [5, 6]] for the two-by-two matrix
    [A = [[1, 2], [3, 4]]], [generateVarMatrix('x')] returns [A] itself,
    two columns wide: the slice positions are not used, and the block
    of [x] does not get its three columns [[0, 1, 2], [0, 3, 4]].  With
    the vector [[1, 2]] in place of [A] the one-row branch does place
    the coefficient: the result is [[0, 1, 2]]. *)
Theorem matrix_coefficient_ignores_slice :
  (exists w, slice_constraint (Arr2 [[1%Q; 2%Q]; [3%Q; 4%Q]]) (Arr1 [5%Q; 6%Q])
               (fun e => addConstraint e ;;; generateVarMatrix "x") empty_world
             = Ok (Some (Arr2 [[1%Q; 2%Q]; [3%Q; 4%Q]])) w)
  /\ (exists w, slice_constraint (Arr1 [1%Q; 2%Q]) (Arr1 [5%Q])
                  (fun e => addConstraint e ;;; generateVarMatrix "x") empty_world
                = Ok (Some (Arr1 [0%Q; 1%Q; 2%Q])) w).
Proof. split; eexists; vm_compute; reflexivity. Qed.

(** C2.  On a model holding a new three-entry [x], the constraint
    [1.1 <= x[1:3] <= CyLPArray([2.0, 3.5])] evaluates to a constraint
    that is still a range and has no coefficient; [addConstraint]
    returns, leaves the model's list of constraints unchanged (empty),
    sets [x.lower] to 1.1 at positions 1 and 2 and [x.upper] to 2.0 and
    3.5 there, and leaves position 0 of both at the infinity sentinel. *)
Theorem range_scenario_tightens_bounds :
  (exists x c w, range_scenario evaluate empty_world = Ok (x, c) w
                 /\ CyLPConstraint.isRange c = true
                 /\ CyLPConstraint.varCoefs c = [])
  /\ (exists x w, range_scenario addConstraint empty_world = Ok (x, tt) w
                  /\ CyLPModel.constraints (model w) = CyLPModel.constraints (model empty_world)
                  /\ CyLPModel.constraints (model w) = []
                  /\ lower_of w x = Some [Qopp getCoinInfinity; 1.1%Q; 1.1%Q]
                  /\ upper_of w x = Some [getCoinInfinity; 2.0%Q; 3.5%Q]).
Proof.
  split.
  - eexists _, _, _. split; [vm_compute; reflexivity|]. split; reflexivity.
  - eexists _, _. split; [vm_compute; reflexivity|]. repeat split; vm_compute; reflexivity.
Qed.

(** C3, what the code does.  For [y - c * x <= 5] with the caller's
    array [c = [1, 2]], the first evaluation records [[-1, -2]] for [x];
    it has negated [c] in place, so the evaluation of the same
    expression over fresh copies of [x] and [y] records [[1, 2]].
    [addConstraint] evaluates twice and keeps the second result: the
    stored coefficient of [x] is [[1, 2]]. *)
Theorem second_evaluation_flips_sign :
  (exists w, evaluate_twice empty_world
             = Ok ([Some (Arr1 [(-1)%Q; (-2)%Q]); Some (Arr1 [1%Q])],
                   [Some (Arr1 [1%Q; 2%Q]); Some (Arr1 [1%Q])]) w)
  /\ (exists w, add_difference empty_world
                = Ok [Some (Arr1 [1%Q; 2%Q]); Some (Arr1 [1%Q])] w).
Proof. split; eexists; vm_compute; reflexivity. Qed.

(** C7, what the code does.  With [x] created before [y] and the
    constraints [2 * y <= 5] and then [2 * x <= 5], the variables of
    the model are named [x, y] in creation order, and
    [makeIndexFactory] leaves [allVarNames] as [y, x]. *)
Theorem block_order_follows_constraints :
  exists w, y_before_x empty_world = Ok ["x"; "y"] w
            /\ CyLPModel.allVarNames (model w) = ["y"; "x"].
Proof. eexists. split; vm_compute; reflexivity. Qed.

(** C8, what the code does.  After [evaluate] returns on [y >= 0], a
    range constraint, the [expr] field of [y] still points to the
    comparison node and not to [y]. *)
Theorem range_variable_keeps_expr :
  exists y e c w, nonnegative_y evaluate empty_world = Ok (y, e, c) w
                  /\ CyLPConstraint.isRange c = true
                  /\ expr_of w y = Some e
                  /\ e <> y.
Proof.
  eexists _, _, _, _. split; [vm_compute; reflexivity|].
  split; [reflexivity|]. split; [reflexivity|]. discriminate.
Qed.

(** C9, what the code does.  For a Variable [x], the [==] of a
    [CyLPArray] with [x] is decided by [np.ndarray.__eq__]: the class
    defines no [__eq__] and does not yield.  The methods behind [<=],
    [>=], [+], [-], [*] and the reverse forms do return
    [NotImplemented]. *)
Theorem CyLPArray_eq_not_deferred :
  isinstance_CyLPExpr (objects (final_world (x_le_y empty_world))) (VRef 0) = true
  /\ CyLPArray_call (objects (final_world (x_le_y empty_world))) m_eq (VRef 0)
     = ndarray_method m_eq
  /\ Forall (fun m => CyLPArray_call (objects (final_world (x_le_y empty_world)))
                        m (VRef 0) = NotImplemented)
       overridden_methods.
Proof.
  split; [reflexivity|]. split; [reflexivity|].
  unfold overridden_methods. repeat constructor.
Qed.

(** * Further properties *)

(** ** Looking up what [addVar] stored *)

Lemma add_range_lookup name n index current :
  n <> 0%Z ->
  dict_get String.eqb name (fst (add_range name n index current))
  = Some (range_of name index ++ range current n)
  /\ forall other, other <> name ->
       dict_get String.eqb other (fst (add_range name n index current))
       = dict_get String.eqb other index.
Proof.
  intros Hn. unfold add_range, range_of.
  destruct (Z.eqb_spec n 0); [done|]. simpl.
  destruct (dict_get String.eqb name index) eqn:E; simpl.
  - split; [apply dict_get_set_eq | intros; by apply dict_get_set_ne].
  - split; [apply dict_get_set_eq | intros; by apply dict_get_set_ne].
Qed.

(** X1.  [addVar name n] with [n = 0] changes nothing.  With [n <> 0]
    the name is known afterwards, its range is the range it had (none
    if it was absent) followed by the [n] indices that start at the
    running index, and the running index has advanced by [n].  Every
    other name keeps its range, and the constraint side of the factory
    is untouched. *)
Theorem addVar_then_lookup (f : IndexFactory.t) (varName : string) (n : Z) :
  (n = 0%Z -> addVar varName n f = f)
  /\ (n <> 0%Z ->
      hasVar varName (addVar varName n f) = true
      /\ dict_get String.eqb varName (IndexFactory.varIndex (addVar varName n f))
         = Some (range_of varName (IndexFactory.varIndex f)
                 ++ range (IndexFactory.currentVarIndex f) n)
      /\ IndexFactory.currentVarIndex (addVar varName n f)
         = (IndexFactory.currentVarIndex f + n)%Z)
  /\ (forall other, other <> varName ->
        dict_get String.eqb other (IndexFactory.varIndex (addVar varName n f))
        = dict_get String.eqb other (IndexFactory.varIndex f))
  /\ IndexFactory.constIndex (addVar varName n f) = IndexFactory.constIndex f
  /\ IndexFactory.currentConstIndex (addVar varName n f) = IndexFactory.currentConstIndex f.
Proof.
  split; [|split; [|split]].
  - intros ->. unfold addVar, add_range. simpl. by destruct f.
  - intros Hn. unfold hasVar, dict_has, addVar.
    destruct (add_range_lookup varName n (IndexFactory.varIndex f)
                (IndexFactory.currentVarIndex f) Hn) as [Hget _].
    unfold add_range in *. destruct (Z.eqb_spec n 0); [done|]. simpl in *.
    rewrite Hget. done.
  - intros other Hne. unfold addVar.
    destruct (Z.eq_dec n 0%Z) as [->|Hn]; [unfold add_range; by simpl|].
    destruct (add_range_lookup varName n (IndexFactory.varIndex f)
                (IndexFactory.currentVarIndex f) Hn) as [_ Hother].
    specialize (Hother other Hne).
    destruct (add_range _ _ _ _). exact Hother.
  - unfold addVar. by destruct (add_range _ _ _ _).
Qed.

Lemma addVar_then_lookup_witness :
  hasVar "x" (addVar "x" 3 (addVar "y" 2 IndexFactory.init)) = true
  /\ dict_get String.eqb "x"
       (IndexFactory.varIndex (addVar "x" 3 (addVar "y" 2 IndexFactory.init)))
     = Some (range_of "x" (IndexFactory.varIndex (addVar "y" 2 IndexFactory.init))
             ++ range (IndexFactory.currentVarIndex (addVar "y" 2 IndexFactory.init)) 3)
  /\ IndexFactory.currentVarIndex (addVar "x" 3 (addVar "y" 2 IndexFactory.init))
     = (IndexFactory.currentVarIndex (addVar "y" 2 IndexFactory.init) + 3)%Z.
Proof.
  apply (proj1 (proj2 (addVar_then_lookup (addVar "y" 2 IndexFactory.init) "x" 3))).
  discriminate.
Defined.

(** ** The last index and the shape of the ranges *)

Lemma seqZ_increasing m n : StronglySorted Z.lt (seqZ m n).
Proof.
  destruct (Z.le_gt_cases n 0) as [Hn|Hn].
  { rewrite seqZ_nil by lia. constructor. }
  rewrite <- (Z2Nat.id n) by lia. generalize (Z.to_nat n) as k. clear. intros k.
  revert m. induction k as [|k IH]; intros m.
  - simpl. rewrite seqZ_nil by lia. constructor.
  - rewrite seqZ_cons by lia. constructor.
    + replace (Z.pred (Z.of_nat (S k))) with (Z.of_nat k) by lia. apply IH.
    + apply Forall_forall. intros i Hi. apply elem_of_seqZ in Hi. lia.
Qed.

Lemma add_range_increasing name n index current :
  (0 < n)%Z -> (0 <= current)%Z ->
  ranges_increasing index current ->
  ranges_increasing (fst (add_range name n index current)) (current + n).
Proof.
  intros Hn Hc Hinv other r Hget.
  assert (n <> 0%Z) as Hn0 by lia.
  destruct (add_range_lookup name n index current Hn0) as [Hname Hother].
  destruct (decide (other = name)) as [->|Hne].
  - rewrite Hname in Hget. injection Hget as <-. unfold range_of.
    assert (StronglySorted Z.lt (range current n)
            /\ Forall (fun i => 0 <= i < current + n)%Z (range current n)) as [Hs Hb].
    { split; [apply seqZ_increasing|]. apply Forall_forall. intros i Hi.
      apply elem_of_seqZ in Hi. lia. }
    destruct (dict_get String.eqb name index) as [old|] eqn:E; [|done].
    destruct (Hinv name old E) as [Hso Hbo]. split.
    + apply StronglySorted_app_2; [| exact Hso | exact Hs].
      intros x1 x2 H1 H2. rewrite Forall_forall in Hbo. specialize (Hbo x1 H1).
      apply elem_of_seqZ in H2. lia.
    + apply Forall_app. split; [|done].
      eapply Forall_impl; [exact Hbo|]. simpl. lia.
  - rewrite Hother in Hget by done. destruct (Hinv other r Hget) as [Hs Hb].
    split; [done|]. eapply Forall_impl; [exact Hb|]. simpl. lia.
Qed.

Lemma run_call_increasing f c vt ct :
  (0 < count c)%Z -> factory_inv f vt ct ->
  ranges_increasing (IndexFactory.varIndex f) (IndexFactory.currentVarIndex f) ->
  ranges_increasing (IndexFactory.constIndex f) (IndexFactory.currentConstIndex f) ->
  ranges_increasing (IndexFactory.varIndex (run_call f c))
    (IndexFactory.currentVarIndex (run_call f c))
  /\ ranges_increasing (IndexFactory.constIndex (run_call f c))
       (IndexFactory.currentConstIndex (run_call f c)).
Proof.
  intros Hc (Hvt & Hct & Hv & Hk & _) Hiv Hic.
  destruct c as [name n|name n]; simpl in *.
  - unfold addVar.
    assert (0 <= IndexFactory.currentVarIndex f)%Z as Hcur by lia.
    pose proof (add_range_increasing name n _ _ Hc Hcur Hiv) as H.
    unfold add_range in *. destruct (Z.eqb_spec n 0); [lia|]. simpl in *. done.
  - unfold addConst.
    assert (0 <= IndexFactory.currentConstIndex f)%Z as Hcur by lia.
    pose proof (add_range_increasing name n _ _ Hc Hcur Hic) as H.
    unfold add_range in *. destruct (Z.eqb_spec n 0); [lia|]. simpl in *. done.
Qed.

Lemma fold_run_call_increasing cs : forall f vt ct,
  Forall (fun c => 0 < count c)%Z cs -> factory_inv f vt ct ->
  ranges_increasing (IndexFactory.varIndex f) (IndexFactory.currentVarIndex f) ->
  ranges_increasing (IndexFactory.constIndex f) (IndexFactory.currentConstIndex f) ->
  ranges_increasing (IndexFactory.varIndex (fold_left run_call cs f))
    (IndexFactory.currentVarIndex (fold_left run_call cs f))
  /\ ranges_increasing (IndexFactory.constIndex (fold_left run_call cs f))
       (IndexFactory.currentConstIndex (fold_left run_call cs f)).
Proof.
  induction cs as [|c cs IH]; intros f vt ct Hall Hinv Hiv Hic; simpl; [done|].
  inversion Hall as [|? ? Hc Hcs]; subst.
  destruct (run_call_increasing f c vt ct Hc Hinv Hiv Hic) as [Hiv' Hic'].
  eapply IH; eauto using run_call_inv.
Qed.

(** X2.  After any sequence of [addVar] and [addConst] calls with
    positive counts, [getLastVarIndex] is the sum of the [addVar] counts
    minus one and [getLastConstIndex] the sum of the [addConst] counts
    minus one; every range stored under a name is strictly increasing,
    and all its entries lie between 0 and the last index of its side. *)
Theorem last_index_bounds_ranges (cs : list call) :
  Forall (fun c => 0 < count c)%Z cs ->
  getLastVarIndex (run_calls cs) = (var_total cs - 1)%Z
  /\ getLastConstIndex (run_calls cs) = (const_total cs - 1)%Z
  /\ (forall name r, dict_get String.eqb name (IndexFactory.varIndex (run_calls cs)) = Some r ->
        StronglySorted Z.lt r
        /\ Forall (fun i => 0 <= i <= getLastVarIndex (run_calls cs))%Z r)
  /\ (forall name r, dict_get String.eqb name (IndexFactory.constIndex (run_calls cs)) = Some r ->
        StronglySorted Z.lt r
        /\ Forall (fun i => 0 <= i <= getLastConstIndex (run_calls cs))%Z r).
Proof.
  intros Hall.
  destruct (fold_run_call_inv cs IndexFactory.init 0 0 Hall factory_inv_init)
    as (_ & _ & Hv & Hk & _).
  destruct (fold_run_call_increasing cs IndexFactory.init 0 0 Hall factory_inv_init)
    as [Hiv Hic]; [done..|].
  fold (run_calls cs) in *. unfold getLastVarIndex, getLastConstIndex.
  split; [lia|]. split; [lia|]. split.
  - intros name r Hget. destruct (Hiv name r Hget) as [Hs Hb].
    split; [done|]. eapply Forall_impl; [exact Hb|]. simpl. lia.
  - intros name r Hget. destruct (Hic name r Hget) as [Hs Hb].
    split; [done|]. eapply Forall_impl; [exact Hb|]. simpl. lia.
Qed.

Lemma last_index_bounds_ranges_witness :
  Forall (fun c => 0 < count c)%Z [AddVar "x" 10; AddVar "y" 5; AddVar "x" 2]
  /\ getLastVarIndex (run_calls [AddVar "x" 10; AddVar "y" 5; AddVar "x" 2])
     = (var_total [AddVar "x" 10; AddVar "y" 5; AddVar "x" 2] - 1)%Z.
Proof.
  split.
  - repeat constructor.
  - apply (last_index_bounds_ranges [AddVar "x" 10; AddVar "y" 5; AddVar "x" 2]).
    repeat constructor.
Defined.

(** ** Slices of a Variable *)

Lemma CyLPVar_init_ok name d isInt w :
  (0 <= d)%Z ->
  CyLPVar_init name d isInt w =
    Ok (length (objects w))
       (mkWorld (objects w ++ [CVar (new_variable name d isInt (length (objects w))
                                       (replicate (Z.to_nat d) 1%Q))])
          (model w)).
Proof. intros Hd. unfold CyLPVar_init. rewrite run_np_ones by done. reflexivity. Qed.

Lemma insert_last {A} (l : list A) (c x : A) : <[length l := x]> (l ++ [c]) = l ++ [x].
Proof. rewrite insert_app_r_alt by lia. by rewrite Nat.sub_diag. Qed.

Lemma getitem_slice_ok w self v start stop :
  objects w !! self = Some (CVar v) ->
  let to := if (stop >? CyLPVar.dim v)%Z then CyLPVar.dim v else stop in
  (start <= to)%Z ->
  getitem self (KSlice start stop) w =
    Ok (length (objects w))
       (mkWorld (objects w ++ [CVar (slice_variable v self (length (objects w)) start to)])
          (model w)).
Proof.
  intros Hv to Hle. unfold getitem. rewrite (run_get_var self v) by done.
  cbv zeta. fold to.
  erewrite bind_ok by (apply CyLPVar_init_ok; lia).
  erewrite run_get_var by (cbn [objects]; apply list_lookup_middle; done).
  run. cbn [objects]. rewrite insert_last.
  unfold slice_variable, new_variable. cbn [CyLPVar.name CyLPVar.isInt CyLPVar.expr
    CyLPVar.lower CyLPVar.upper]. rewrite !scalar_ones, length_seqZ.
  rewrite Z2Nat.id by lia. reflexivity.
Qed.

Lemma getitem_slice_reversed w self v start stop :
  objects w !! self = Some (CVar v) ->
  let to := if (stop >? CyLPVar.dim v)%Z then CyLPVar.dim v else stop in
  (to < start)%Z ->
  getitem self (KSlice start stop) w = Raise ValueError w.
Proof.
  intros Hv to Hlt. unfold getitem. rewrite (run_get_var self v) by done.
  cbv zeta. fold to. unfold CyLPVar_init, np_ones.
  destruct (Z.ltb_spec (to - start) 0); [|lia]. reflexivity.
Qed.

Lemma int32_fits k :
  (- 2 ^ 31 <= k < 2 ^ 31)%Z -> is_int k = true /\ int32 k = k.
Proof.
  intros Hk. split.
  - unfold is_int. apply andb_true_iff. split; [apply Z.leb_le | apply Z.ltb_lt]; lia.
  - unfold int32. rewrite Z.mod_small by lia. lia.
Qed.

Lemma getitem_int_ok w self v k :
  objects w !! self = Some (CVar v) ->
  is_int k = true ->
  getitem self (KInt k) w =
    Ok (length (objects w))
       (mkWorld (objects w ++ [CVar (item_variable v self (length (objects w)) (int32 k))])
          (model w)).
Proof.
  intros Hv Hk. unfold getitem. rewrite (run_get_var self v) by done. rewrite Hk.
  erewrite bind_ok by (apply CyLPVar_init_ok; lia).
  erewrite run_get_var by (cbn [objects]; apply list_lookup_middle; done).
  run. cbn [objects]. rewrite insert_last. reflexivity.
Qed.

(** X3.  Subscripting a Variable of dimension [dim] with [start:stop],
    where [0 <= start <= stop] and [start <= dim], creates one new
    Variable: same name, the original as parent, [parentDim = dim],
    indices [start .. min stop dim - 1], as many entries as indices,
    both bound arrays infinite and of that length, never an integer
    variable.  All its indices are positions of the parent, and a [stop]
    beyond [dim] gives the same as [stop = dim]. *)
Theorem slice_is_clamped_view (w : world) (self : ref) (v : CyLPVar.t) (start stop : Z) :
  objects w !! self = Some (CVar v) ->
  (0 <= start)%Z -> (start <= stop)%Z -> (start <= CyLPVar.dim v)%Z ->
  let to := Z.min stop (CyLPVar.dim v) in
  let s := slice_variable v self (length (objects w)) start to in
  getitem self (KSlice start stop) w =
    Ok (length (objects w)) (mkWorld (objects w ++ [CVar s]) (model w))
  /\ CyLPVar.indices s = Some (seqZ start (to - start))
  /\ CyLPVar.dim s = Z.of_nat (length (seqZ start (to - start)))
  /\ length (CyLPVar.lower s) = Z.to_nat (CyLPVar.dim s)
  /\ length (CyLPVar.upper s) = Z.to_nat (CyLPVar.dim s)
  /\ (forall i, i ∈ seqZ start (to - start) -> (0 <= i < CyLPVar.dim v)%Z)
  /\ ((CyLPVar.dim v <= stop)%Z ->
      getitem self (KSlice start stop) w = getitem self (KSlice start (CyLPVar.dim v)) w).
Proof.
  intros Hv H0 Hle Hdim to s.
  assert ((if (stop >? CyLPVar.dim v)%Z then CyLPVar.dim v else stop) = to) as Hto.
  { unfold to. destruct (Z.gtb_spec stop (CyLPVar.dim v)); lia. }
  pose proof (getitem_slice_ok w self v start stop Hv) as Hok. cbv zeta in Hok.
  assert (start <= to)%Z as Hst by (unfold to; lia).
  rewrite Hto in Hok. specialize (Hok Hst).
  split; [exact Hok|]. split; [reflexivity|]. split.
  { simpl. rewrite length_seqZ. lia. }
  split; [simpl; by rewrite length_replicate|].
  split; [simpl; by rewrite length_replicate|]. split.
  { intros i Hi. apply elem_of_seqZ in Hi. unfold to in *. lia. }
  intros Hbig. rewrite Hok.
  pose proof (getitem_slice_ok w self v start (CyLPVar.dim v) Hv) as Hok'. cbv zeta in Hok'.
  assert ((if (CyLPVar.dim v >? CyLPVar.dim v)%Z then CyLPVar.dim v else CyLPVar.dim v)
          = CyLPVar.dim v) as Hd by (destruct (CyLPVar.dim v >? CyLPVar.dim v)%Z; reflexivity).
  rewrite Hd in Hok'. rewrite Hok' by lia.
  replace to with (CyLPVar.dim v) by (unfold to; lia). reflexivity.
Qed.

Lemma slice_is_clamped_view_witness :
  getitem 0 (KSlice 1 7) (final_world (one_variable empty_world))
  = getitem 0 (KSlice 1 3) (final_world (one_variable empty_world)).
Proof.
  refine (proj2 (proj2 (proj2 (proj2 (proj2 (proj2
    (slice_is_clamped_view (final_world (one_variable empty_world)) 0
       (new_variable "x" 3 false 0 [1%Q; 1%Q; 1%Q]) 1 7 _ _ _ _)))))) _).
  - vm_compute. reflexivity.
  - lia.
  - lia.
  - simpl. lia.
  - simpl. lia.
Defined.

(** ** Slices and items out of range *)

(** X4.  A slice whose upper end, after clamping to the dimension, lies
    below its start is refused: [__getitem__] raises [ValueError] (the
    negative length reaches [np.ones]) and creates nothing. *)
Theorem reversed_slice_is_refused (w : world) (self : ref) (v : CyLPVar.t) (start stop : Z) :
  objects w !! self = Some (CVar v) ->
  (Z.min stop (CyLPVar.dim v) < start)%Z ->
  getitem self (KSlice start stop) w = Raise ValueError w.
Proof.
  intros Hv Hlt. apply (getitem_slice_reversed w self v start stop Hv).
  destruct (Z.gtb_spec stop (CyLPVar.dim v)); lia.
Qed.

Lemma reversed_slice_is_refused_witness :
  getitem 0 (KSlice 2 1) (final_world (one_variable empty_world))
  = Raise ValueError (final_world (one_variable empty_world)).
Proof.
  apply (reversed_slice_is_refused (final_world (one_variable empty_world)) 0
           (new_variable "x" 3 false 0 [1%Q; 1%Q; 1%Q]) 2 1).
  - vm_compute. reflexivity.
  - simpl. lia.
Defined.

Lemma write_bound_out_of_range (w : world) (b : bool) (var p : ref) (sv pv : CyLPVar.t)
    (k : Z) (bound : value) (vals : list Q) :
  objects w !! var = Some (CVar sv) ->
  CyLPVar.parent sv = Some p -> CyLPVar.indices sv = Some [k] ->
  objects w !! p = Some (CVar pv) ->
  bound_values (objects w) bound = Some vals -> vals <> [] ->
  position (length (if b then CyLPVar.lower pv else CyLPVar.upper pv)) k = None ->
  write_bound b var bound w = Raise IndexError w.
Proof.
  intros Hv Hpar Hind Hp Hb Hne Hpos. unfold write_bound.
  rewrite (run_get_var var sv) by done. rewrite Hpar.
  rewrite (run_get_var p pv) by done. run. rewrite Hb, Hind.
  destruct vals as [|x vals]; [done|].
  destruct b; unfold setitem, assign_indexed; rewrite Hpos; reflexivity.
Qed.

Lemma position_out_of_range n k :
  (Z.of_nat n <= k \/ k < - Z.of_nat n)%Z -> position n k = None.
Proof.
  intros H. unfold position.
  destruct (Z.ltb_spec k 0); simpl.
  - destruct (Z.leb_spec 0 (k + Z.of_nat n)); simpl; [|done].
    destruct (Z.ltb_spec (k + Z.of_nat n) (Z.of_nat n)); [lia|done].
  - destruct (Z.leb_spec 0 k); simpl; [|done].
    destruct (Z.ltb_spec k (Z.of_nat n)); [lia|done].
Qed.

(** X5.  [x[k]] does not check [k] against the dimension: for an index
    [k] that fits the 32 bits it is stored in but lies outside
    [-dim .. dim - 1], the subscription still returns a Variable.  The
    failure comes when a bound on it is evaluated: [x[k] >= c] and
    [x[k] <= c] end in an error of the assignment into the parent's
    bound array, which is not one of the module's [Exception]s and is
    [IndexError] when the parent has one entry; the parent is left as
    it was. *)
Theorem item_out_of_range_fails_late (w : world) (x : ref) (v : CyLPVar.t)
    (k : Z) (opr : string) (c : Q) :
  objects w !! x = Some (CVar v) ->
  (1 <= CyLPVar.dim v)%Z ->
  length (CyLPVar.lower v) = Z.to_nat (CyLPVar.dim v) ->
  length (CyLPVar.upper v) = Z.to_nat (CyLPVar.dim v) ->
  (- 2 ^ 31 <= k < 2 ^ 31)%Z ->
  (CyLPVar.dim v <= k \/ k < - CyLPVar.dim v)%Z ->
  opr = ">=" \/ opr = "<=" ->
  (exists s w1, getitem x (KInt k) w = Ok s w1)
  /\ exists err w',
       bound_on_item x k opr c w = Raise err w'
       /\ (forall m, err <> Exception m)
       /\ (CyLPVar.dim v = 1%Z -> err = IndexError)
       /\ objects w' !! x = Some (CVar v).
Proof.
  intros Hx Hdim Hlo Hup Hfit Hk Hop.
  assert (x < length (objects w)) as Hlt by (by eapply lookup_lt_Some).
  assert (is_comparison opr = true) as Hcmp by (by destruct Hop as [-> | ->]).
  destruct (int32_fits k Hfit) as [Hint H32].
  pose proof (getitem_int_ok w x v k Hx Hint) as Hget. rewrite H32 in Hget.
  split; [eauto|].
  set (s := length (objects w)) in *.
  set (sv := item_variable v x s k) in *.
  set (w1 := mkWorld (objects w ++ [CVar sv]) (model w)) in *.
  assert (objects w1 !! s = Some (CVar sv)) as Hs1
    by (unfold w1, s; cbn [objects]; by rewrite list_lookup_middle).
  pose proof (compare_node_fresh w1 opr s sv (VNum c) Hs1) as Hnode. cbv zeta in Hnode.
  set (e := length (objects w1)) in *.
  set (w2 := mkWorld _ (model w1)) in Hnode.
  assert (length (objects w1) = S s) as Hlen1
    by (unfold w1, s; cbn [objects]; rewrite length_app; simpl; lia).
  assert (objects w2 !! s = Some (CVar (CyLPVar.set_expr e sv))) as Hs2.
  { unfold w2. cbn [objects]. apply list_lookup_insert_eq. rewrite length_app. lia. }
  assert (objects w2 !! e = Some (CExpr (CyLPExpr.mk (VStr opr) (VRef s) (VNum c) e))) as He2.
  { unfold w2. cbn [objects]. rewrite list_lookup_insert_ne by (unfold e; lia).
    by rewrite list_lookup_middle. }
  assert (objects w2 !! x = Some (CVar v)) as Hx2.
  { unfold w2. cbn [objects]. rewrite list_lookup_insert_ne by (unfold s; lia).
    rewrite lookup_app_l by (unfold e; lia). unfold w1. cbn [objects].
    by rewrite lookup_app_l. }
  unfold bound_on_item.
  erewrite bind_ok by exact Hget. erewrite bind_ok by exact Hnode.
  unfold evaluate. run.
  erewrite getPostfix_leaves; [|exact He2|by eapply variable_leaf|done].
  cbn [fold_M]. run.
  destruct (evaluate_token_variable [] CyLPConstraint.init s _ w2 Hs2) as (c1 & Ht1 & Hc1 & _).
  rewrite (Hc1 eq_refl) in Ht1. clear Hc1 c1.
  erewrite bind_ok by exact Ht1. run.
  erewrite bind_ok by (by apply evaluate_token_constant). run.
  rewrite run_evaluate_token_comparison by done. run.
  set (cons1 := CyLPConstraint.set_variables [s] CyLPConstraint.init).
  set (vals := replicate (Z.to_nat (CyLPVar.dim v)) c).
  set (w3 := mkWorld (objects w2 ++ [CArr (Arr1 vals)]) (model w2)).
  assert (perform opr (VRef s) (VNum c) cons1 w2 = Raise IndexError w3) as Hperf.
  { unfold perform.
    assert (perform_right opr (VRef s) (VNum c) cons1 w2 = Ok cons1 w2) as Hr by reflexivity.
    erewrite bind_ok by exact Hr.
    erewrite bind_ok by (by apply perform_left_comparison).
    erewrite bind_ok by (by apply perform_negate_comparison).
    rewrite Hcmp. unfold perform_compare. run.
    rewrite (variable_symbolic _ _ _ Hs2). simpl isinstance_CyLPExpr. simpl andb.
    run. cbn [CyLPConstraint.isRange CyLPConstraint.variables cons1
              CyLPConstraint.set_variables CyLPConstraint.init].
    run. rewrite (run_get_var s (CyLPVar.set_expr e sv)) by done. run.
    cbn [fst snd as_number CyLPVar.parentDim CyLPVar.set_expr sv item_variable].
    cbv beta iota. run. rewrite run_np_ones by lia. run. rewrite scalar_ones.
    fold vals. fold w3.
    cbn [CyLPConstraint.isRange CyLPConstraint.variables CyLPConstraint.set_nRows].
    assert (forall b, write_bound b s (VRef (length (objects w2))) w3 = Raise IndexError w3)
      as Hw.
    { intros b. eapply (write_bound_out_of_range w3 b s x (CyLPVar.set_expr e sv) v k).
      - unfold w3. cbn [objects]. rewrite lookup_app_l; [done|]. by eapply lookup_lt_Some.
      - reflexivity.
      - reflexivity.
      - unfold w3. cbn [objects]. rewrite lookup_app_l; [done|]. by eapply lookup_lt_Some.
      - unfold bound_values, as_ndarray, w3. cbn [objects]. by rewrite list_lookup_middle.
      - unfold vals. destruct (Z.to_nat (CyLPVar.dim v)) eqn:E; [lia|done].
      - apply position_out_of_range. destruct b; rewrite ?Hlo, ?Hup; lia. }
    unfold cons1.
    cbn [CyLPConstraint.isRange CyLPConstraint.variables CyLPConstraint.set_nRows
         CyLPConstraint.set_variables CyLPConstraint.init].
    destruct Hop as [-> | ->];
      cbn [str_in existsb String.eqb Ascii.eqb Bool.eqb orb andb];
      run; unfold bind; rewrite Hw; reflexivity. }
  unfold bind at 1. rewrite Hperf.
  exists IndexError, w3. split; [reflexivity|]. split; [done|]. split; [done|].
  unfold w3. cbn [objects]. rewrite lookup_app_l; [done|]. by eapply lookup_lt_Some.
Qed.

Lemma item_out_of_range_fails_late_witness :
  exists err w', bound_on_item 0 3 ">=" 2%Q (final_world (one_variable empty_world))
                 = Raise err w'
                 /\ (forall m, err <> Exception m)
                 /\ objects w' !! 0
                    = Some (CVar (new_variable "x" 3 false 0 [1%Q; 1%Q; 1%Q])).
Proof.
  destruct (proj2 (item_out_of_range_fails_late (final_world (one_variable empty_world)) 0
                     (new_variable "x" 3 false 0 [1%Q; 1%Q; 1%Q]) 3 ">=" 2%Q
                     ltac:(vm_compute; reflexivity) ltac:(simpl; lia) ltac:(reflexivity)
                     ltac:(reflexivity) ltac:(lia) ltac:(left; simpl; lia)
                     ltac:(left; reflexivity)))
    as (err & w' & Hrun & Herr & _ & Hx).
  exists err, w'. split; [exact Hrun|]. split; [exact Herr | exact Hx].
Defined.

(** ** The reset at the end of [evaluate] *)

Lemma bind_ok_inv {A B} (m : M A) (k : A -> M B) w b w' :
  bind m k w = Ok b w' -> exists a w1, m w = Ok a w1 /\ k a w1 = Ok b w'.
Proof. unfold bind. destruct (m w) as [a w1|e w1]; [eauto | done]. Qed.

Lemma set_expr_ok_inv r e w w' :
  set_expr r e w = Ok tt w' ->
  exists c, objects w !! r = Some c
            /\ w' = mkWorld (<[r := match c with
                                    | CVar v => CVar (CyLPVar.set_expr e v)
                                    | CExpr n => CExpr (CyLPExpr.set_expr e n)
                                    | CArr a => CArr a
                                    end]> (objects w)) (model w)
            /\ expr_of w' r = Some e.
Proof.
  unfold set_expr. rewrite run_get_heap.
  destruct (objects w !! r) as [[v|n|a]|] eqn:E; try done.
  - intros H. injection H as <-. exists (CVar v). repeat split.
    unfold expr_of. cbn [objects]. rewrite list_lookup_insert_eq; [done|].
    by eapply lookup_lt_Some.
  - intros H. injection H as <-. exists (CExpr n). repeat split.
    unfold expr_of. cbn [objects]. rewrite list_lookup_insert_eq; [done|].
    by eapply lookup_lt_Some.
Qed.

(** The reset loop at the end of [evaluate]. *)
Lemma reset_loop l : forall w w',
  for_each l (fun var => set_expr var var) w = Ok tt w' ->
  (forall k, k ∈ l -> expr_of w' k = Some k)
  /\ (forall r, r ∉ l -> objects w' !! r = objects w !! r)
  /\ model w' = model w.
Proof.
  induction l as [|k l IH]; intros w w' H; simpl in H.
  - injection H as <-. repeat split. intros k Hk. by apply elem_of_nil in Hk.
  - apply bind_ok_inv in H as ([] & w1 & Hset & Hrest).
    apply set_expr_ok_inv in Hset as (c & Hc & Hw1 & Hexpr).
    destruct (IH w1 w' Hrest) as (Hin & Hout & Hmodel).
    split; [|split].
    + intros k' Hk'. apply elem_of_cons in Hk' as [->|Hk']; [|by apply Hin].
      destruct (decide (k ∈ l)) as [Hkl|Hkl]; [by apply Hin|].
      unfold expr_of in *. by rewrite (Hout k Hkl).
    + intros r Hr. apply not_elem_of_cons in Hr as [Hne Hr].
      rewrite (Hout r Hr). rewrite Hw1. cbn [objects].
      by rewrite list_lookup_insert_ne.
    + rewrite Hmodel, Hw1. reflexivity.
Qed.

(** X6.  When [evaluate] returns a constraint, every object that has a
    coefficient in it has had its [expr] pointed back at itself. *)
Theorem evaluate_resets_its_keys (self : ref) (w w' : world) (cons : CyLPConstraint.t) :
  evaluate self w = Ok cons w' ->
  forall var, var ∈ map fst (CyLPConstraint.varCoefs cons) -> expr_of w' var = Some var.
Proof.
  unfold evaluate. rewrite run_get_heap.
  destruct (getPostfix _ _ _) as [tokens|]; [|done].
  intros H.
  apply bind_ok_inv in H as (st & w1 & _ & H).
  rewrite run_get_heap in H.
  apply bind_ok_inv in H as (cons' & w2 & _ & H).
  apply bind_ok_inv in H as ([] & w3 & Hloop & H).
  injection H as -> ->.
  apply (reset_loop _ _ _ Hloop).
Qed.

Lemma evaluate_resets_its_keys_witness :
  expr_of (final_world (slice_constraint (Arr1 [1%Q; 2%Q]) (Arr1 [5%Q])
                          (fun e => ret e) empty_world)) 1 = Some 3
  /\ expr_of (final_world
               (evaluate 5 (final_world (slice_constraint (Arr1 [1%Q; 2%Q]) (Arr1 [5%Q])
                                           (fun e => ret e) empty_world)))) 1 = Some 1.
Proof.
  split; [vm_compute; reflexivity|].
  apply (evaluate_resets_its_keys 5
           (final_world (slice_constraint (Arr1 [1%Q; 2%Q]) (Arr1 [5%Q])
                           (fun e => ret e) empty_world))
           _
           (CyLPConstraint.mk ["x"] [("x", 3%Z)] [(1, VRef 2)] (VRef 7) (VRef 4)
              (Some 1%Z) false [1])).
  - vm_compute. reflexivity.
  - simpl. left.
Defined.

(** ** What [makeMatrices] changes, and its bound vectors *)

Lemma keeps_get_model_bind h vs cs {B} (k : CyLPModel.t -> M B) :
  (forall m, CyLPModel.variables m = vs -> CyLPModel.constraints m = cs ->
             preserves (same_problem h vs cs) (k m)) ->
  preserves (same_problem h vs cs) (bind get_model k).
Proof. intros Hk w Hw. rewrite run_get_model. apply Hk; [apply Hw | apply Hw | exact Hw]. Qed.

Lemma keeps_put_model h vs cs m :
  CyLPModel.variables m = vs -> CyLPModel.constraints m = cs ->
  preserves (same_problem h vs cs) (put_model m).
Proof. intros Hv Hm w [Hh _]. split; [exact Hh | split; [exact Hv | exact Hm]]. Qed.

Ltac kept_by known :=
  repeat first
    [ known
    | apply preserves_ret | apply preserves_raise | apply preserves_get_heap
    | apply keeps_get_model_bind; intros ? ? ?
    | apply keeps_put_model; assumption
    | apply preserves_bind; [|intros ?]
    | apply preserves_for_each; intros ?
    | apply preserves_fold_M; intros ? ?
    | progress cbv zeta
    | case_match ].

Lemma keeps_get_var h vs cs r : preserves (same_problem h vs cs) (get_var r).
Proof. unfold get_var. kept_by fail. Qed.

Lemma keeps_np_zeros h vs cs d : preserves (same_problem h vs cs) (np_zeros d).
Proof. unfold np_zeros. kept_by fail. Qed.

Lemma keeps_additem h vs cs a i c : preserves (same_problem h vs cs) (additem a i c).
Proof. unfold additem. kept_by fail. Qed.

Lemma keeps_sparseConcat h vs cs a b d : preserves (same_problem h vs cs) (sparseConcat a b d).
Proof. unfold sparseConcat. kept_by fail. Qed.

Lemma keeps_coef_array h vs cs c v : preserves (same_problem h vs cs) (coef_array c v).
Proof. unfold coef_array. kept_by fail. Qed.

Lemma keeps_concatenate h vs cs a b : preserves (same_problem h vs cs) (concatenate a b).
Proof. unfold concatenate. kept_by fail. Qed.

Ltac kept_known :=
  first [ apply keeps_get_var | apply keeps_np_zeros | apply keeps_additem
        | apply keeps_sparseConcat | apply keeps_coef_array | apply keeps_concatenate ].

Lemma keeps_makeIndexFactory h vs cs : preserves (same_problem h vs cs) makeIndexFactory.
Proof. unfold makeIndexFactory. kept_by kept_known. Qed.

Lemma keeps_generateVarMatrix h vs cs n : preserves (same_problem h vs cs) (generateVarMatrix n).
Proof. unfold generateVarMatrix, constraint_fragment. kept_by kept_known. Qed.

Lemma keeps_makeMatrices h vs cs : preserves (same_problem h vs cs) makeMatrices.
Proof.
  unfold makeMatrices.
  kept_by ltac:(first [ apply keeps_makeIndexFactory
                      | apply keeps_generateVarMatrix | kept_known ]).
Qed.

(** X7.  [makeMatrices], whether it returns or raises, leaves every
    object of the store, the model's list of variables and its list of
    constraints as they were: it only rewrites the index bookkeeping. *)
Theorem makeMatrices_is_read_only (w : world) :
  objects (final_world (makeMatrices w)) = objects w
  /\ CyLPModel.variables (model (final_world (makeMatrices w)))
     = CyLPModel.variables (model w)
  /\ CyLPModel.constraints (model (final_world (makeMatrices w)))
     = CyLPModel.constraints (model w).
Proof. apply keeps_makeMatrices. by split. Qed.

Lemma ok_keeps {A} (m : M A) h vs cs w a w' :
  preserves (same_problem h vs cs) m -> same_problem h vs cs w ->
  m w = Ok a w' -> same_problem h vs cs w'.
Proof. intros Hm Hw E. specialize (Hm w Hw). by rewrite E in Hm. Qed.

(** The loops of [makeMatrices] that gather bounds. *)
Lemma gather_variable_bounds (f : CyLPVar.t -> list Q) (vs : list ref) :
  forall acc w r w',
    fold_M vs (fun acc v => x <- get_var v ;; ret (acc ++ f x)) acc w = Ok r w' ->
    w' = w
    /\ r = acc ++ concat (map (fun v => match objects w !! v with
                                        | Some (CVar x) => f x
                                        | _ => []
                                        end) vs).
Proof.
  induction vs as [|v vs IH]; intros acc w r w' H; simpl in H.
  - injection H as <- <-. by rewrite app_nil_r.
  - apply bind_ok_inv in H as (acc1 & w1 & Hstep & Hrest).
    unfold get_var in Hstep. rewrite run_assoc, run_get_heap in Hstep.
    destruct (objects w !! v) as [[x| |]|] eqn:E; try done.
    injection Hstep as <- <-.
    destruct (IH _ _ _ _ Hrest) as [-> ->]. split; [done|].
    simpl. rewrite E. by rewrite app_assoc.
Qed.

Lemma gather_row_bounds (f : CyLPConstraint.t -> value) (cs : list CyLPConstraint.t) :
  forall acc w r w',
    fold_M cs (fun acc c => if CyLPConstraint.isRange c then ret acc
                            else concatenate acc (f c)) acc w = Ok r w' ->
    w' = w /\ r = acc ++ concat (map (fun c => entries w (f c)) (with_rows cs)).
Proof.
  induction cs as [|c cs IH]; intros acc w r w' H; simpl in H.
  - injection H as <- <-. by rewrite app_nil_r.
  - apply bind_ok_inv in H as (acc1 & w1 & Hstep & Hrest).
    unfold with_rows. simpl. destruct (CyLPConstraint.isRange c); simpl.
    + injection Hstep as <- <-. by apply IH.
    + unfold concatenate in Hstep. rewrite run_get_heap in Hstep.
      unfold entries, bound_of.
      destruct (as_ndarray (objects w) (f c)) as [[l|]|]; try done.
      injection Hstep as <- <-.
      destruct (IH _ _ _ _ Hrest) as [-> ->]. split; [done|].
      by rewrite app_assoc.
Qed.

(** X8.  When [makeMatrices] returns, its row-bound vectors are the
    [lower] arrays, respectively the [upper] arrays, of the constraints
    that are not ranges, joined in the order of the constraint list, and
    its variable-bound vectors are the [lower] and [upper] arrays of the
    model's variables, joined in the order the variables were added. *)
Theorem bound_vectors_are_concatenations (w w' : world) (ms : matrices) :
  makeMatrices w = Ok ms w' ->
  c_lower ms = concat (map (fun c => entries w (CyLPConstraint.lower c))
                         (with_rows (CyLPModel.constraints (model w))))
  /\ c_upper ms = concat (map (fun c => entries w (CyLPConstraint.upper c))
                            (with_rows (CyLPModel.constraints (model w))))
  /\ v_lower ms = concat (map (fun v => default [] (lower_of w v))
                            (CyLPModel.variables (model w)))
  /\ v_upper ms = concat (map (fun v => default [] (upper_of w v))
                            (CyLPModel.variables (model w))).
Proof.
  intros H. unfold makeMatrices in H.
  set (h := objects w). set (vs := CyLPModel.variables (model w)).
  set (cs := CyLPModel.constraints (model w)).
  assert (same_problem h vs cs w) as Hw by done.
  apply bind_ok_inv in H as ([] & w1 & H1 & H).
  pose proof (ok_keeps _ _ _ _ _ _ _ (keeps_makeIndexFactory h vs cs) Hw H1) as Hw1.
  rewrite run_get_model in H.
  apply bind_ok_inv in H as (master & w2 & H2 & H).
  assert (same_problem h vs cs w2) as Hw2.
  { eapply ok_keeps; [|exact Hw1|exact H2].
    kept_by ltac:(first [ apply keeps_generateVarMatrix | kept_known ]). }
  destruct Hw1 as (_ & Hvs1 & Hcs1). rewrite Hvs1, Hcs1 in H.
  destruct Hw2 as (Hh2 & _ & _).
  apply bind_ok_inv in H as (cl & w3 & H3 & H).
  apply gather_row_bounds in H3 as [-> ->].
  apply bind_ok_inv in H as (cu & w4 & H4 & H).
  apply gather_row_bounds in H4 as [-> ->].
  apply bind_ok_inv in H as (vl & w5 & H5 & H).
  apply gather_variable_bounds in H5 as [-> ->].
  apply bind_ok_inv in H as (vu & w6 & H6 & H).
  apply gather_variable_bounds in H6 as [-> ->].
  injection H as <- <-. cbn [c_lower c_upper v_lower v_upper].
  unfold entries, bound_of, lower_of, upper_of. rewrite Hh2. fold h.
  repeat split; try reflexivity.
  - f_equal. apply map_ext. intros v. by destruct (h !! v) as [[]|].
  - f_equal. apply map_ext. intros v. by destruct (h !! v) as [[]|].
Qed.

Lemma bound_vectors_are_concatenations_witness :
  exists ms, makeMatrices (final_world (one_row_model empty_world))
             = Ok ms (final_world (makeMatrices (final_world (one_row_model empty_world))))
    /\ c_upper ms = [5%Q]
    /\ length (v_lower ms) = 3.
Proof.
  exists (mkMatrices (Some (Arr1 [0%Q; 1%Q; 2%Q]))
            [Qopp getCoinInfinity * 1] [5%Q]
            (replicate 3 (Qopp getCoinInfinity * 1)) (replicate 3 (getCoinInfinity * 1)))%Q.
  assert (makeMatrices (final_world (one_row_model empty_world))
          = Ok (mkMatrices (Some (Arr1 [0%Q; 1%Q; 2%Q]))
            [Qopp getCoinInfinity * 1] [5%Q]
            (replicate 3 (Qopp getCoinInfinity * 1)) (replicate 3 (getCoinInfinity * 1)))%Q
            (final_world (makeMatrices (final_world (one_row_model empty_world))))) as H
    by (vm_compute; reflexivity).
  split; [exact H|].
  destruct (bound_vectors_are_concatenations _ _ _ H) as (_ & Hcu & Hvl & _).
  split; [reflexivity|]. rewrite Hvl. vm_compute. reflexivity.
Defined.

(** ** A number times a Variable *)

Lemma as_CyLPVar_inv h v r x :
  as_CyLPVar h v = Some (r, x) -> v = VRef r /\ h !! r = Some (CVar x).
Proof.
  destruct v as [| | |c]; try done. simpl.
  destruct (h !! c) as [[y| |]|] eqn:E; try done. by intros [= <- <-].
Qed.

Lemma as_CyLPVar_app h c r x :
  h !! r = Some (CVar x) -> as_CyLPVar (h ++ [c]) (VRef r) = Some (r, x).
Proof.
  intros H. simpl. rewrite lookup_app_l by (by eapply lookup_lt_Some). by rewrite H.
Qed.

Lemma add_name_has rv c : str_in (CyLPVar.name rv) (CyLPConstraint.varNames (add_name rv c)) = true.
Proof.
  unfold add_name.
  destruct (str_in (CyLPVar.name rv) (CyLPConstraint.varNames c)) eqn:E; [done|].
  cbn [CyLPConstraint.varNames CyLPConstraint.set_names].
  unfold str_in. rewrite existsb_app. cbn [existsb]. by rewrite String.eqb_refl, orb_true_r.
Qed.

(** [perform "*"] with a number on the left and a Variable on the right. *)
Lemma perform_mul_scalar w c q rgt r rv :
  as_CyLPVar (objects w) rgt = Some (r, rv) ->
  (0 <= CyLPVar.dim rv)%Z ->
  perform "*" (VNum q) rgt c w =
    if nRows_conflicts (add_name rv c) 1 then Raise (Exception ExpectedOneDimensional) w
    else Ok (CyLPConstraint.set_isRange false
               (set_coef r (VRef (length (objects w)))
                  (CyLPConstraint.set_nRows (Some 1%Z) (add_name rv c))))
            (mkWorld (objects w ++ [CArr (Arr1 (replicate (Z.to_nat (CyLPVar.dim rv)) q))])
               (model w)).
Proof.
  intros Hr Hdim. destruct (as_CyLPVar_inv _ _ _ _ Hr) as [-> Hx].
  unfold perform, perform_right. run. rewrite Hr. cbn [String.eqb Ascii.eqb Bool.eqb].
  cbv beta iota. simpl orb. cbv beta iota. run.
  unfold perform_mul. simpl as_number. cbv beta iota.
  destruct (nRows_conflicts _ _); [done|]. run.
  rewrite run_np_ones by done. run. rewrite scalar_ones.
  unfold perform_left. run. simpl as_CyLPVar. cbv beta iota. run.
  unfold perform_negate. run. cbn [objects].
  unfold as_plain_CyLPExpr. rewrite lookup_app_l by (by eapply lookup_lt_Some).
  rewrite Hx. reflexivity.
Qed.

(** X9.  [perform] on [*] with a number [q] on the left and a Variable
    on the right raises the module's one-dimensional-coefficient error
    when the constraint already has a row count other than 0 and 1.
    Otherwise it records a fresh array of [dim] entries [q] as the
    Variable's coefficient, sets the row count to 1, marks the
    constraint as not a range, notes the Variable's name, and leaves
    every existing object alone. *)
Theorem scalar_times_variable (w : world) (c : CyLPConstraint.t) (q : Q) (rgt : value)
    (r : ref) (rv : CyLPVar.t) :
  as_CyLPVar (objects w) rgt = Some (r, rv) ->
  (0 <= CyLPVar.dim rv)%Z ->
  (forall n, CyLPConstraint.nRows c = Some n -> n <> 0%Z -> n <> 1%Z ->
             perform "*" (VNum q) rgt c w = Raise (Exception ExpectedOneDimensional) w)
  /\ (CyLPConstraint.nRows c = None \/ CyLPConstraint.nRows c = Some 0%Z
      \/ CyLPConstraint.nRows c = Some 1%Z ->
      exists c' w',
        perform "*" (VNum q) rgt c w = Ok c' w'
        /\ (exists coef, dict_get Nat.eqb r (CyLPConstraint.varCoefs c') = Some coef
                         /\ bound_of w' coef
                            = Some (Arr1 (replicate (Z.to_nat (CyLPVar.dim rv)) q)))
        /\ CyLPConstraint.nRows c' = Some 1%Z
        /\ CyLPConstraint.isRange c' = false
        /\ str_in (CyLPVar.name rv) (CyLPConstraint.varNames c') = true
        /\ (forall k cell, objects w !! k = Some cell -> objects w' !! k = Some cell)).
Proof.
  intros Hr Hdim. rewrite (perform_mul_scalar w c q rgt r rv Hr Hdim).
  destruct (add_name_fields rv c) as (Hn & _ & _).
  split.
  - intros n Hrows Hn0 Hn1. unfold nRows_conflicts. rewrite Hn, Hrows.
    destruct (Z.eqb_spec n 0), (Z.eqb_spec n 1); try congruence. done.
  - intros Hrows.
    assert (nRows_conflicts (add_name rv c) 1 = false) as ->.
    { unfold nRows_conflicts. rewrite Hn. by destruct Hrows as [-> | [-> | ->]]. }
    eexists _, _. split; [reflexivity|]. split; [|split; [|split; [|split]]].
    + eexists. split; [apply dict_get_set_nat|].
      unfold bound_of, as_ndarray. cbn [objects]. by rewrite list_lookup_middle.
    + reflexivity.
    + reflexivity.
    + apply add_name_has.
    + intros k cell Hk. cbn [objects]. rewrite lookup_app_l; [done|by eapply lookup_lt_Some].
Qed.

Lemma scalar_times_variable_witness :
  exists c' w',
    perform "*" (VNum 2%Q) (VRef 0) CyLPConstraint.init
      (final_world (one_variable empty_world)) = Ok c' w'
    /\ CyLPConstraint.nRows c' = Some 1%Z
    /\ CyLPConstraint.isRange c' = false.
Proof.
  destruct (proj2 (scalar_times_variable (final_world (one_variable empty_world))
                     CyLPConstraint.init 2%Q (VRef 0) 0
                     (new_variable "x" 3 false 0 [1%Q; 1%Q; 1%Q])
                     ltac:(vm_compute; reflexivity) ltac:(simpl; lia))
              ltac:(left; reflexivity))
    as (c' & w' & H & _ & Hn & Hr & _).
  exists c', w'. split; [exact H|]. split; [exact Hn | exact Hr].
Defined.

(** ** Postfix forms of built expressions *)

Lemma grows_symbolic h h' v :
  grows h h' -> in_store h v ->
  isinstance_CyLPExpr h' v = isinstance_CyLPExpr h v.
Proof.
  intros Hg Hin. destruct v as [| | |c]; try done. simpl.
  assert (c < length h) as Hc by (by apply Hin).
  destruct (lookup_lt_is_Some_2 _ _ Hc) as [cell Hcell].
  destruct (Hg _ _ Hcell) as (cell' & -> & Hs). rewrite Hcell.
  by destruct cell, cell'.
Qed.

Lemma getPostfix_grows h h' :
  closed h -> grows h h' ->
  forall n r ts, getPostfix n h r = Some ts -> getPostfix n h' r = Some ts.
Proof.
  intros Hc Hg. induction n as [|n IH]; intros r ts H; [done|].
  simpl in *. destruct (h !! r) as [[x|e|a]|] eqn:Er; try done.
  - destruct (Hg _ _ Er) as (c' & -> & Hs). by destruct c'.
  - destruct (Hg _ _ Er) as (c' & -> & Hs). destruct c' as [|e'|]; try done.
    destruct Hs as (Ho & Hl & Hr). rewrite <- Ho, <- Hl, <- Hr.
    destruct (Hc _ _ Er) as [Hinl Hinr].
    assert (forall v l, in_store h v ->
              match v with
              | VRef r0 => if isinstance_CyLPExpr h v then getPostfix n h r0 else Some [v]
              | _ => Some [v]
              end = Some l ->
              match v with
              | VRef r0 => if isinstance_CyLPExpr h' v then getPostfix n h' r0 else Some [v]
              | _ => Some [v]
              end = Some l) as Hside.
    { intros v l Hin. destruct v as [| | |c]; try done.
      rewrite (grows_symbolic h h' (VRef c) Hg Hin).
      destruct (isinstance_CyLPExpr h (VRef c)); [apply IH | done]. }
    destruct (match CyLPExpr.left e with VRef _ => _ | _ => _ end) as [l|] eqn:El; [|done].
    simpl in H.
    destruct (match CyLPExpr.right e with VRef _ => _ | _ => _ end) as [l'|] eqn:Er'; [|done].
    rewrite (Hside _ _ Hinl El). simpl. rewrite (Hside _ _ Hinr Er'). exact H.
Qed.

(** The postfix of a node just created, from those of its operands in
    the store it was added to. *)
Lemma getPostfix_new_node h h' opr lft rgt x pl pr :
  closed h -> grows h h' ->
  h' !! length h = Some (CExpr (CyLPExpr.mk opr lft rgt x)) ->
  length h' = S (length h) ->
  in_store h lft -> in_store h rgt ->
  operand_postfix h lft = Some pl -> operand_postfix h rgt = Some pr ->
  getPostfix (length h') h' (length h) = Some (pl ++ pr ++ [opr]).
Proof.
  intros Hc Hg Hnew Hlen Hinl Hinr Hl Hr. rewrite Hlen. simpl. rewrite Hnew. simpl.
  assert (forall v l, in_store h v -> operand_postfix h v = Some l ->
            match v with
            | VRef r0 => if isinstance_CyLPExpr h' v then getPostfix (length h) h' r0
                         else Some [v]
            | _ => Some [v]
            end = Some l) as Hside.
  { intros v l Hin. unfold operand_postfix. destruct v as [| | |c]; try done.
    rewrite (grows_symbolic h h' (VRef c) Hg Hin).
    destruct (isinstance_CyLPExpr h (VRef c)); [by apply getPostfix_grows | done]. }
  rewrite (Hside _ _ Hinl Hl). simpl. rewrite (Hside _ _ Hinr Hr). done.
Qed.

Lemma same_shape_refl c : same_shape c c.
Proof. by destruct c. Qed.

(** Adding an object and repointing the [expr] of another. *)
Lemma grows_new_node h self cell cell' new :
  h !! self = Some cell -> same_shape cell cell' ->
  grows h (<[self := cell']> (h ++ [new])).
Proof.
  intros Hself Hs r c Hr.
  assert (r < length h) by (by eapply lookup_lt_Some).
  destruct (decide (r = self)) as [->|Hne].
  - exists cell'. rewrite list_lookup_insert_eq by (rewrite length_app; lia).
    split; [done|]. by replace c with cell by congruence.
  - exists c. rewrite list_lookup_insert_ne by done. rewrite lookup_app_l by done.
    split; [done | apply same_shape_refl].
Qed.

Lemma closed_new_node h self cell cell' opr lft rgt x :
  closed h -> h !! self = Some cell -> same_shape cell cell' ->
  in_store h lft -> in_store h rgt ->
  closed (<[self := cell']> (h ++ [CExpr (CyLPExpr.mk opr lft rgt x)])).
Proof.
  intros Hc Hself Hs Hinl Hinr r e Hr.
  assert (self < length h) by (by eapply lookup_lt_Some).
  assert (forall v, in_store h v ->
            in_store (<[self := cell']> (h ++ [CExpr (CyLPExpr.mk opr lft rgt x)])) v) as Hmono.
  { intros v Hv c ->. rewrite length_insert, length_app. specialize (Hv c eq_refl). lia. }
  destruct (decide (r = self)) as [->|Hne].
  - rewrite list_lookup_insert_eq in Hr by (rewrite length_app; lia).
    injection Hr as ->. destruct cell as [|e0|]; try done.
    destruct Hs as (_ & <- & <-). destruct (Hc _ _ Hself). split; by apply Hmono.
  - rewrite list_lookup_insert_ne in Hr by done.
    destruct (decide (r < length h)) as [Hlt|Hge].
    + rewrite lookup_app_l in Hr by done. destruct (Hc _ _ Hr). split; by apply Hmono.
    + assert (r = length h) as ->.
      { apply lookup_lt_Some in Hr. rewrite length_app in Hr. simpl in Hr. lia. }
      rewrite list_lookup_middle in Hr by done. injection Hr as <-.
      split; by apply Hmono.
Qed.

Lemma expr_of_cell w self e0 :
  expr_of w self = Some e0 ->
  exists cell, objects w !! self = Some cell
    /\ match cell with
       | CVar v => CyLPVar.expr v = e0
       | CExpr n => CyLPExpr.expr n = e0
       | CArr _ => False
       end.
Proof.
  unfold expr_of. destruct (objects w !! self) as [[v|n|a]|]; try done;
    intros [= <-]; (eexists; split; [reflexivity|]; reflexivity).
Qed.

(** The three ways the operator methods build a node. *)
Lemma run_node w self cell opr lft rgt :
  objects w !! self = Some cell ->
  match cell with CArr _ => False | _ => True end ->
  (v <- CyLPExpr_init (VStr opr) lft rgt ;; set_expr self v ;;; ret v) w =
    Ok (length (objects w))
       (mkWorld (<[self := match cell with
                           | CVar x => CVar (CyLPVar.set_expr (length (objects w)) x)
                           | CExpr n => CExpr (CyLPExpr.set_expr (length (objects w)) n)
                           | CArr a => CArr a
                           end]>
                   (objects w ++ [CExpr (CyLPExpr.mk (VStr opr) lft rgt (length (objects w)))]))
          (model w)).
Proof.
  intros Hself Hcell. assert (self < length (objects w)) by (by eapply lookup_lt_Some).
  run. unfold set_expr. run. cbn [objects]. rewrite lookup_app_l by done. rewrite Hself.
  destruct cell; try done.
Qed.

Lemma built_node w self cell opr lft rgt pl pr :
  closed (objects w) ->
  objects w !! self = Some cell ->
  match cell with CArr _ => False | _ => True end ->
  in_store (objects w) lft -> in_store (objects w) rgt ->
  operand_postfix (objects w) lft = Some pl ->
  operand_postfix (objects w) rgt = Some pr ->
  exists w',
    (v <- CyLPExpr_init (VStr opr) lft rgt ;; set_expr self v ;;; ret v) w
    = Ok (length (objects w)) w'
    /\ getPostfix (length (objects w')) (objects w') (length (objects w))
       = Some (pl ++ pr ++ [VStr opr])
    /\ expr_of w' self = Some (length (objects w))
    /\ closed (objects w')
    /\ model w' = model w.
Proof.
  intros Hc Hself Hcell Hinl Hinr Hl Hr.
  assert (self < length (objects w)) by (by eapply lookup_lt_Some).
  eexists. split; [by apply run_node|]. cbn [objects model].
  set (cell' := match cell with CVar x => _ | CExpr n => _ | CArr a => _ end).
  assert (same_shape cell cell') as Hs by (by destruct cell).
  split; [|split; [|split]].
  - eapply (getPostfix_new_node (objects w) _ (VStr opr) lft rgt _ pl pr); try done.
    + by eapply grows_new_node.
    + rewrite list_lookup_insert_ne by lia. by apply list_lookup_middle.
    + rewrite length_insert, length_app. simpl. lia.
  - unfold expr_of. cbn [objects].
    rewrite list_lookup_insert_eq by (rewrite length_app; lia).
    unfold cell'. by destruct cell.
  - by eapply closed_new_node.
  - reflexivity.
Qed.

Lemma getPostfix_symbolic h n r ts :
  getPostfix n h r = Some ts ->
  isinstance_CyLPExpr h (VRef r) = true /\ r < length h.
Proof.
  destruct n as [|n]; [done|]. simpl.
  destruct (h !! r) as [[x|e|a]|] eqn:E; try done; intros _;
    (split; [done | by eapply lookup_lt_Some]).
Qed.

Lemma operand_postfix_symbolic h r ts :
  getPostfix (length h) h r = Some ts ->
  operand_postfix h (VRef r) = Some ts /\ in_store h (VRef r).
Proof.
  intros H. destruct (getPostfix_symbolic _ _ _ _ H) as [Hs Hlt].
  unfold operand_postfix. rewrite Hs. split; [done|]. by intros c [= <-].
Qed.

(** X13.  How the operator methods compose.  On a store whose nodes
    refer to objects of the store, let [ps] be the postfix of [self],
    [pe] that of [self.expr] and [po] that of the operand [other].  A
    comparison method returns a new node with postfix
    [pe ++ po ++ [opr]]; a reflected arithmetic method one with
    [po ++ ps ++ [opr]]; a unary method one with the empty-string
    placeholder, [ps] and [opr].  Each repoints [self.expr] to the new
    node and keeps the store closed, so the statement applies again to
    the next operator. *)
Theorem operators_extend_postfix (w : world) (opr : string) (self : ref) (other : value)
    (e0 : ref) (ps pe po : list value) :
  closed (objects w) ->
  expr_of w self = Some e0 ->
  getPostfix (length (objects w)) (objects w) self = Some ps ->
  getPostfix (length (objects w)) (objects w) e0 = Some pe ->
  in_store (objects w) other ->
  operand_postfix (objects w) other = Some po ->
  (exists w', compare_node opr self other w = Ok (length (objects w)) w'
     /\ getPostfix (length (objects w')) (objects w') (length (objects w))
        = Some (pe ++ po ++ [VStr opr])
     /\ expr_of w' self = Some (length (objects w)) /\ closed (objects w'))
  /\ (exists w', reflected_node opr self other w = Ok (length (objects w)) w'
        /\ getPostfix (length (objects w')) (objects w') (length (objects w))
           = Some (po ++ ps ++ [VStr opr])
        /\ expr_of w' self = Some (length (objects w)) /\ closed (objects w'))
  /\ (exists w', unary_node opr self w = Ok (length (objects w)) w'
        /\ getPostfix (length (objects w')) (objects w') (length (objects w))
           = Some ([VStr ""] ++ ps ++ [VStr opr])
        /\ expr_of w' self = Some (length (objects w)) /\ closed (objects w')).
Proof.
  intros Hc He Hps Hpe Hin Hpo.
  destruct (expr_of_cell _ _ _ He) as (cell & Hself & Hcell).
  assert (match cell with CArr _ => False | _ => True end) as Hk by (by destruct cell).
  destruct (operand_postfix_symbolic _ _ _ Hps) as [Hs Hins].
  destruct (operand_postfix_symbolic _ _ _ Hpe) as [He0 Hine].
  split; [|split].
  - unfold compare_node, get_expr. run. rewrite Hself.
    assert ((match cell with
             | CVar v0 => ret (CyLPVar.expr v0)
             | CExpr e => ret (CyLPExpr.expr e)
             | CArr _ => raise AttributeError
             end) = ret e0) as -> by (destruct cell; try done; by subst).
    run.
    destruct (built_node w self cell opr (VRef e0) other pe po)
      as (w' & Hrun & Hp & Hx & Hcl & _); try done.
    exists w'. revert Hrun. run. by intros ->.
  - unfold reflected_node.
    destruct (built_node w self cell opr other (VRef self) po ps)
      as (w' & Hrun & Hp & Hx & Hcl & _); try done.
    by exists w'.
  - unfold unary_node.
    destruct (built_node w self cell opr (VStr "") (VRef self) [VStr ""] ps)
      as (w' & Hrun & Hp & Hx & Hcl & _); try done.
    by exists w'.
Qed.

Lemma operators_extend_postfix_witness :
  exists w',
    compare_node "<=" 0 (VNum 2%Q) (final_world (at_least_one empty_world)) = Ok 2 w'
    /\ getPostfix (length (objects w')) (objects w') 2
       = Some [VRef 0; VNum 1%Q; VStr ">="; VNum 2%Q; VStr "<="].
Proof.
  destruct (proj1 (operators_extend_postfix (final_world (at_least_one empty_world))
                     "<=" 0 (VNum 2%Q) 1 [VRef 0] [VRef 0; VNum 1%Q; VStr ">="] [VNum 2%Q]
                     ltac:(intros [|[|r]] e H; simpl in H; try done;
                           injection H as <-; split; intros c [=]; simpl; lia)
                     ltac:(vm_compute; reflexivity) ltac:(vm_compute; reflexivity)
                     ltac:(vm_compute; reflexivity) ltac:(intros c [=])
                     ltac:(reflexivity)))
    as (w' & H & Hp & _).
  exists w'. split; [exact H | exact Hp].
Defined.

(** ** Row bounds of a constraint that is not a range *)

Lemma perform_number_comparison opr lft q c w :
  is_comparison opr = true ->
  perform opr lft (VNum q) c w = perform_compare opr lft (VNum q) c w.
Proof.
  intros Hop. unfold perform.
  assert (perform_right opr lft (VNum q) c w = Ok c w) as Hr by reflexivity.
  rewrite (bind_ok _ _ _ _ _ Hr).
  rewrite (bind_ok _ _ _ _ _ (perform_left_comparison opr lft c w Hop)).
  rewrite (bind_ok _ _ _ _ _ (perform_negate_comparison opr (VNum q) c w Hop)).
  by rewrite Hop.
Qed.

Lemma run_infinite_bound {B} (k : value -> M B) w b neg l :
  as_ndarray (objects w) b = Some (Arr1 l) ->
  bind (infinite_bound neg b) k w =
    k (VRef (length (objects w)))
      (mkWorld (objects w
                ++ [CArr (Arr1 (replicate (length l)
                                  (if neg then Qopp getCoinInfinity else getCoinInfinity)))])
         (model w)).
Proof.
  intros Hb. unfold infinite_bound. run.
  assert (len (objects w) b = ret (Z.of_nat (length l))) as ->.
  { unfold len. destruct b; try done. by rewrite Hb. }
  run.
  rewrite run_np_ones by lia. run. rewrite scalar_ones, Nat2Z.id. reflexivity.
Qed.

Lemma perform_compare_rows w opr lft q cons d :
  isinstance_CyLPExpr (objects w) lft = true ->
  CyLPConstraint.isRange cons = false ->
  CyLPConstraint.nRows cons = Some d -> (0 <= d)%Z ->
  CyLPConstraint.lower cons = VNone -> CyLPConstraint.upper cons = VNone ->
  opr = ">=" \/ opr = "<=" ->
  let n := length (objects w) in
  let bound := replicate (Z.to_nat d) q in
  perform_compare opr lft (VNum q) cons w =
    Ok (if String.eqb opr ">="
        then CyLPConstraint.set_upper (VRef (S n)) (CyLPConstraint.set_lower (VRef n) cons)
        else CyLPConstraint.set_lower (VRef (S n)) (CyLPConstraint.set_upper (VRef n) cons))
       (mkWorld (objects w
                 ++ [CArr (Arr1 bound)]
                 ++ [CArr (Arr1 (replicate (Z.to_nat d)
                                   (if String.eqb opr ">=" then getCoinInfinity
                                    else Qopp getCoinInfinity)))])
          (model w)).
Proof.
  intros Hl Hrange Hrows Hd Hlo Hup Hop n bound.
  unfold perform_compare. run. rewrite Hl. simpl isinstance_CyLPExpr. simpl andb.
  run. rewrite Hrange. run. simpl fst. simpl snd. simpl as_number. cbv beta iota.
  rewrite Hrows. run. rewrite run_np_ones by done. run. rewrite scalar_ones. fold bound.
  rewrite Hrange.
  set (w1 := mkWorld (objects w ++ [CArr (Arr1 bound)]) (model w)).
  assert (as_ndarray (objects w1) (VRef n) = Some (Arr1 bound)) as Hb.
  { unfold as_ndarray, w1, n. cbn [objects]. by rewrite list_lookup_middle. }
  assert (length bound = Z.to_nat d) as Hlen by (unfold bound; by rewrite length_replicate).
  assert (length (objects w1) = S n) as Hn1.
  { unfold w1, n. cbn [objects]. rewrite length_app. simpl. lia. }
  fold n.
  destruct Hop as [-> | ->];
    cbn [str_in existsb String.eqb Ascii.eqb Bool.eqb orb andb];
    run; cbv zeta;
    cbn [CyLPConstraint.upper CyLPConstraint.lower CyLPConstraint.set_lower
         CyLPConstraint.set_upper];
    rewrite ?Hlo, ?Hup; run;
    rewrite (run_infinite_bound _ w1 _ _ bound Hb); run;
    rewrite Hlen, Hn1; unfold w1; cbn [objects model]; rewrite <- app_assoc; reflexivity.
Qed.

(** X16.  [perform] on [lft >= q] or [lft <= q], for a symbolic [lft],
    a number [q] and a constraint that is not a range, has [d] rows and
    no bounds yet, sets the bound on the side compared with to [d]
    entries [q] and the other bound to [d] entries of plus or minus
    infinity.  Coefficients, row count and existing objects are kept. *)
Theorem one_sided_row_bound (w : world) (opr : string) (lft : value) (q : Q)
    (cons : CyLPConstraint.t) (d : Z) :
  isinstance_CyLPExpr (objects w) lft = true ->
  CyLPConstraint.isRange cons = false ->
  CyLPConstraint.nRows cons = Some d -> (0 <= d)%Z ->
  CyLPConstraint.lower cons = VNone -> CyLPConstraint.upper cons = VNone ->
  opr = ">=" \/ opr = "<=" ->
  exists cons' w',
    perform opr lft (VNum q) cons w = Ok cons' w'
    /\ one_sided opr d q (bound_of w' (CyLPConstraint.lower cons'))
         (bound_of w' (CyLPConstraint.upper cons'))
    /\ CyLPConstraint.varCoefs cons' = CyLPConstraint.varCoefs cons
    /\ CyLPConstraint.nRows cons' = Some d
    /\ CyLPConstraint.isRange cons' = false
    /\ (forall k cell, objects w !! k = Some cell -> objects w' !! k = Some cell).
Proof.
  intros Hl Hrange Hrows Hd Hlo Hup Hop.
  assert (is_comparison opr = true) as Hcmp by (by destruct Hop as [-> | ->]).
  rewrite perform_number_comparison by done.
  rewrite (perform_compare_rows w opr lft q cons d) by done.
  eexists _, _. split; [reflexivity|].
  assert (forall a b, bound_of (mkWorld (objects w ++ [CArr a] ++ [CArr b]) (model w))
                        (VRef (length (objects w))) = Some a) as H0.
  { intros a b. unfold bound_of, as_ndarray. cbn [objects app].
    by rewrite list_lookup_middle. }
  assert (forall a b, bound_of (mkWorld (objects w ++ [CArr a] ++ [CArr b]) (model w))
                        (VRef (S (length (objects w)))) = Some b) as H1.
  { intros a b. unfold bound_of, as_ndarray. cbn [objects].
    rewrite (app_assoc (objects w) [CArr a] [CArr b]).
    rewrite list_lookup_middle; [done|]. rewrite length_app. simpl. lia. }
  split; [|split; [|split; [|split]]].
  - destruct Hop as [-> | ->]; simpl String.eqb; cbv beta iota;
      cbn [CyLPConstraint.upper CyLPConstraint.lower CyLPConstraint.set_lower
           CyLPConstraint.set_upper];
      rewrite H0, H1; split; intros Heq; try done.
  - by destruct (String.eqb opr ">=").
  - by destruct (String.eqb opr ">=").
  - by destruct (String.eqb opr ">=").
  - intros k cell Hk. cbn [objects]. rewrite lookup_app_l; [done|by eapply lookup_lt_Some].
Qed.

Lemma one_sided_row_bound_witness :
  exists cons' w',
    perform "<=" (VRef 2) (VNum 5%Q)
      (CyLPConstraint.mk ["x"] [("x", 3%Z)] [(0, VRef 1)] VNone VNone (Some 1%Z) false [])
      (final_world (scaled_variable empty_world)) = Ok cons' w'
    /\ bound_of w' (CyLPConstraint.upper cons') = Some (Arr1 [5%Q])
    /\ bound_of w' (CyLPConstraint.lower cons') = Some (Arr1 [Qopp getCoinInfinity]).
Proof.
  destruct (one_sided_row_bound (final_world (scaled_variable empty_world)) "<=" (VRef 2) 5%Q
              (CyLPConstraint.mk ["x"] [("x", 3%Z)] [(0, VRef 1)] VNone VNone (Some 1%Z)
                 false [])
              1 ltac:(vm_compute; reflexivity) ltac:(reflexivity) ltac:(reflexivity)
              ltac:(lia) ltac:(reflexivity) ltac:(reflexivity) ltac:(right; reflexivity))
    as (cons' & w' & H & [_ Hb] & _).
  exists cons', w'. split; [exact H|]. exact (Hb eq_refl).
Defined.

(** ** A Variable evaluated on its own *)

Lemma getPostfix_of_variable h r x :
  h !! r = Some (CVar x) -> getPostfix (length h) h r = Some [VRef r].
Proof.
  intros H. apply (getPostfix_more_fuel h 1); [by eapply getPostfix_var|].
  apply lookup_lt_Some in H. lia.
Qed.

Lemma evaluate_variable (w : world) (v : ref) (x : CyLPVar.t) :
  objects w !! v = Some (CVar x) -> (0 <= CyLPVar.dim x)%Z ->
  evaluate v w =
    Ok (set_coef v (VRef (length (objects w)))
          (CyLPConstraint.set_variables [v] CyLPConstraint.init))
       (mkWorld (<[v := CVar (CyLPVar.set_expr v x)]>
                   (objects w ++ [CArr (Arr1 (replicate (Z.to_nat (CyLPVar.dim x)) 1%Q))]))
          (model w)).
Proof.
  intros Hv Hdim. assert (v < length (objects w)) as Hlt by (by eapply lookup_lt_Some).
  unfold evaluate. run.
  rewrite (getPostfix_of_variable _ _ _ Hv).
  cbn [fold_M]. run.
  destruct (evaluate_token_variable [] CyLPConstraint.init v x w Hv) as (c1 & Ht1 & Hc1 & _).
  rewrite (Hc1 eq_refl) in Ht1. clear Hc1 c1.
  erewrite bind_ok by exact Ht1. run. cbn [fst snd].
  unfold as_CyLPVar. rewrite Hv. run.
  rewrite run_np_ones by done. run.
  cbn [set_coef CyLPConstraint.varCoefs CyLPConstraint.set_varCoefs dict_set map fst
       CyLPConstraint.set_variables CyLPConstraint.init for_each].
  unfold set_expr. run. cbn [objects]. rewrite lookup_app_l by done. rewrite Hv. run.
  reflexivity.
Qed.

(** X10.  Evaluating a Variable on its own returns a constraint that is
    still a range, has no row count and no names, and holds one
    coefficient for the Variable, all ones; the Variable's [expr] points
    at itself afterwards.  [addConstraint] on it adds nothing to the
    model's list of constraints. *)
Theorem bare_variable_is_no_constraint (w : world) (v : ref) (x : CyLPVar.t) :
  objects w !! v = Some (CVar x) -> (0 <= CyLPVar.dim x)%Z ->
  (exists cons w',
      evaluate v w = Ok cons w'
      /\ CyLPConstraint.isRange cons = true
      /\ CyLPConstraint.nRows cons = None
      /\ CyLPConstraint.varNames cons = []
      /\ coef_values w' cons = [Some (Arr1 (replicate (Z.to_nat (CyLPVar.dim x)) 1%Q))]
      /\ expr_of w' v = Some v)
  /\ CyLPModel.constraints (model (final_world (addConstraint v w)))
     = CyLPModel.constraints (model w).
Proof.
  intros Hv Hdim. assert (v < length (objects w)) as Hlt by (by eapply lookup_lt_Some).
  pose proof (evaluate_variable w v x Hv Hdim) as Hev.
  split.
  - eexists _, _. split; [exact Hev|]. do 3 (split; [reflexivity|]). split.
    + unfold coef_values, as_ndarray. cbn [set_coef CyLPConstraint.varCoefs
        CyLPConstraint.set_varCoefs dict_set map snd CyLPConstraint.set_variables
        CyLPConstraint.init objects].
      rewrite list_lookup_insert_ne by lia. by rewrite list_lookup_middle.
    + unfold expr_of. cbn [objects].
      rewrite list_lookup_insert_eq by (rewrite length_app; lia). reflexivity.
  - unfold addConstraint. erewrite bind_ok by exact Hev.
    cbn [set_coef CyLPConstraint.isRange CyLPConstraint.set_varCoefs
         CyLPConstraint.set_variables CyLPConstraint.init negb].
    run.
    match goal with
    | |- context [final_world (bind makeMatrices ?k ?w1)] =>
        assert (same_problem (objects w1) (CyLPModel.variables (model w))
                  (CyLPModel.constraints (model w))
                  (final_world (bind makeMatrices k w1))) as (_ & _ & Hcs)
    end.
    { apply preserves_bind; [apply keeps_makeMatrices | intros; apply preserves_ret |].
      by split. }
    exact Hcs.
Qed.

Lemma bare_variable_is_no_constraint_witness :
  CyLPModel.constraints
    (model (final_world (addConstraint 0 (final_world (one_variable empty_world))))) = [].
Proof.
  apply (proj2 (bare_variable_is_no_constraint (final_world (one_variable empty_world)) 0
                  (new_variable "x" 3 false 0 [1%Q; 1%Q; 1%Q])
                  ltac:(vm_compute; reflexivity) ltac:(simpl; lia))).
Defined.

(** ** [sum] *)

Lemma getPostfix_unary_compared h e n v x opr u c se sn :
  h !! e = Some (CExpr (CyLPExpr.mk (VStr opr) (VRef n) (VNum c) se)) ->
  h !! n = Some (CExpr (CyLPExpr.mk (VStr u) (VStr "") (VRef v) sn)) ->
  h !! v = Some (CVar x) ->
  getPostfix (length h) h e = Some [VStr ""; VRef v; VStr u; VNum c; VStr opr].
Proof.
  intros He Hn Hv. apply (getPostfix_more_fuel h 3).
  - simpl. rewrite He. simpl. rewrite Hn. simpl. rewrite Hv. simpl. reflexivity.
  - assert (e <> n) by (intros ->; congruence).
    assert (e <> v) by (intros ->; congruence).
    assert (n <> v) by (intros ->; congruence).
    apply lookup_lt_Some in He, Hn, Hv. lia.
Qed.

(** A bound on a range constraint whose first Variable is unsliced. *)
Lemma perform_compare_range w opr lft v x c cons vs :
  isinstance_CyLPExpr (objects w) lft = true ->
  objects w !! v = Some (CVar x) ->
  CyLPVar.parent x = None -> CyLPVar.indices x = None ->
  (0 <= CyLPVar.parentDim x)%Z ->
  length (CyLPVar.lower x) = Z.to_nat (CyLPVar.parentDim x) ->
  length (CyLPVar.upper x) = Z.to_nat (CyLPVar.parentDim x) ->
  CyLPConstraint.isRange cons = true ->
  CyLPConstraint.variables cons = v :: vs ->
  opr = ">=" \/ opr = "<=" ->
  let vals := replicate (Z.to_nat (CyLPVar.parentDim x)) c in
  let x' := if String.eqb opr ">=" then CyLPVar.set_lower vals x
            else CyLPVar.set_upper vals x in
  perform opr lft (VNum c) cons w =
    Ok (CyLPConstraint.set_nRows (Some (CyLPVar.parentDim x)) cons)
       (mkWorld (<[v := CVar x']> (objects w ++ [CArr (Arr1 vals)])) (model w)).
Proof.
  intros Hl Hv Hpar Hind Hdim Hlo Hup Hrange Hvars Hop vals x'.
  assert (is_comparison opr = true) as Hcmp by (by destruct Hop as [-> | ->]).
  rewrite perform_number_comparison by done.
  assert (v < length (objects w)) as Hlt by (by eapply lookup_lt_Some).
  unfold perform_compare. run.
  rewrite Hl. simpl isinstance_CyLPExpr. simpl andb.
  run. rewrite Hrange, Hvars. run.
  rewrite (run_get_var v x) by done. run. simpl fst. simpl snd. simpl as_number.
  cbv beta iota. run.
  rewrite run_np_ones by done. run. rewrite scalar_ones. fold vals.
  cbn [CyLPConstraint.isRange CyLPConstraint.variables CyLPConstraint.set_nRows].
  rewrite Hrange, Hvars.
  set (w1 := mkWorld (objects w ++ [CArr (Arr1 vals)]) (model w)).
  assert (objects w1 !! v = Some (CVar x)) as Hv1.
  { unfold w1. cbn [objects]. by rewrite lookup_app_l. }
  assert (bound_values (objects w1) (VRef (length (objects w))) = Some vals) as Hb.
  { unfold bound_values, as_ndarray, w1. cbn [objects]. by rewrite list_lookup_middle. }
  assert (forall b, write_bound b v (VRef (length (objects w))) w1 =
            Ok tt (mkWorld (<[v := CVar (if b then CyLPVar.set_lower vals x
                                         else CyLPVar.set_upper vals x)]> (objects w1))
                     (model w1))) as Hw.
  { intros b. apply write_bound_bare; try done.
    unfold vals. rewrite length_replicate. by destruct b. }
  subst x'.
  destruct Hop as [-> | ->];
    cbn [str_in existsb String.eqb Ascii.eqb Bool.eqb orb andb];
    run; unfold bind; rewrite Hw; reflexivity.
Qed.

Lemma perform_sum w v x c :
  objects w !! v = Some (CVar x) ->
  perform "sum" (VStr "") (VRef v) c w = Ok (add_name x c) w.
Proof.
  intros Hv. unfold perform, perform_right. run. unfold as_CyLPVar at 1. rewrite Hv.
  cbn [String.eqb Ascii.eqb Bool.eqb]. cbv beta iota. run.
  unfold perform_left. run. simpl as_CyLPVar. cbv beta iota. run.
  unfold perform_negate. run. unfold as_plain_CyLPExpr. rewrite Hv. run.
  reflexivity.
Qed.

Lemma evaluate_sum_bound (w : world) (e n v : ref) (x : CyLPVar.t) (opr : string) (c : Q)
    (se sn : ref) :
  objects w !! e = Some (CExpr (CyLPExpr.mk (VStr opr) (VRef n) (VNum c) se)) ->
  objects w !! n = Some (CExpr (CyLPExpr.mk (VStr "sum") (VStr "") (VRef v) sn)) ->
  objects w !! v = Some (CVar x) ->
  CyLPVar.parent x = None -> CyLPVar.indices x = None ->
  (0 <= CyLPVar.parentDim x)%Z ->
  length (CyLPVar.lower x) = Z.to_nat (CyLPVar.parentDim x) ->
  length (CyLPVar.upper x) = Z.to_nat (CyLPVar.parentDim x) ->
  opr = ">=" \/ opr = "<=" ->
  let vals := replicate (Z.to_nat (CyLPVar.parentDim x)) c in
  let x' := if String.eqb opr ">=" then CyLPVar.set_lower vals x
            else CyLPVar.set_upper vals x in
  let p := length (objects w) in
  let h1 := <[v := CVar x']>
              ((objects w ++ [CExpr (CyLPExpr.mk (VStr "sum") (VStr "") (VRef v) p)])
               ++ [CArr (Arr1 vals)]) in
  evaluate e w =
    Ok (CyLPConstraint.set_nRows (Some (CyLPVar.parentDim x))
          (add_name x (CyLPConstraint.set_variables [v] CyLPConstraint.init)))
       (mkWorld (h1 ++ [CExpr (CyLPExpr.mk (VStr opr) (VRef p) (VNum c) (length h1))])
          (model w)).
Proof.
  intros He Hn Hv Hpar Hind Hdim Hlo Hup Hop vals x' p h1.
  assert (is_comparison opr = true) as Hcmp by (by destruct Hop as [-> | ->]).
  assert (v < length (objects w)) as Hlt by (by eapply lookup_lt_Some).
  unfold evaluate. run.
  rewrite (getPostfix_unary_compared _ _ _ _ _ _ _ _ _ _ He Hn Hv).
  cbn [fold_M]. run.
  erewrite bind_ok by (by apply evaluate_token_constant). run.
  destruct (evaluate_token_variable [VStr ""] CyLPConstraint.init v x w Hv)
    as (c1 & Ht1 & Hc1 & _).
  rewrite (Hc1 eq_refl) in Ht1. clear Hc1 c1.
  erewrite bind_ok by exact Ht1. run.
  erewrite bind_ok; cycle 1.
  { unfold evaluate_token. cbn [fst snd as_operator str_in existsb CyLPExpr.operators
      String.eqb Ascii.eqb Bool.eqb orb]. cbv beta iota.
    erewrite bind_ok by (by apply perform_sum). run. reflexivity. }
  run. fold p.
  set (w1 := mkWorld (objects w ++ [CExpr (CyLPExpr.mk (VStr "sum") (VStr "") (VRef v) p)])
               (model w)).
  erewrite bind_ok by (apply evaluate_token_constant; done). run.
  assert (objects w1 !! v = Some (CVar x)) as Hv1.
  { unfold w1. cbn [objects]. by rewrite lookup_app_l. }
  erewrite bind_ok; cycle 1.
  { rewrite evaluate_token_comparison by done. run.
    erewrite bind_ok; cycle 1.
    { eapply (perform_compare_range w1 opr (VRef p) v x c); try done.
      unfold w1, p. simpl. by rewrite list_lookup_middle. }
    run. reflexivity. }
  run. unfold w1. cbn [fst snd objects model]. fold vals x' h1.
  replace (as_CyLPVar _ _) with (@None (nat * CyLPVar.t)).
  - run. cbn [CyLPConstraint.varCoefs CyLPConstraint.set_nRows]. 
    replace (CyLPConstraint.varCoefs (add_name x _)) with (@nil (ref * value))
      by (unfold add_name; by destruct (str_in _ _)).
    reflexivity.
  - unfold as_CyLPVar. by rewrite list_lookup_middle.
Qed.

(** X12.  [sum] records nothing but the name: evaluating
    [x.sum() >= c] or [x.sum() <= c] for an unsliced Variable [x] does
    what [x >= c] or [x <= c] does.  The constraint returned is still a
    range with no coefficient and no row bounds, and every entry of
    [x]'s lower array (for [>=]) or upper array (for [<=]) is [c]. *)
Theorem sum_bound_is_entrywise (w : world) (e n v se sn : ref) (x : CyLPVar.t)
    (opr : string) (c : Q) :
  objects w !! e = Some (CExpr (CyLPExpr.mk (VStr opr) (VRef n) (VNum c) se)) ->
  objects w !! n = Some (CExpr (CyLPExpr.mk (VStr "sum") (VStr "") (VRef v) sn)) ->
  objects w !! v = Some (CVar x) ->
  CyLPVar.parent x = None -> CyLPVar.indices x = None ->
  CyLPVar.parentDim x = CyLPVar.dim x -> (0 <= CyLPVar.dim x)%Z ->
  length (CyLPVar.lower x) = Z.to_nat (CyLPVar.dim x) ->
  length (CyLPVar.upper x) = Z.to_nat (CyLPVar.dim x) ->
  opr = ">=" \/ opr = "<=" ->
  exists cons w2,
    evaluate e w = Ok cons w2
    /\ CyLPConstraint.isRange cons = true
    /\ CyLPConstraint.varCoefs cons = []
    /\ CyLPConstraint.lower cons = VNone
    /\ CyLPConstraint.upper cons = VNone
    /\ bound_set opr v x c w2.
Proof.
  intros He Hn Hv Hpar Hind Hpd Hdim Hlo Hup Hop.
  assert (v < length (objects w)) as Hlt by (by eapply lookup_lt_Some).
  pose proof (evaluate_sum_bound w e n v x opr c se sn He Hn Hv Hpar Hind) as Hev.
  rewrite Hpd in Hev. specialize (Hev Hdim Hlo Hup Hop). cbv zeta in Hev.
  set (vals := replicate (Z.to_nat (CyLPVar.dim x)) c) in *.
  set (x' := if String.eqb opr ">=" then _ else _) in Hev.
  set (h1 := <[v := CVar x']> _) in Hev.
  set (w2 := mkWorld _ (model w)) in Hev.
  assert (objects w2 !! v = Some (CVar x')) as Hv2.
  { unfold w2, h1. cbn [objects].
    rewrite lookup_app_l by (rewrite length_insert, !length_app; lia).
    apply list_lookup_insert_eq. rewrite !length_app. lia. }
  eexists _, w2. split; [exact Hev|].
  assert (forall c0, CyLPConstraint.isRange (add_name x c0) = CyLPConstraint.isRange c0
                     /\ CyLPConstraint.varCoefs (add_name x c0) = CyLPConstraint.varCoefs c0
                     /\ CyLPConstraint.lower (add_name x c0) = CyLPConstraint.lower c0
                     /\ CyLPConstraint.upper (add_name x c0) = CyLPConstraint.upper c0) as Hf.
  { intros c0. unfold add_name. by destruct (str_in _ _). }
  cbn [CyLPConstraint.isRange CyLPConstraint.varCoefs CyLPConstraint.lower
       CyLPConstraint.upper CyLPConstraint.set_nRows].
  destruct (Hf (CyLPConstraint.set_variables [v] CyLPConstraint.init)) as (-> & -> & -> & ->).
  do 4 (split; [reflexivity|]).
  unfold bound_set, lower_of, upper_of. rewrite Hv2. fold vals. subst x'.
  split; intros ->; simpl; done.
Qed.

Lemma sum_bound_is_entrywise_witness :
  exists cons w2,
    evaluate 2 (final_world (sum_at_least_one empty_world)) = Ok cons w2
    /\ CyLPConstraint.isRange cons = true
    /\ lower_of w2 0 = Some [1%Q; 1%Q; 1%Q].
Proof.
  destruct (sum_bound_is_entrywise (final_world (sum_at_least_one empty_world))
              2 1 0 2 2 (CyLPVar.set_expr 1 (new_variable "x" 3 false 0 [1%Q; 1%Q; 1%Q]))
              ">=" 1%Q
              ltac:(vm_compute; reflexivity) ltac:(vm_compute; reflexivity)
              ltac:(vm_compute; reflexivity) ltac:(reflexivity) ltac:(reflexivity)
              ltac:(reflexivity) ltac:(simpl; lia) ltac:(reflexivity) ltac:(reflexivity)
              ltac:(left; reflexivity))
    as (cons & w2 & H & Hr & _ & _ & _ & [Hb _]).
  exists cons, w2. split; [exact H|]. split; [exact Hr|]. exact (proj1 (Hb eq_refl)).
Defined.

(** ** Unary minus *)

Lemma perform_negation w v x c :
  objects w !! v = Some (CVar x) -> (0 <= CyLPVar.dim x)%Z ->
  perform "u-" VNone (VRef v) c w =
    Ok (CyLPConstraint.set_nRows (Some (CyLPVar.dim x))
          (CyLPConstraint.set_isRange false
             (set_coef v (VRef (length (objects w))) (add_name x c))))
       (mkWorld (objects w ++ [CArr (Arr1 (replicate (Z.to_nat (CyLPVar.dim x)) (- 1)%Q))])
          (model w)).
Proof.
  intros Hv Hdim. assert (v < length (objects w)) as Hlt by (by eapply lookup_lt_Some).
  unfold perform, perform_right. run. unfold as_CyLPVar at 1. rewrite Hv.
  cbn [String.eqb Ascii.eqb Bool.eqb]. cbv beta iota. run.
  rewrite run_np_ones by done. run. rewrite map_replicate.
  unfold perform_left. run. simpl as_CyLPVar. cbv beta iota. run.
  unfold perform_negate. run. unfold as_plain_CyLPExpr. cbn [objects].
  rewrite lookup_app_l by done. rewrite Hv. run.
  reflexivity.
Qed.

Lemma evaluate_negation_bound (w : world) (e n v : ref) (x : CyLPVar.t) (opr : string) (c : Q)
    (se sn : ref) :
  objects w !! e = Some (CExpr (CyLPExpr.mk (VStr opr) (VRef n) (VNum c) se)) ->
  objects w !! n = Some (CExpr (CyLPExpr.mk (VStr "u-") (VStr "") (VRef v) sn)) ->
  objects w !! v = Some (CVar x) ->
  (0 <= CyLPVar.dim x)%Z ->
  opr = ">=" \/ opr = "<=" ->
  let d := Z.to_nat (CyLPVar.dim x) in
  let a := length (objects w) in
  let inf := if String.eqb opr ">=" then getCoinInfinity else Qopp getCoinInfinity in
  let cons := CyLPConstraint.set_nRows (Some (CyLPVar.dim x))
                (CyLPConstraint.set_isRange false
                   (set_coef v (VRef a)
                      (add_name x (CyLPConstraint.set_variables [v] CyLPConstraint.init)))) in
  evaluate e w =
    Ok (if String.eqb opr ">="
        then CyLPConstraint.set_upper (VRef (3 + a))
               (CyLPConstraint.set_lower (VRef (2 + a)) cons)
        else CyLPConstraint.set_lower (VRef (3 + a))
               (CyLPConstraint.set_upper (VRef (2 + a)) cons))
       (mkWorld (<[v := CVar (CyLPVar.set_expr v x)]>
                   (objects w
                    ++ [CArr (Arr1 (replicate d (- 1)%Q));
                        CExpr (CyLPExpr.mk (VStr "u-") (VStr "") (VRef v) (1 + a));
                        CArr (Arr1 (replicate d c));
                        CArr (Arr1 (replicate d inf));
                        CExpr (CyLPExpr.mk (VStr opr) (VRef (1 + a)) (VNum c) (4 + a))]))
          (model w)).
Proof.
  intros He Hn Hv Hdim Hop d a inf cons.
  assert (is_comparison opr = true) as Hcmp by (by destruct Hop as [-> | ->]).
  assert (v < length (objects w)) as Hlt by (by eapply lookup_lt_Some).
  unfold evaluate. run.
  rewrite (getPostfix_unary_compared _ _ _ _ _ _ _ _ _ _ He Hn Hv).
  cbn [fold_M]. run.
  erewrite bind_ok by (by apply evaluate_token_constant). run.
  destruct (evaluate_token_variable [VStr ""] CyLPConstraint.init v x w Hv)
    as (c1 & Ht1 & Hc1 & _).
  rewrite (Hc1 eq_refl) in Ht1. clear Hc1 c1.
  erewrite bind_ok by exact Ht1. run.
  erewrite bind_ok; cycle 1.
  { unfold evaluate_token. cbn [fst snd as_operator str_in existsb CyLPExpr.operators
      String.eqb Ascii.eqb Bool.eqb orb]. cbv beta iota.
    erewrite bind_ok by (by apply perform_negation). run. reflexivity. }
  run. cbn [objects model]. fold d.
  rewrite length_app. cbn [length]. fold a. replace (a + 1) with (1 + a) by lia. fold cons.
  set (h1 := (objects w ++ [CArr (Arr1 (replicate d (- 1)%Q))])
             ++ [CExpr (CyLPExpr.mk (VStr "u-") (VStr "") (VRef v) (1 + a))]).
  assert (length h1 = 2 + a) as Hlen1.
  { unfold h1. rewrite !length_app. simpl. unfold a. lia. }
  erewrite bind_ok by (apply evaluate_token_constant; done). run.
  erewrite bind_ok; cycle 1.
  { rewrite evaluate_token_comparison by done. run.
    erewrite bind_ok; cycle 1.
    { rewrite perform_number_comparison by done.
      eapply (perform_compare_rows _ opr _ c _ (CyLPVar.dim x)); try done.
      cbn [objects]. unfold isinstance_CyLPExpr, h1.
      rewrite list_lookup_middle; [done|]. rewrite length_app. simpl. unfold a. lia. }
    run. reflexivity. }
  run. cbn [fst snd objects model]. rewrite Hlen1. fold d. fold inf.
  run.
  assert (CyLPConstraint.varCoefs
            (if String.eqb opr ">="
             then CyLPConstraint.set_upper (VRef (S (2 + a)))
                    (CyLPConstraint.set_lower (VRef (2 + a)) cons)
             else CyLPConstraint.set_lower (VRef (S (2 + a)))
                    (CyLPConstraint.set_upper (VRef (2 + a)) cons))
          = [(v, VRef a)]) as Hkeys.
  { unfold cons, add_name. by destruct (String.eqb opr ">="). }
  rewrite Hkeys. cbn [map fst for_each]. unfold set_expr. run. cbn [objects].
  assert (forall l, (h1 ++ l) !! v = Some (CVar x)) as Hv1.
  { intros l. rewrite lookup_app_l by lia. unfold h1.
    rewrite !lookup_app_l; [done | lia | rewrite length_app; lia]. }
  rewrite <- !app_assoc. rewrite Hv1. run.
  cbn [objects model].
  assert (length (h1 ++ [CArr (Arr1 (replicate d c))] ++ [CArr (Arr1 (replicate d inf))])
          = 4 + a) as -> by (rewrite !length_app, Hlen1; simpl; lia).
  unfold h1. rewrite <- !app_assoc. reflexivity.
Qed.

(** X11.  Evaluating [-x >= c] or [-x <= c] for a Variable [x] of [dim]
    entries gives a constraint that is not a range, whose only
    coefficient is the vector of [dim] entries [-1], whose row count is
    [dim] (not 1), and whose bounds have [dim] entries: [c] on the side
    compared with, infinite on the other.  [x.expr] is reset to [x]. *)
Theorem negation_counts_a_row_per_entry (w : world) (e n v se sn : ref) (x : CyLPVar.t)
    (opr : string) (c : Q) :
  objects w !! e = Some (CExpr (CyLPExpr.mk (VStr opr) (VRef n) (VNum c) se)) ->
  objects w !! n = Some (CExpr (CyLPExpr.mk (VStr "u-") (VStr "") (VRef v) sn)) ->
  objects w !! v = Some (CVar x) ->
  (0 <= CyLPVar.dim x)%Z ->
  opr = ">=" \/ opr = "<=" ->
  exists cons w',
    evaluate e w = Ok cons w'
    /\ CyLPConstraint.isRange cons = false
    /\ CyLPConstraint.nRows cons = Some (CyLPVar.dim x)
    /\ coef_values w' cons = [Some (Arr1 (replicate (Z.to_nat (CyLPVar.dim x)) (- 1)%Q))]
    /\ one_sided opr (CyLPVar.dim x) c (bound_of w' (CyLPConstraint.lower cons))
         (bound_of w' (CyLPConstraint.upper cons))
    /\ expr_of w' v = Some v.
Proof.
  intros He Hn Hv Hdim Hop.
  assert (v < length (objects w)) as Hlt by (by eapply lookup_lt_Some).
  pose proof (evaluate_negation_bound w e n v x opr c se sn He Hn Hv Hdim Hop) as Hev.
  cbv zeta in Hev.
  eexists _, _. split; [exact Hev|].
  set (a := length (objects w)) in *.
  assert (forall c0, CyLPConstraint.varCoefs (add_name x c0) = CyLPConstraint.varCoefs c0)
    as Hf by (intros c0; unfold add_name; by destruct (str_in _ _)).
  assert (forall (l : list cell) k idx cell, idx = a + k -> k < length l ->
            (<[v := cell]> (objects w ++ l)) !! idx = l !! k) as Hl.
  { intros l k idx cell -> Hk. unfold a. rewrite list_lookup_insert_ne by lia.
    rewrite lookup_app_r by lia. f_equal. lia. }
  match type of Hev with
  | _ = Ok _ (mkWorld ?h _) =>
      assert (h !! a = Some (CArr (Arr1 (replicate (Z.to_nat (CyLPVar.dim x)) (- 1)%Q))))
        as H0 by (etrans; [apply (Hl _ 0); [lia | simpl; lia] | reflexivity]);
      assert (h !! (2 + a) = Some (CArr (Arr1 (replicate (Z.to_nat (CyLPVar.dim x)) c))))
        as H2 by (etrans; [apply (Hl _ 2); [lia | simpl; lia] | reflexivity]);
      assert (h !! (3 + a)
              = Some (CArr (Arr1 (replicate (Z.to_nat (CyLPVar.dim x))
                                    (if String.eqb opr ">=" then getCoinInfinity
                                     else Qopp getCoinInfinity)))))
        as H3 by (etrans; [apply (Hl _ 3); [lia | simpl; lia] | reflexivity])
  end.
  split; [by destruct (String.eqb opr ">=")|].
  split; [by destruct (String.eqb opr ">=")|].
  split.
  { unfold coef_values, as_ndarray. cbn [objects].
    replace (CyLPConstraint.varCoefs _) with [(v, VRef a)].
    - cbn [map snd]. by rewrite H0.
    - destruct (String.eqb opr ">=");
        cbn [CyLPConstraint.varCoefs CyLPConstraint.set_lower CyLPConstraint.set_upper
             CyLPConstraint.set_nRows CyLPConstraint.set_isRange set_coef
             CyLPConstraint.set_varCoefs]; by rewrite Hf. }
  split.
  { unfold bound_of, as_ndarray. cbn [objects].
    destruct Hop as [-> | ->]; simpl String.eqb in *; cbv beta iota in *;
      cbn [CyLPConstraint.lower CyLPConstraint.upper CyLPConstraint.set_lower
           CyLPConstraint.set_upper];
      rewrite H2, H3; split; intros Heq; try done. }
  unfold expr_of. cbn [objects].
  rewrite list_lookup_insert_eq by (rewrite length_app; lia). reflexivity.
Qed.

Lemma negation_counts_a_row_per_entry_witness :
  exists cons w',
    evaluate 2 (final_world (negation_at_most_four empty_world)) = Ok cons w'
    /\ CyLPConstraint.nRows cons = Some 3%Z
    /\ coef_values w' cons = [Some (Arr1 [(- 1)%Q; (- 1)%Q; (- 1)%Q])]
    /\ bound_of w' (CyLPConstraint.upper cons) = Some (Arr1 [4%Q; 4%Q; 4%Q]).
Proof.
  destruct (negation_counts_a_row_per_entry (final_world (negation_at_most_four empty_world))
              2 1 0 2 2 (CyLPVar.set_expr 1 (new_variable "x" 3 false 0 [1%Q; 1%Q; 1%Q]))
              "<=" 4%Q
              ltac:(vm_compute; reflexivity) ltac:(vm_compute; reflexivity)
              ltac:(vm_compute; reflexivity) ltac:(simpl; lia) ltac:(right; reflexivity))
    as (cons & w' & H & _ & Hn & Hc & [_ Hb] & _).
  exists cons, w'. split; [exact H|]. split; [exact Hn|]. split; [exact Hc|].
  exact (proj1 (Hb eq_refl)).
Defined.

(** ** [makeIndexFactory] *)

Lemma str_in_elem s l : str_in s l = true <-> s ∈ l.
Proof.
  unfold str_in. rewrite existsb_exists. split.
  - intros (x & Hx & Heq). apply String.eqb_eq in Heq. subst. by apply list_elem_of_In.
  - intros H. exists s. split; [by apply list_elem_of_In | apply String.eqb_refl].
Qed.

Lemma str_in_not_elem s l : str_in s l = false <-> s ∉ l.
Proof.
  rewrite <- str_in_elem. by destruct (str_in s l).
Qed.

(** A loop that returns has kept what each round keeps. *)
Lemma for_each_inv {A} (I : list A -> world -> Prop) (body : A -> M unit) :
  (forall seen a w w', I seen w -> body a w = Ok tt w' -> I (seen ++ [a]) w') ->
  forall l seen w w', I seen w -> for_each l body w = Ok tt w' -> I (seen ++ l) w'.
Proof.
  intros Hstep. induction l as [|a l IH]; intros seen w w' HI H; simpl in H.
  - injection H as <-. by rewrite app_nil_r.
  - apply bind_ok_inv in H as ([] & w1 & Ha & Hl).
    replace (seen ++ a :: l) with ((seen ++ [a]) ++ l) by (by rewrite <- app_assoc).
    eapply IH; [|exact Hl]. by eapply Hstep.
Qed.

(** The names [makeIndexFactory] adds for one variable and one constraint. *)
Lemma new_names names (vname : string) (cnames : list string) :
  let new := List.filter (fun n => negb (str_in n names) && (String.eqb n vname)) cnames in
  (forall n, n ∈ (names ++ new) <-> n ∈ names \/ (n ∈ cnames /\ n = vname))
  /\ (NoDup names -> NoDup cnames -> NoDup (names ++ new)).
Proof.
  intros new.
  assert (forall n, n ∈ new <-> n ∈ cnames /\ (n ∉ names) /\ n = vname) as Hnew.
  { intros n. unfold new. rewrite list_elem_of_In, filter_In, <- list_elem_of_In.
    rewrite andb_true_iff, negb_true_iff, str_in_not_elem, String.eqb_eq. tauto. }
  split.
  - intros n. rewrite elem_of_app, Hnew.
    destruct (decide (n ∈ names)); tauto.
  - intros Hn Hc. apply NoDup_app. split; [done|]. split.
    + intros n Hin Hin'. apply Hnew in Hin'. tauto.
    + unfold new. apply NoDup_ListNoDup, List.NoDup_filter. by apply NoDup_ListNoDup.
Qed.

Lemma names_in_snoc h refs r :
  names_in h (refs ++ [r])
  = names_in h refs ++ match h !! r with Some (CVar v) => [CyLPVar.name v] | _ => [] end.
Proof.
  unfold names_in. rewrite omap_app. f_equal. simpl. by destruct (h !! r) as [[]|].
Qed.

Lemma total_rows_snoc cs c n :
  CyLPConstraint.nRows c = Some n -> total_rows (cs ++ [c]) = (total_rows cs + n)%Z.
Proof.
  intros Hn. unfold total_rows. rewrite map_app, foldr_app. simpl. rewrite Hn. simpl.
  induction cs as [|c0 cs IH]; simpl; lia.
Qed.

(** The loop over the model's variables, for one constraint. *)
Lemma names_of_constraint h m0 c vs : forall w w',
  objects w = h -> model w = m0 ->
  for_each vs (fun var =>
    v <- get_var var ;;
    m <- get_model ;;
    let new := List.filter (fun vname =>
                 negb (str_in vname (CyLPModel.allVarNames m))
                 && String.eqb vname (CyLPVar.name v))
                 (CyLPConstraint.varNames c) in
    put_model (CyLPModel.set_index (CyLPModel.allVarNames m ++ new)
                 (CyLPModel.allParentVarDims m) (CyLPModel.nRows m) m)) w = Ok tt w' ->
  objects w' = h
  /\ exists names,
       model w' = CyLPModel.set_index names (CyLPModel.allParentVarDims m0)
                    (CyLPModel.nRows m0) m0
       /\ (forall n, n ∈ names <->
             n ∈ CyLPModel.allVarNames m0
             \/ (n ∈ CyLPConstraint.varNames c /\ n ∈ names_in h vs))
       /\ (NoDup (CyLPModel.allVarNames m0) -> NoDup (CyLPConstraint.varNames c) ->
           NoDup names).
Proof.
  intros w w' Hh Hm H.
  set (I := fun (seen : list ref) (w1 : world) =>
              objects w1 = h
              /\ exists names,
                   model w1 = CyLPModel.set_index names (CyLPModel.allParentVarDims m0)
                                (CyLPModel.nRows m0) m0
                   /\ (forall n, n ∈ names <->
                         n ∈ CyLPModel.allVarNames m0
                         \/ (n ∈ CyLPConstraint.varNames c /\ n ∈ names_in h seen))
                   /\ (NoDup (CyLPModel.allVarNames m0) ->
                       NoDup (CyLPConstraint.varNames c) -> NoDup names)).
  apply (for_each_inv I _) with (seen := []) in H; [exact H| |].
  - clear w w' Hh Hm H. intros seen var w w' (Hh & names & Hm & Hiff & Hnd) H.
    unfold get_var in H. rewrite run_assoc, run_get_heap in H. rewrite Hh in H.
    unfold I. rewrite names_in_snoc.
    destruct (h !! var) as [[v| |]|] eqn:Ev; try done.
    rewrite run_ret, run_get_model in H. cbv zeta in H. rewrite Hm in H.
    cbn [CyLPModel.allVarNames CyLPModel.allParentVarDims CyLPModel.nRows
         CyLPModel.set_index] in H.
    injection H as <-. cbn [objects model]. split; [done|].
    destruct (new_names names (CyLPVar.name v) (CyLPConstraint.varNames c)) as [Hin Hno].
    eexists. split; [reflexivity|]. split.
    + intros n. rewrite Hin, Hiff, elem_of_app, list_elem_of_singleton. tauto.
    + intros H1 H2. apply Hno; auto.
  - split; [done|]. exists (CyLPModel.allVarNames m0). split; [|split; [|done]].
    + rewrite Hm. by destruct m0.
    + intros n. unfold names_in. simpl. rewrite elem_of_nil. tauto.
Qed.

(** Registering a name keeps the names registered before. *)
Lemma hasVar_addVar name d f other :
  hasVar other f = true -> hasVar other (addVar name d f) = true.
Proof.
  unfold hasVar, dict_has, addVar. intros H.
  destruct (Z.eq_dec d 0%Z) as [->|Hd]; [by unfold add_range|].
  destruct (add_range_lookup name d (IndexFactory.varIndex f)
              (IndexFactory.currentVarIndex f) Hd) as [Hget Hother].
  destruct (add_range _ _ _ _) as [index current]. simpl in *.
  destruct (decide (other = name)) as [->|Hne]; [by rewrite Hget|].
  by rewrite Hother.
Qed.

Lemma hasVar_addVar_same name d f :
  d <> 0%Z -> hasVar name (addVar name d f) = true.
Proof.
  unfold hasVar, dict_has, addVar. intros Hd.
  destruct (add_range_lookup name d (IndexFactory.varIndex f)
              (IndexFactory.currentVarIndex f) Hd) as [Hget _].
  destruct (add_range _ _ _ _) as [index current]. simpl in *. by rewrite Hget.
Qed.

(** The loop that registers the names with the index factory. *)
Lemma names_registered h m1 names : forall w w',
  objects w = h -> model w = m1 ->
  for_each names (fun varName =>
    m <- get_model ;;
    if hasVar varName (CyLPModel.inds m) then ret tt
    else match dict_get String.eqb varName (CyLPModel.allParentVarDims m) with
         | None => raise KeyError
         | Some d => put_model (CyLPModel.set_inds (addVar varName d (CyLPModel.inds m)) m)
         end) w = Ok tt w' ->
  objects w' = h
  /\ exists f,
       model w' = CyLPModel.set_inds f m1
       /\ (forall n, hasVar n (CyLPModel.inds m1) = true -> hasVar n f = true)
       /\ (forall n, n ∈ names ->
             hasVar n f = true
             \/ dict_get String.eqb n (CyLPModel.allParentVarDims m1) = Some 0%Z).
Proof.
  intros w w' Hh Hm H.
  set (I := fun (seen : list string) (w1 : world) =>
              objects w1 = h
              /\ exists f,
                   model w1 = CyLPModel.set_inds f m1
                   /\ (forall n, hasVar n (CyLPModel.inds m1) = true -> hasVar n f = true)
                   /\ (forall n, n ∈ seen ->
                         hasVar n f = true
                         \/ dict_get String.eqb n (CyLPModel.allParentVarDims m1)
                            = Some 0%Z)).
  apply (for_each_inv I _) with (seen := []) in H; [exact H| |].
  - clear w w' Hh Hm H. intros seen name w w' (Hh & f & Hm & Hold & Hseen) H.
    rewrite run_get_model in H. rewrite Hm in H.
    cbn [CyLPModel.inds CyLPModel.allParentVarDims CyLPModel.set_inds] in H.
    destruct (hasVar name f) eqn:Ehas.
    + injection H as <-. split; [done|]. exists f. split; [done|]. split; [done|].
      intros n Hn. apply elem_of_app in Hn as [Hn|Hn]; [by apply Hseen|].
      apply list_elem_of_singleton in Hn as ->. by left.
    + destruct (dict_get String.eqb name (CyLPModel.allParentVarDims m1)) as [d|] eqn:Ed;
        [|done].
      injection H as <-. cbn [objects model]. split; [done|].
      exists (addVar name d f). split; [reflexivity|]. split.
      * intros n Hn. by apply hasVar_addVar, Hold.
      * intros n Hn. apply elem_of_app in Hn as [Hn|Hn].
        -- destruct (Hseen n Hn) as [Hn'|Hn']; [left; by apply hasVar_addVar | by right].
        -- apply list_elem_of_singleton in Hn as ->.
           destruct (Z.eq_dec d 0%Z) as [->|Hd]; [by right | left].
           by apply hasVar_addVar_same.
  - split; [done|]. exists (CyLPModel.inds m1). split; [|split; [done|]].
    + rewrite Hm. by destruct m1.
    + intros n Hn. by apply elem_of_nil in Hn.
Qed.

(** The loop over the model's constraints. *)
Lemma names_of_constraints h m0 cs : forall w w',
  objects w = h ->
  model w = CyLPModel.set_index [] [] 0 m0 ->
  for_each cs (fun c =>
    for_each (CyLPModel.variables m0) (fun var =>
      v <- get_var var ;;
      m <- get_model ;;
      let new := List.filter (fun vname =>
                   negb (str_in vname (CyLPModel.allVarNames m))
                   && String.eqb vname (CyLPVar.name v))
                   (CyLPConstraint.varNames c) in
      put_model (CyLPModel.set_index (CyLPModel.allVarNames m ++ new)
                   (CyLPModel.allParentVarDims m) (CyLPModel.nRows m) m)) ;;;
    m <- get_model ;;
    let dims := dict_update String.eqb (CyLPConstraint.parentVarDims c)
                  (CyLPModel.allParentVarDims m) in
    put_model (CyLPModel.set_index (CyLPModel.allVarNames m) dims (CyLPModel.nRows m) m) ;;;
    match CyLPConstraint.nRows c with
    | None => raise TypeError
    | Some n =>
        put_model (CyLPModel.set_index (CyLPModel.allVarNames m) dims
                     (CyLPModel.nRows m + n)%Z m)
    end) w = Ok tt w' ->
  objects w' = h
  /\ exists names dims,
       model w' = CyLPModel.set_index names dims (total_rows cs) m0
       /\ (forall n, n ∈ names <->
             n ∈ names_in h (CyLPModel.variables m0)
             /\ exists c, c ∈ cs /\ n ∈ CyLPConstraint.varNames c)
       /\ ((forall c, c ∈ cs -> NoDup (CyLPConstraint.varNames c)) -> NoDup names).
Proof.
  intros w w' Hh Hm H.
  set (I := fun (seen : list CyLPConstraint.t) (w1 : world) =>
              objects w1 = h
              /\ exists names dims,
                   model w1 = CyLPModel.set_index names dims (total_rows seen) m0
                   /\ (forall n, n ∈ names <->
                         n ∈ names_in h (CyLPModel.variables m0)
                         /\ exists c, c ∈ seen /\ n ∈ CyLPConstraint.varNames c)
                   /\ ((forall c, c ∈ seen -> NoDup (CyLPConstraint.varNames c)) ->
                       NoDup names)).
  apply (for_each_inv I _) with (seen := []) in H; [exact H| |].
  - clear w w' Hh Hm H. intros seen c w w' (Hh & names & dims & Hm & Hiff & Hnd) H.
    apply bind_ok_inv in H as ([] & w1 & Hinner & H).
    apply (names_of_constraint h (model w) c) in Hinner as (Hh1 & names1 & Hm1 & Hiff1 & Hnd1);
      [|done|done].
    rewrite run_get_model in H. cbv zeta in H. rewrite Hm1, Hm in H.
    cbn [CyLPModel.allVarNames CyLPModel.allParentVarDims CyLPModel.nRows
         CyLPModel.set_index] in H.
    apply bind_ok_inv in H as ([] & w2 & Hput & H). injection Hput as <-.
    destruct (CyLPConstraint.nRows c) as [n|] eqn:En; [|done].
    injection H as <-. cbn [objects model]. split; [done|].
    exists names1, (dict_update String.eqb (CyLPConstraint.parentVarDims c) dims).
    split; [|split].
    + by rewrite (total_rows_snoc seen c n En).
    + intros k. rewrite Hiff1. rewrite Hm.
      cbn [CyLPModel.allVarNames CyLPModel.set_index]. rewrite Hiff. split.
      * intros [(Hk & c0 & Hc0 & Hkc) | (Hkc & Hk)].
        -- split; [done|]. exists c0. split; [|done]. apply elem_of_app. by left.
        -- split; [done|]. exists c. split; [|done]. apply elem_of_app. right.
           by apply list_elem_of_singleton.
      * intros (Hk & c0 & Hc0 & Hkc). apply elem_of_app in Hc0 as [Hc0|Hc0].
        -- left. split; [done|]. by exists c0.
        -- apply list_elem_of_singleton in Hc0 as ->. by right.
    + intros Hall. apply Hnd1.
      * rewrite Hm. cbn [CyLPModel.allVarNames CyLPModel.set_index]. apply Hnd.
        intros c0 Hc0. apply Hall. apply elem_of_app. by left.
      * apply Hall. apply elem_of_app. right. by apply list_elem_of_singleton.
  - split; [done|]. exists [], []. split; [done|]. split.
    + intros n. rewrite elem_of_nil. split; [done|].
      intros (_ & c & Hc & _). by apply elem_of_nil in Hc.
    + intros _. apply NoDup_nil_2.
Qed.

(** X14.  When [makeIndexFactory] returns: a name is in [allVarNames]
    exactly if it is the name of one of the model's variables and
    occurs in the names of one of its constraints; [allVarNames] has no
    duplicates if no constraint's name list has; [nRows] is the sum of
    the constraints' row counts; every name of [allVarNames] is known
    to the index factory unless its recorded dimension is 0; and names
    the factory knew before are still known. *)
Theorem makeIndexFactory_names_and_rows (w w' : world) :
  makeIndexFactory w = Ok tt w' ->
  (forall n, n ∈ CyLPModel.allVarNames (model w') <->
     n ∈ model_names w
     /\ exists c, c ∈ CyLPModel.constraints (model w) /\ n ∈ CyLPConstraint.varNames c)
  /\ ((forall c, c ∈ CyLPModel.constraints (model w) -> NoDup (CyLPConstraint.varNames c)) ->
      NoDup (CyLPModel.allVarNames (model w')))
  /\ CyLPModel.nRows (model w') = total_rows (CyLPModel.constraints (model w))
  /\ (forall n, n ∈ CyLPModel.allVarNames (model w') ->
        hasVar n (CyLPModel.inds (model w')) = true
        \/ dict_get String.eqb n (CyLPModel.allParentVarDims (model w')) = Some 0%Z)
  /\ (forall n, hasVar n (CyLPModel.inds (model w)) = true ->
        hasVar n (CyLPModel.inds (model w')) = true).
Proof.
  intros H. unfold makeIndexFactory in H. rewrite run_get_model in H.
  apply bind_ok_inv in H as ([] & w1 & Hput & H). injection Hput as <-.
  apply bind_ok_inv in H as ([] & w2 & Houter & H).
  apply (names_of_constraints (objects w) (model w)) in Houter
    as (Hh2 & names & dims & Hm2 & Hiff & Hnd); [|done|done].
  rewrite run_get_model in H. rewrite Hm2 in H.
  cbn [CyLPModel.allVarNames CyLPModel.set_index] in H.
  apply (names_registered (objects w) (model w2)) in H as (Hh' & f & Hm' & Hold & Hreg);
    [|done|done].
  rewrite Hm', Hm2.
  cbn [CyLPModel.allVarNames CyLPModel.allParentVarDims CyLPModel.nRows CyLPModel.inds
       CyLPModel.set_index CyLPModel.set_inds].
  rewrite Hm2 in Hold, Hreg.
  cbn [CyLPModel.allParentVarDims CyLPModel.inds CyLPModel.set_index] in Hold, Hreg.
  repeat split; try done.
  - by apply Hiff.
  - by apply Hiff.
  - by apply Hiff.
Qed.

Lemma makeIndexFactory_names_and_rows_witness :
  CyLPModel.nRows (model (final_world (makeIndexFactory (final_world (y_constrained empty_world)))))
  = total_rows (CyLPModel.constraints (model (final_world (y_constrained empty_world)))).
Proof.
  apply (makeIndexFactory_names_and_rows (final_world (y_constrained empty_world))).
  vm_compute. reflexivity.
Defined.

(** ** [makeIndexFactory] a second time *)

Lemma ignores_inds_for_each {A} (l : list A) (body : A -> M unit) :
  (forall a, ignores_inds (body a)) -> ignores_inds (for_each l body).
Proof.
  intros Hb f. induction l as [|a l IH]; intros w w' H; simpl in *.
  - by injection H as <-.
  - apply bind_ok_inv in H as ([] & w1 & Ha & Hl).
    erewrite bind_ok by (by apply Hb). by apply IH.
Qed.

Lemma ignores_inds_bind (m k : M unit) :
  ignores_inds m -> ignores_inds k -> ignores_inds (m ;;; k).
Proof.
  intros Hm Hk f w w' H. apply bind_ok_inv in H as ([] & w1 & H1 & H2).
  erewrite bind_ok by (by apply Hm). by apply Hk.
Qed.

Lemma addVar_nothing name f : addVar name 0 f = f.
Proof. unfold addVar, add_range. simpl. by destruct f. Qed.

Lemma set_inds_same m : CyLPModel.set_inds (CyLPModel.inds m) m = m.
Proof. by destruct m. Qed.

(** Once every name is registered or has no entries, the registering
    loop changes nothing. *)
Lemma names_already_registered names : forall w,
  (forall n, n ∈ names ->
     hasVar n (CyLPModel.inds (model w)) = true
     \/ dict_get String.eqb n (CyLPModel.allParentVarDims (model w)) = Some 0%Z) ->
  for_each names (fun varName =>
    m <- get_model ;;
    if hasVar varName (CyLPModel.inds m) then ret tt
    else match dict_get String.eqb varName (CyLPModel.allParentVarDims m) with
         | None => raise KeyError
         | Some d => put_model (CyLPModel.set_inds (addVar varName d (CyLPModel.inds m)) m)
         end) w = Ok tt w.
Proof.
  induction names as [|n names IH]; intros w Hreg; simpl; [done|].
  assert (forall k, k ∈ names ->
            hasVar k (CyLPModel.inds (model w)) = true
            \/ dict_get String.eqb k (CyLPModel.allParentVarDims (model w)) = Some 0%Z)
    as Hrest by (intros k Hk; apply Hreg; by apply elem_of_cons; right).
  rewrite run_assoc, run_get_model.
  destruct (hasVar n (CyLPModel.inds (model w))) eqn:E.
  - rewrite run_ret. by apply IH.
  - destruct (Hreg n) as [H|H]; [by apply elem_of_cons; left | congruence |].
    rewrite H. rewrite addVar_nothing, set_inds_same.
    unfold put_model, bind. destruct w as [h m]. simpl. by apply (IH (mkWorld h m)).
Qed.

(** X15.  Running [makeIndexFactory] again on the state it returned
    returns that same state: no name is registered twice and no index
    is handed out twice. *)
Theorem makeIndexFactory_idempotent (w w1 : world) :
  makeIndexFactory w = Ok tt w1 -> makeIndexFactory w1 = Ok tt w1.
Proof.
  intros H. pose proof H as Hrun. unfold makeIndexFactory in H. rewrite run_get_model in H.
  apply bind_ok_inv in H as ([] & w0 & Hput & H). injection Hput as <-.
  apply bind_ok_inv in H as ([] & w2 & Houter & H).
  pose proof Houter as Hloop.
  apply (names_of_constraints (objects w) (model w)) in Houter
    as (Hh2 & names & dims & Hm2 & _); [|done|done].
  rewrite run_get_model in H. rewrite Hm2 in H.
  cbn [CyLPModel.allVarNames CyLPModel.set_index] in H.
  apply (names_registered (objects w) (model w2)) in H as (Hh1 & f & Hm1 & _ & Hreg);
    [|done|done].
  assert (w1 = with_inds f w2) as Hw1.
  { destruct w1 as [h1 m1]. unfold with_inds. cbn [objects model] in *.
    by rewrite Hh1, Hm1, Hh2. }
  assert (ignores_inds
            (for_each (CyLPModel.constraints (model w)) (fun c =>
               for_each (CyLPModel.variables (model w)) (fun var =>
                 v <- get_var var ;;
                 m <- get_model ;;
                 let new := List.filter (fun vname =>
                              negb (str_in vname (CyLPModel.allVarNames m))
                              && String.eqb vname (CyLPVar.name v))
                              (CyLPConstraint.varNames c) in
                 put_model (CyLPModel.set_index (CyLPModel.allVarNames m ++ new)
                              (CyLPModel.allParentVarDims m) (CyLPModel.nRows m) m)) ;;;
               m <- get_model ;;
               let dims := dict_update String.eqb (CyLPConstraint.parentVarDims c)
                             (CyLPModel.allParentVarDims m) in
               put_model (CyLPModel.set_index (CyLPModel.allVarNames m) dims
                            (CyLPModel.nRows m) m) ;;;
               match CyLPConstraint.nRows c with
               | None => raise TypeError
               | Some n =>
                   put_model (CyLPModel.set_index (CyLPModel.allVarNames m) dims
                                (CyLPModel.nRows m + n)%Z m)
               end))) as Hframe.
  { apply ignores_inds_for_each. intros c. apply ignores_inds_bind.
    - apply ignores_inds_for_each. intros var f0 u u' Hu.
      unfold get_var in *. rewrite run_assoc, run_get_heap in *. cbn [with_inds objects].
      destruct (objects u !! var) as [[v| |]|]; try done.
      rewrite run_ret, run_get_model in *. by injection Hu as <-.
    - intros f0 u u' Hu. rewrite run_get_model in *. cbv zeta in *.
      unfold bind, put_model in *. cbn [with_inds objects model] in *.
      destruct (CyLPConstraint.nRows c); [|done]. by injection Hu as <-. }
  specialize (Hframe f _ _ Hloop).
  unfold makeIndexFactory. rewrite run_get_model.
  unfold put_model at 1. unfold bind at 1.
  assert (CyLPModel.constraints (model w1) = CyLPModel.constraints (model w)
          /\ CyLPModel.variables (model w1) = CyLPModel.variables (model w)) as [-> ->].
  { rewrite Hm1, Hm2. by split. }
  assert (mkWorld (objects w1) (CyLPModel.set_index [] [] 0 (model w1))
          = with_inds f (mkWorld (objects w) (CyLPModel.set_index [] [] 0 (model w)))) as ->.
  { unfold with_inds. cbn [objects model]. rewrite Hh1, Hm1, Hm2. reflexivity. }
  erewrite bind_ok by exact Hframe. rewrite <- Hw1. rewrite run_get_model.
  rewrite Hm1, Hm2. cbn [CyLPModel.allVarNames CyLPModel.set_index CyLPModel.set_inds].
  apply names_already_registered. intros n Hn.
  rewrite Hm1, Hm2. cbn [CyLPModel.inds CyLPModel.allParentVarDims CyLPModel.set_index
                         CyLPModel.set_inds].
  specialize (Hreg n Hn). rewrite Hm2 in Hreg.
  by cbn [CyLPModel.allParentVarDims CyLPModel.set_index] in Hreg.
Qed.

Lemma makeIndexFactory_idempotent_witness :
  makeIndexFactory (final_world (makeIndexFactory (final_world (y_constrained empty_world))))
  = Ok tt (final_world (makeIndexFactory (final_world (y_constrained empty_world)))).
Proof.
  apply (makeIndexFactory_idempotent (final_world (y_constrained empty_world))).
  vm_compute. reflexivity.
Defined.

(** ** Where a vector coefficient lands *)

Lemma Qplus_zero (q : Q) : Qplus 0 q = q.
Proof. destruct q as [n d]. unfold Qplus. simpl. by rewrite Z.mul_1_r. Qed.

Lemma add_at_positions (l : list Q) : forall (pre post : list Q),
  fold_left (fun acc (px : nat * Q * Q) => <[fst (fst px) := Qplus (snd (fst px)) (snd px)]> acc)
    (zip (map (fun i => (length pre + i, 0%Q)) (seq 0 (length l))) l)
    (pre ++ replicate (length l) 0%Q ++ post)
  = pre ++ l ++ post.
Proof.
  induction l as [|x l IH]; intros pre post; [done|].
  cbn [length seq map zip zip_with fold_left fst snd replicate].
  rewrite Nat.add_0_r, Qplus_zero.
  replace (<[length pre := x]> (pre ++ (0%Q :: replicate (length l) 0%Q) ++ post))
    with ((pre ++ [x]) ++ replicate (length l) 0%Q ++ post).
  - rewrite <- seq_shift, map_map.
    replace (map (fun i => (length pre + S i, 0%Q)) (seq 0 (length l)))
      with (map (fun i => (length (pre ++ [x]) + i, 0%Q)) (seq 0 (length l))).
    + rewrite IH. by rewrite <- app_assoc.
    + apply map_ext. intros i. rewrite length_app. simpl. f_equal. lia.
  - rewrite <- app_assoc. simpl.
    rewrite insert_app_r_alt by lia. by rewrite Nat.sub_diag.
Qed.

Lemma read_positions (a : list Q) (start n : nat) :
  start + n <= length a ->
  (forall p, start <= p < start + n -> a !! p = Some 0%Q) ->
  mapM (fun k => p ← position (length a) k; x ← a !! p; Some (p, x))
    (seqZ (Z.of_nat start) (Z.of_nat n))
  = Some (map (fun i => (start + i, 0%Q)) (seq 0 n)).
Proof.
  intros Hlen Hzero. apply mapM_Some. unfold seqZ. rewrite Nat2Z.id.
  apply Forall2_fmap_l, Forall2_fmap_r. apply Forall2_same_length_lookup_2; [done|].
  intros i x y Hx Hy. rewrite Hx in Hy. injection Hy as <-.
  apply lookup_seq in Hx as [-> Hi]. simpl.
  unfold position.
  destruct (Z.ltb_spec (Z.of_nat i + Z.of_nat start) 0); [lia|].
  destruct (Z.leb_spec 0 (Z.of_nat i + Z.of_nat start)); [|lia].
  destruct (Z.ltb_spec (Z.of_nat i + Z.of_nat start) (Z.of_nat (length a))); [|lia].
  simpl. replace (Z.to_nat (Z.of_nat i + Z.of_nat start)) with (start + i) by lia.
  rewrite Hzero by lia. reflexivity.
Qed.

(** [coef[var.indices] += vector] on a row of zeros, for a slice. *)
Lemma additem_slice (dim start n : nat) (l : list Q) w :
  start + n <= dim -> length l = n ->
  additem (replicate dim 0%Q) (Some (seqZ (Z.of_nat start) (Z.of_nat n))) (Arr1 l) w
  = Ok (replicate start 0%Q ++ l ++ replicate (dim - start - n) 0%Q) w.
Proof.
  intros Hle Hl. subst n. unfold additem.
  rewrite (read_positions _ start (length l)).
  - rewrite length_seqZ, Nat2Z.id, Nat.eqb_refl.
    replace (replicate dim 0%Q)
      with (replicate start 0%Q ++ replicate (length l) 0%Q
            ++ replicate (dim - start - length l) 0%Q).
    + pose proof (add_at_positions l (replicate start 0%Q)
                    (replicate (dim - start - length l) 0%Q)) as H.
      rewrite length_replicate in H. unfold ret. f_equal. exact H.
    + rewrite <- !replicate_add. f_equal. lia.
  - rewrite length_replicate. lia.
  - intros p Hp. apply lookup_replicate_2. lia.
Qed.

(** X17.  In [generateVarMatrix], a one-row constraint whose only
    coefficient is a vector [l] on the slice [start .. start + n - 1] of
    a variable contributes, for a block of [dim] columns, the row that
    has [l] in the columns of the slice and zeros elsewhere. *)
Theorem vector_coefficient_lands_on_slice (w : world) (c : CyLPConstraint.t)
    (var a : ref) (v : CyLPVar.t) (l : list Q) (dim start n : nat) :
  objects w !! var = Some (CVar v) ->
  CyLPVar.indices v = Some (seqZ (Z.of_nat start) (Z.of_nat n)) ->
  start + n <= dim ->
  CyLPConstraint.varCoefs c = [(var, VRef a)] ->
  objects w !! a = Some (CArr (Arr1 l)) -> length l = n ->
  CyLPConstraint.nRows c = Some 1%Z ->
  constraint_fragment (CyLPVar.name v) (Z.of_nat dim) c w
  = Ok (Arr1 (replicate start 0%Q ++ l ++ replicate (dim - start - n) 0%Q)) w.
Proof.
  intros Hv Hind Hle Hcoefs Ha Hl Hrows.
  unfold constraint_fragment. run. rewrite Hcoefs. cbn [map fst List.filter].
  rewrite Hv, String.eqb_refl, Hrows.
  unfold np_zeros. destruct (Z.ltb_spec (Z.of_nat dim) 0); [lia|]. run.
  cbn [fold_M]. run. rewrite (run_get_var var v) by done.
  unfold coef_array. run. rewrite Hcoefs. cbn [dict_get]. rewrite Nat.eqb_refl.
  unfold as_ndarray. rewrite Ha. run. rewrite Hind, Nat2Z.id.
  erewrite bind_ok by (by apply additem_slice). by run.
Qed.

Lemma vector_coefficient_lands_on_slice_witness :
  constraint_fragment "x" 3
    (CyLPConstraint.mk ["x"] [("x", 3%Z)] [(1, VRef 2)] VNone VNone (Some 1%Z) false [1])
    (final_world (slice_and_vector empty_world))
  = Ok (Arr1 [0%Q; 1%Q; 2%Q]) (final_world (slice_and_vector empty_world)).
Proof.
  apply (vector_coefficient_lands_on_slice (final_world (slice_and_vector empty_world))
           (CyLPConstraint.mk ["x"] [("x", 3%Z)] [(1, VRef 2)] VNone VNone (Some 1%Z) false [1])
           1 2 (slice_variable (new_variable "x" 3 false 0 [1%Q; 1%Q; 1%Q]) 0 1 1 3)
           [1%Q; 2%Q] 3 1 2).
  - vm_compute. reflexivity.
  - reflexivity.
  - lia.
  - reflexivity.
  - vm_compute. reflexivity.
  - reflexivity.
  - reflexivity.
Defined.

(** ** [addConstraint] and the model *)

Lemma model_kept_store m r c : preserves (same_model m) (store r c).
Proof. intros w H. exact H. Qed.

Lemma model_kept_alloc_self m mk : preserves (same_model m) (alloc_self mk).
Proof. intros w H. exact H. Qed.

Lemma model_kept_new_array m a : preserves (same_model m) (new_array a).
Proof. intros w H. exact H. Qed.

Ltac model_kept_by known :=
  repeat first
    [ known
    | apply preserves_ret | apply preserves_raise | apply preserves_get_heap
    | apply model_kept_store | apply model_kept_alloc_self | apply model_kept_new_array
    | apply preserves_bind; [|intros ?]
    | apply preserves_for_each; intros ?
    | apply preserves_fold_M; intros ? ?
    | progress cbv zeta
    | case_match ].

Lemma model_kept_np_ones m d : preserves (same_model m) (np_ones d).
Proof. unfold np_ones. model_kept_by fail. Qed.

Lemma model_kept_get_var m r : preserves (same_model m) (get_var r).
Proof. unfold get_var. model_kept_by fail. Qed.

Lemma model_kept_setitem m a i v : preserves (same_model m) (setitem a i v).
Proof. unfold setitem. model_kept_by fail. Qed.

Lemma model_kept_set_expr m r e : preserves (same_model m) (set_expr r e).
Proof. unfold set_expr. model_kept_by fail. Qed.

Lemma model_kept_CyLPExpr_init m o l r : preserves (same_model m) (CyLPExpr_init o l r).
Proof. unfold CyLPExpr_init. model_kept_by fail. Qed.

Ltac model_kept_known :=
  first [ apply model_kept_np_ones | apply model_kept_get_var | apply model_kept_setitem
        | apply model_kept_set_expr | apply model_kept_CyLPExpr_init ].

Lemma model_kept_negate_coef m c k : preserves (same_model m) (negate_coef c k).
Proof. unfold negate_coef. model_kept_by model_kept_known. Qed.

Lemma model_kept_ones_coef m b r v c : preserves (same_model m) (ones_coef b r v c).
Proof. unfold ones_coef. model_kept_by model_kept_known. Qed.

Lemma model_kept_write_bound m b v bound : preserves (same_model m) (write_bound b v bound).
Proof. unfold write_bound. model_kept_by model_kept_known. Qed.

Lemma model_kept_infinite_bound m b bound : preserves (same_model m) (infinite_bound b bound).
Proof. unfold infinite_bound, len. model_kept_by model_kept_known. Qed.

Lemma model_kept_perform m opr lft rgt c : preserves (same_model m) (perform opr lft rgt c).
Proof.
  unfold perform, perform_right, perform_left, perform_negate, perform_compare,
    perform_mul, perform_addsub.
  model_kept_by ltac:(first [ apply model_kept_negate_coef | apply model_kept_ones_coef
                            | apply model_kept_write_bound | apply model_kept_infinite_bound
                            | model_kept_known ]).
Qed.

Lemma model_kept_evaluate m e : preserves (same_model m) (evaluate e).
Proof.
  unfold evaluate, evaluate_token.
  model_kept_by ltac:(first [ apply model_kept_perform | model_kept_known ]).
Qed.

(** X18.  [evaluate] never changes the model.  [addConstraint]
    evaluates the expression; if the result is a range it stops there
    and the list of constraints is unchanged.  Otherwise it evaluates
    the expression a second time, on the state the first evaluation
    left, and it is the result of that second evaluation that is
    appended, at the end of the list; the list of variables is
    unchanged, and the store is the one the second evaluation left. *)
Theorem addConstraint_keeps_second_evaluation (w : world) (e : ref) :
  model (final_world (evaluate e w)) = model w
  /\ (forall c w1,
        evaluate e w = Ok c w1 -> CyLPConstraint.isRange c = true ->
        objects (final_world (addConstraint e w)) = objects w1
        /\ CyLPModel.constraints (model (final_world (addConstraint e w)))
           = CyLPModel.constraints (model w))
  /\ (forall c w1 c' w2,
        evaluate e w = Ok c w1 -> CyLPConstraint.isRange c = false ->
        evaluate e w1 = Ok c' w2 ->
        objects (final_world (addConstraint e w)) = objects w2
        /\ CyLPModel.constraints (model (final_world (addConstraint e w)))
           = CyLPModel.constraints (model w) ++ [c']
        /\ CyLPModel.variables (model (final_world (addConstraint e w)))
           = CyLPModel.variables (model w)).
Proof.
  assert (forall w0, model (final_world (evaluate e w0)) = model w0) as Hmodel.
  { intros w0. by apply (model_kept_evaluate (model w0) e w0). }
  split; [apply Hmodel|]. split.
  - intros c w1 Hev Hrange. unfold addConstraint. erewrite bind_ok by exact Hev.
    rewrite Hrange. simpl negb. cbv iota. run.
    assert (same_problem (objects w1) (CyLPModel.variables (model w1))
              (CyLPModel.constraints (model w1))
              (final_world (bind makeMatrices (fun _ => ret tt) w1))) as (Ho & _ & Hcs).
    { apply preserves_bind; [apply keeps_makeMatrices | intros; apply preserves_ret |].
      by split. }
    split; [exact Ho|]. rewrite Hcs.
    pose proof (Hmodel w) as Hm. rewrite Hev in Hm. simpl in Hm. by rewrite Hm.
  - intros c w1 c' w2 Hev Hrange Hev'. unfold addConstraint.
    erewrite bind_ok by exact Hev. rewrite Hrange. simpl negb. cbv iota. run.
    erewrite bind_ok by exact Hev'. run.
    pose proof (Hmodel w) as Hm1. rewrite Hev in Hm1. simpl in Hm1.
    pose proof (Hmodel w1) as Hm2. rewrite Hev' in Hm2. simpl in Hm2.
    change (bind (put_model ?m) ?k w2) with (k tt (mkWorld (objects w2) m)).
    cbv beta.
    match goal with
    | |- context [final_world (bind makeMatrices ?k ?w3)] =>
        assert (same_problem (objects w2) (CyLPModel.variables (model w))
                  (CyLPModel.constraints (model w) ++ [c'])
                  (final_world (bind makeMatrices k w3))) as (Ho & Hvs & Hcs)
    end.
    { apply preserves_bind; [apply keeps_makeMatrices | intros; apply preserves_ret |].
      split; [done|]. cbn [model]. rewrite Hm2, Hm1. by split. }
    done.
Qed.

Lemma addConstraint_keeps_second_evaluation_witness :
  CyLPModel.constraints
    (model (final_world
              (addConstraint 5 (final_world (slice_constraint (Arr1 [1%Q; 2%Q]) (Arr1 [5%Q])
                                               (fun e => ret e) empty_world)))))
  = CyLPModel.constraints
      (model (final_world (slice_constraint (Arr1 [1%Q; 2%Q]) (Arr1 [5%Q])
                             (fun e => ret e) empty_world)))
    ++ [CyLPConstraint.mk ["x"] [("x", 3%Z)] [(1, VRef 2)] (VRef 10) (VRef 4)
          (Some 1%Z) false [1]].
Proof.
  refine (proj1 (proj2 (proj2 (proj2
            (addConstraint_keeps_second_evaluation
               (final_world (slice_constraint (Arr1 [1%Q; 2%Q]) (Arr1 [5%Q])
                               (fun e => ret e) empty_world)) 5))
            (CyLPConstraint.mk ["x"] [("x", 3%Z)] [(1, VRef 2)] (VRef 7) (VRef 4)
               (Some 1%Z) false [1])
            (final_world (evaluate 5
               (final_world (slice_constraint (Arr1 [1%Q; 2%Q]) (Arr1 [5%Q])
                               (fun e => ret e) empty_world))))
            (CyLPConstraint.mk ["x"] [("x", 3%Z)] [(1, VRef 2)] (VRef 10) (VRef 4)
               (Some 1%Z) false [1])
            (final_world (evaluate 5 (final_world (evaluate 5
               (final_world (slice_constraint (Arr1 [1%Q; 2%Q]) (Arr1 [5%Q])
                               (fun e => ret e) empty_world))))))
            _ _ _))).
  - vm_compute. reflexivity.
  - reflexivity.
  - vm_compute. reflexivity.
Defined.

(** ** Sums and differences of two Variables *)

Lemma run_ones_coef {B} (k : CyLPConstraint.t -> M B) neg r v c w :
  (0 <= CyLPVar.dim v)%Z ->
  bind (ones_coef neg r v c) k w =
    k (add_name v (CyLPConstraint.set_nRows (Some 1%Z)
                     (set_coef r (VRef (length (objects w))) c)))
      (mkWorld (objects w
                ++ [CArr (Arr1 (replicate (Z.to_nat (CyLPVar.dim v))
                                  (if neg then (- 1)%Q else 1%Q)))])
         (model w)).
Proof.
  intros Hd. unfold ones_coef. run. rewrite run_np_ones by done. run.
  destruct neg; [by rewrite map_replicate | done].
Qed.

Lemma add_name_coefs v c :
  CyLPConstraint.varCoefs (add_name v c) = CyLPConstraint.varCoefs c
  /\ CyLPConstraint.nRows (add_name v c) = CyLPConstraint.nRows c
  /\ CyLPConstraint.isRange (add_name v c) = CyLPConstraint.isRange c
  /\ CyLPConstraint.lower (add_name v c) = CyLPConstraint.lower c
  /\ CyLPConstraint.upper (add_name v c) = CyLPConstraint.upper c
  /\ CyLPConstraint.variables (add_name v c) = CyLPConstraint.variables c.
Proof. unfold add_name. by destruct (str_in _ _). Qed.

(** X19.  [perform] on [x + y] or [x - y], for two distinct Variables
    that print differently and a constraint without coefficients,
    records a vector of ones for [x] and a vector of ones ([+]) or of
    minus ones ([-]) for [y], in that order, sets the row count to 1 and
    marks the constraint as not a range; existing objects are kept. *)
Theorem sum_or_difference_of_variables (w : world) (opr : string) (x y : ref)
    (xv yv : CyLPVar.t) (c : CyLPConstraint.t) :
  objects w !! x = Some (CVar xv) -> objects w !! y = Some (CVar yv) ->
  x <> y -> repr xv <> repr yv ->
  (0 <= CyLPVar.dim xv)%Z -> (0 <= CyLPVar.dim yv)%Z ->
  CyLPConstraint.varCoefs c = [] ->
  opr = "+" \/ opr = "-" ->
  exists c' w',
    perform opr (VRef x) (VRef y) c w = Ok c' w'
    /\ map fst (CyLPConstraint.varCoefs c') = [x; y]
    /\ coef_values w' c'
       = [Some (Arr1 (replicate (Z.to_nat (CyLPVar.dim xv)) 1%Q));
          Some (Arr1 (replicate (Z.to_nat (CyLPVar.dim yv))
                        (if String.eqb opr "-" then (- 1)%Q else 1%Q)))]
    /\ CyLPConstraint.nRows c' = Some 1%Z
    /\ CyLPConstraint.isRange c' = false
    /\ (forall k cell, objects w !! k = Some cell -> objects w' !! k = Some cell).
Proof.
  intros Hx Hy Hne Hrepr Hdx Hdy Hcoefs Hop.
  assert (x < length (objects w)) as Hltx by (by eapply lookup_lt_Some).
  assert (y < length (objects w)) as Hlty by (by eapply lookup_lt_Some).
  set (n := length (objects w)).
  set (ones_x := CArr (Arr1 (replicate (Z.to_nat (CyLPVar.dim xv)) 1%Q))).
  set (ones_y := CArr (Arr1 (replicate (Z.to_nat (CyLPVar.dim yv))
                               (if String.eqb opr "-" then (- 1)%Q else 1%Q)))).
  assert (forall l k cell, k < n -> objects w !! k = Some cell ->
            (objects w ++ l) !! k = Some cell) as Hold.
  { intros l k cell Hk Hcell. by rewrite lookup_app_l. }
  assert (exists c',
            perform opr (VRef x) (VRef y) c w
            = Ok c' (mkWorld (objects w ++ [ones_x; ones_y; ones_x]) (model w))
            /\ CyLPConstraint.varCoefs c' = [(x, VRef (2 + n)); (y, VRef (1 + n))]
            /\ CyLPConstraint.nRows c' = Some 1%Z
            /\ CyLPConstraint.isRange c' = false) as (c' & Hrun & Hc' & Hrows & Hrange).
  { unfold perform, perform_right. run. unfold as_CyLPVar at 1. rewrite Hy.
    assert (String.eqb opr "u-" = false /\ String.eqb opr "sum" = false
            /\ String.eqb opr "*" = false
            /\ (String.eqb opr "+" || String.eqb opr "-" = true)
            /\ (String.eqb opr "-" || String.eqb opr "+" = true)
            /\ is_comparison opr = false) as (-> & -> & -> & Hpm & Hmp & Hcmp)
      by (destruct Hop as [-> | ->]; done).
    cbv beta iota zeta. run. rewrite Hpm.
    unfold perform_addsub. cbv zeta. run. unfold as_CyLPVar at 1. rewrite Hx.
    rewrite run_ones_coef by done. run. cbn [objects]. fold n. fold ones_x.
    destruct (add_name_coefs xv
                (CyLPConstraint.set_nRows (Some 1%Z)
                   (set_coef x (VRef n) (CyLPConstraint.set_isRange false (add_name yv c)))))
      as (Hk1 & _).
    rewrite Hk1.
    cbn [CyLPConstraint.varCoefs CyLPConstraint.set_nRows set_coef
         CyLPConstraint.set_varCoefs CyLPConstraint.set_isRange].
    destruct (add_name_coefs yv c) as (Hk0 & _). rewrite Hk0, Hcoefs.
    cbn [dict_set map fst var_in existsb].
    assert (var_eq (objects w ++ [ones_x]) x y = false) as ->.
    { unfold var_eq. rewrite (Hold _ _ _ Hltx Hx), (Hold _ _ _ Hlty Hy).
      by apply String.eqb_neq. }
    assert ((x =? y)%nat = false) as -> by (by apply Nat.eqb_neq).
    cbn [orb]. rewrite run_ones_coef by done. run. cbn [objects].
    rewrite length_app. cbn [length]. fold n. fold ones_y.
    unfold perform_left. run. cbn [objects]. unfold as_CyLPVar at 1.
    rewrite <- app_assoc. rewrite (Hold _ _ _ Hltx Hx). rewrite Hmp.
    rewrite run_ones_coef by done. run. cbn [objects].
    rewrite !length_app. cbn [length]. fold n. fold ones_x.
    unfold perform_negate. run. cbn [objects]. unfold as_plain_CyLPExpr.
    rewrite <- app_assoc. rewrite (Hold _ _ _ Hlty Hy). run. rewrite Hcmp.
    eexists. split; [reflexivity|].
    assert (forall v c0, CyLPConstraint.varCoefs (add_name v c0) = CyLPConstraint.varCoefs c0)
      as Hvc by (intros; apply add_name_coefs).
    assert (forall v c0, CyLPConstraint.nRows (add_name v c0) = CyLPConstraint.nRows c0)
      as Hnr by (intros; apply add_name_coefs).
    assert (forall v c0, CyLPConstraint.isRange (add_name v c0) = CyLPConstraint.isRange c0)
      as Hir by (intros; apply add_name_coefs).
    rewrite Hvc, Hnr, Hir.
    cbn [CyLPConstraint.varCoefs CyLPConstraint.nRows CyLPConstraint.isRange
         CyLPConstraint.set_nRows set_coef CyLPConstraint.set_varCoefs
         CyLPConstraint.set_isRange].
    rewrite Hvc.
    cbn [CyLPConstraint.varCoefs CyLPConstraint.set_nRows set_coef
         CyLPConstraint.set_varCoefs CyLPConstraint.set_isRange].
    rewrite Hvc.
    cbn [CyLPConstraint.varCoefs CyLPConstraint.set_nRows set_coef
         CyLPConstraint.set_varCoefs CyLPConstraint.set_isRange].
    rewrite Hvc, Hcoefs. cbn [dict_set].
    assert ((x =? y)%nat = false) as -> by (by apply Nat.eqb_neq).
    cbn [dict_set]. rewrite Nat.eqb_refl.
    replace (n + (1 + 1)) with (2 + n) by lia. replace (n + 1) with (1 + n) by lia.
    done. }
  exists c', (mkWorld (objects w ++ [ones_x; ones_y; ones_x]) (model w)).
  split; [exact Hrun|]. split; [by rewrite Hc'|]. split.
  { unfold coef_values, as_ndarray. rewrite Hc'. cbn [map snd objects].
    replace ((objects w ++ [ones_x; ones_y; ones_x]) !! (2 + n)) with (Some ones_x).
    - replace ((objects w ++ [ones_x; ones_y; ones_x]) !! (1 + n)) with (Some ones_y); [done|].
      symmetry. rewrite lookup_app_r by (unfold n; lia).
      by replace (1 + n - length (objects w)) with 1 by (unfold n; lia).
    - symmetry. rewrite lookup_app_r by (unfold n; lia).
      by replace (2 + n - length (objects w)) with 2 by (unfold n; lia). }
  split; [done|]. split; [done|].
  intros k cell Hk. cbn [objects]. apply Hold; [|done]. by eapply lookup_lt_Some.
Qed.

Lemma sum_or_difference_of_variables_witness :
  exists c' w',
    perform "-" (VRef 0) (VRef 1) CyLPConstraint.init
      (final_world (two_variables empty_world)) = Ok c' w'
    /\ coef_values w' c' = [Some (Arr1 [1%Q; 1%Q; 1%Q]); Some (Arr1 [(- 1)%Q; (- 1)%Q])].
Proof.
  destruct (sum_or_difference_of_variables (final_world (two_variables empty_world)) "-" 0 1
              (new_variable "x" 3 false 0 [1%Q; 1%Q; 1%Q])
              (new_variable "y" 2 false 1 [1%Q; 1%Q]) CyLPConstraint.init
              ltac:(vm_compute; reflexivity) ltac:(vm_compute; reflexivity)
              ltac:(lia) ltac:(vm_compute; discriminate)
              ltac:(simpl; lia) ltac:(simpl; lia) ltac:(reflexivity)
              ltac:(right; reflexivity))
    as (c' & w' & H & _ & Hc & _).
  exists c', w'. split; [exact H | exact Hc].
Defined.

(** ** New variables, and a model without constraints *)

(** X20.  [addVariable] with a negative dimension raises [ValueError]
    and changes nothing.  Otherwise it creates one Variable with the
    given name, dimension and integrality, no parent and no indices,
    [expr] pointing at itself, every lower bound minus infinity and
    every upper bound plus infinity, and appends it to the model's list
    of variables. *)
Theorem addVariable_registers_unbounded (w : world) (name : string) (dim : Z) (isInt : bool) :
  ((dim < 0)%Z -> addVariable name dim isInt w = Raise ValueError w)
  /\ ((0 <= dim)%Z ->
      exists v,
        addVariable name dim isInt w
        = Ok (length (objects w))
             (mkWorld (objects w ++ [CVar v])
                (CyLPModel.set_variables (CyLPModel.variables (model w)
                                          ++ [length (objects w)]) (model w)))
        /\ CyLPVar.name v = name /\ CyLPVar.dim v = dim /\ CyLPVar.parentDim v = dim
        /\ CyLPVar.isInt v = isInt
        /\ CyLPVar.parent v = None /\ CyLPVar.indices v = None
        /\ CyLPVar.expr v = length (objects w)
        /\ CyLPVar.lower v = replicate (Z.to_nat dim) (Qopp getCoinInfinity)
        /\ CyLPVar.upper v = replicate (Z.to_nat dim) getCoinInfinity).
Proof.
  split.
  - intros Hd. unfold addVariable, CyLPVar_init, np_ones.
    destruct (Z.ltb_spec dim 0); [done | lia].
  - intros Hd. eexists. split.
    + unfold addVariable. erewrite bind_ok by (by apply CyLPVar_init_ok). run. reflexivity.
    + unfold new_variable. cbn [CyLPVar.name CyLPVar.dim CyLPVar.parentDim CyLPVar.isInt
        CyLPVar.parent CyLPVar.indices CyLPVar.expr CyLPVar.lower CyLPVar.upper].
      rewrite !scalar_ones. done.
Qed.

(** The loop of [makeMatrices] over the model's variables returns once
    every entry of the list is a Variable. *)
Lemma gather_variable_bounds_ok (f : CyLPVar.t -> list Q) (vs : list ref) w :
  Forall (fun v => exists x, objects w !! v = Some (CVar x)) vs ->
  forall acc,
    fold_M vs (fun acc v => x <- get_var v ;; ret (acc ++ f x)) acc w
    = Ok (acc ++ concat (map (fun v => match objects w !! v with
                                       | Some (CVar x) => f x
                                       | _ => []
                                       end) vs)) w.
Proof.
  induction 1 as [|v vs [x Hv] Hvs IH]; intros acc; simpl.
  - by rewrite app_nil_r.
  - rewrite run_assoc, (run_get_var v x) by done. run. rewrite IH, Hv. by rewrite app_assoc.
Qed.

(** X21.  On a model without constraints [makeMatrices] returns no
    matrix, empty row-bound vectors and the variables' bounds joined in
    order; the store is unchanged and the index bookkeeping is empty. *)
Theorem makeMatrices_without_constraints (w : world) :
  CyLPModel.constraints (model w) = [] ->
  Forall (fun v => exists x, objects w !! v = Some (CVar x)) (CyLPModel.variables (model w)) ->
  exists w',
    makeMatrices w
    = Ok (mkMatrices None [] []
            (concat (map (fun v => default [] (lower_of w v)) (CyLPModel.variables (model w))))
            (concat (map (fun v => default [] (upper_of w v)) (CyLPModel.variables (model w)))))
         w'
    /\ objects w' = objects w
    /\ model w' = CyLPModel.set_index [] [] 0 (model w).
Proof.
  intros Hcs Hvs.
  exists (mkWorld (objects w) (CyLPModel.set_index [] [] 0 (model w))).
  split; [|split; reflexivity].
  unfold makeMatrices, makeIndexFactory. run. rewrite Hcs.
  unfold put_model at 1. unfold bind at 1. cbn [for_each]. run.
  cbn [model CyLPModel.allVarNames CyLPModel.set_index for_each]. run.
  cbn [model CyLPModel.allVarNames CyLPModel.constraints CyLPModel.variables
       CyLPModel.set_index fold_M]. run. rewrite Hcs. cbn [fold_M]. run.
  erewrite bind_ok by (by apply (gather_variable_bounds_ok CyLPVar.lower)). 
  erewrite bind_ok by (by apply (gather_variable_bounds_ok CyLPVar.upper)).
  run. unfold ret. f_equal. cbn [objects app]. unfold lower_of, upper_of.
  f_equal; f_equal; apply map_ext; intros v; by destruct (objects w !! v) as [[]|].
Qed.

Lemma makeMatrices_without_constraints_witness :
  exists w',
    makeMatrices (final_world (one_variable empty_world))
    = Ok (mkMatrices None [] []
            (concat (map (fun v => default [] (lower_of (final_world (one_variable empty_world)) v))
                       [0]))
            (concat (map (fun v => default [] (upper_of (final_world (one_variable empty_world)) v))
                       [0])))
         w'.
Proof.
  destruct (makeMatrices_without_constraints (final_world (one_variable empty_world))
              ltac:(reflexivity)
              ltac:(repeat constructor; eexists; vm_compute; reflexivity))
    as (w' & H & _).
  exists w'. exact H.
Defined.

(** ** [IndexFactory.__repr__] *)

Lemma string_app_cons (x : Ascii.ascii) (a b : string) :
  String x a +:+ b = String x (a +:+ b).
Proof. reflexivity. Qed.

Lemma string_app_assoc (a b c : string) : (a +:+ b) +:+ c = a +:+ (b +:+ c).
Proof. induction a as [|x a IH]; [done|]. by rewrite !string_app_cons, IH. Qed.

Lemma string_app_empty (a : string) : a +:+ "" = a.
Proof. induction a as [|x a IH]; [done|]. by rewrite string_app_cons, IH. Qed.

Lemma lines_appended (items : list (string * list Z)) : forall s,
  fold_left (fun s item => s +:+ index_line item) items s = s +:+ index_lines items.
Proof.
  induction items as [|x items IH]; intros s; simpl.
  - by rewrite string_app_empty.
  - by rewrite IH, string_app_assoc.
Qed.

(** X22.  [IndexFactory.__repr__] assigns, not appends, in its loop
    over the variable ranges: with no variable registered the text
    starts with the header of the variables; with at least one, the
    header and every line but that of the item visited last are lost.
    The part for the constraints has its header and all its lines. *)
Theorem repr_keeps_one_variable_line (f : IndexFactory.t) :
  (IndexFactory.varIndex f = [] ->
   IndexFactory_repr f
   = "variables : " +:+ newline +:+ newline +:+ "constraints : " +:+ newline
     +:+ index_lines (IndexFactory.constIndex f))
  /\ (forall items item,
        IndexFactory.varIndex f = items ++ [item] ->
        IndexFactory_repr f
        = index_line item +:+ newline +:+ "constraints : " +:+ newline
          +:+ index_lines (IndexFactory.constIndex f)).
Proof.
  unfold IndexFactory_repr. split.
  - intros ->. cbn [fold_left]. rewrite lines_appended. by rewrite !string_app_assoc.
  - intros items item ->. rewrite fold_left_app. cbn [fold_left].
    rewrite lines_appended. by rewrite !string_app_assoc.
Qed.

Example IndexFactory_repr_usage :
  IndexFactory_repr (addConst "Gold" 2 (addVar "y" 2 (addVar "x" 3 IndexFactory.init)))
  = "              y : [3, 4]" +:+ newline +:+ newline
    +:+ "constraints : " +:+ newline
    +:+ "           Gold : [0, 1]" +:+ newline.
Proof. vm_compute. reflexivity. Qed.

(** ** A number times a Variable, compared with a number *)

Lemma getPostfix_product_compared h e n v x opr q c se sn :
  h !! e = Some (CExpr (CyLPExpr.mk (VStr opr) (VRef n) (VNum c) se)) ->
  h !! n = Some (CExpr (CyLPExpr.mk (VStr "*") (VNum q) (VRef v) sn)) ->
  h !! v = Some (CVar x) ->
  getPostfix (length h) h e = Some [VNum q; VRef v; VStr "*"; VNum c; VStr opr].
Proof.
  intros He Hn Hv. apply (getPostfix_more_fuel h 3).
  - simpl. rewrite He. simpl. rewrite Hn. simpl. rewrite Hv. simpl. reflexivity.
  - assert (e <> n) by (intros ->; congruence).
    assert (e <> v) by (intros ->; congruence).
    assert (n <> v) by (intros ->; congruence).
    apply lookup_lt_Some in He, Hn, Hv. lia.
Qed.

Lemma evaluate_scaled_bound (w : world) (e n v : ref) (x : CyLPVar.t) (opr : string)
    (q c : Q) (se sn : ref) :
  objects w !! e = Some (CExpr (CyLPExpr.mk (VStr opr) (VRef n) (VNum c) se)) ->
  objects w !! n = Some (CExpr (CyLPExpr.mk (VStr "*") (VNum q) (VRef v) sn)) ->
  objects w !! v = Some (CVar x) ->
  (0 <= CyLPVar.dim x)%Z ->
  opr = ">=" \/ opr = "<=" ->
  let d := Z.to_nat (CyLPVar.dim x) in
  let a := length (objects w) in
  let inf := if String.eqb opr ">=" then getCoinInfinity else Qopp getCoinInfinity in
  let cons := CyLPConstraint.set_isRange false
                (set_coef v (VRef a)
                   (CyLPConstraint.set_nRows (Some 1%Z)
                      (add_name x (CyLPConstraint.set_variables [v] CyLPConstraint.init)))) in
  evaluate e w =
    Ok (if String.eqb opr ">="
        then CyLPConstraint.set_upper (VRef (3 + a))
               (CyLPConstraint.set_lower (VRef (2 + a)) cons)
        else CyLPConstraint.set_lower (VRef (3 + a))
               (CyLPConstraint.set_upper (VRef (2 + a)) cons))
       (mkWorld (<[v := CVar (CyLPVar.set_expr v x)]>
                   (objects w
                    ++ [CArr (Arr1 (replicate d q));
                        CExpr (CyLPExpr.mk (VStr "*") (VNum q) (VRef v) (1 + a));
                        CArr (Arr1 [c]);
                        CArr (Arr1 [inf]);
                        CExpr (CyLPExpr.mk (VStr opr) (VRef (1 + a)) (VNum c) (4 + a))]))
          (model w)).
Proof.
  intros He Hn Hv Hdim Hop d a inf cons.
  assert (is_comparison opr = true) as Hcmp by (by destruct Hop as [-> | ->]).
  assert (v < length (objects w)) as Hlt by (by eapply lookup_lt_Some).
  unfold evaluate. run.
  rewrite (getPostfix_product_compared _ _ _ _ _ _ _ _ _ _ He Hn Hv).
  cbn [fold_M]. run.
  erewrite bind_ok by (by apply evaluate_token_constant). run.
  destruct (evaluate_token_variable [VNum q] CyLPConstraint.init v x w Hv)
    as (c1 & Ht1 & Hc1 & _).
  rewrite (Hc1 eq_refl) in Ht1. clear Hc1 c1.
  erewrite bind_ok by exact Ht1. run.
  erewrite bind_ok; cycle 1.
  { unfold evaluate_token. cbn [fst snd as_operator str_in existsb CyLPExpr.operators
      String.eqb Ascii.eqb Bool.eqb orb]. cbv beta iota.
    erewrite bind_ok; cycle 1.
    { rewrite (perform_mul_scalar w _ q (VRef v) v x); [reflexivity | | done].
      unfold as_CyLPVar. by rewrite Hv. }
    run. reflexivity. }
  run. cbn [objects model]. fold d.
  rewrite length_app. cbn [length]. fold a. replace (a + 1) with (1 + a) by lia. fold cons.
  set (h1 := (objects w ++ [CArr (Arr1 (replicate d q))])
             ++ [CExpr (CyLPExpr.mk (VStr "*") (VNum q) (VRef v) (1 + a))]).
  assert (length h1 = 2 + a) as Hlen1.
  { unfold h1. rewrite !length_app. simpl. unfold a. lia. }
  erewrite bind_ok by (apply evaluate_token_constant; done). run.
  erewrite bind_ok; cycle 1.
  { rewrite evaluate_token_comparison by done. run.
    erewrite bind_ok; cycle 1.
    { rewrite perform_number_comparison by done.
      eapply (perform_compare_rows _ opr _ c _ 1%Z); try done.
      cbn [objects]. unfold isinstance_CyLPExpr, h1.
      rewrite list_lookup_middle; [done|]. rewrite length_app. simpl. unfold a. lia. }
    run. reflexivity. }
  run. cbn [fst snd objects model]. rewrite Hlen1. fold inf.
  change (Z.to_nat 1) with 1. cbn [replicate].
  set (h2 := (h1 ++ [CArr (Arr1 [c])] ++ [CArr (Arr1 [inf])])).
  assert (length h2 = 4 + a) as Hlen2.
  { unfold h2. rewrite !length_app, Hlen1. simpl. lia. }
  rewrite Hlen2.
  assert (as_CyLPVar (h2 ++ [CExpr (CyLPExpr.mk (VStr opr) (VRef (1 + a)) (VNum c) (4 + a))])
            (VRef (4 + a)) = None) as ->.
  { unfold as_CyLPVar. by rewrite list_lookup_middle. }
  run.
  assert (CyLPConstraint.varCoefs
            (if String.eqb opr ">="
             then CyLPConstraint.set_upper (VRef (S (2 + a)))
                    (CyLPConstraint.set_lower (VRef (2 + a)) cons)
             else CyLPConstraint.set_lower (VRef (S (2 + a)))
                    (CyLPConstraint.set_upper (VRef (2 + a)) cons))
          = [(v, VRef a)]) as Hkeys.
  { unfold cons, add_name. by destruct (String.eqb opr ">="). }
  rewrite Hkeys. cbn [map fst for_each]. unfold set_expr. run. cbn [objects].
  assert (forall l, (h2 ++ l) !! v = Some (CVar x)) as Hv1.
  { intros l. rewrite lookup_app_l by lia. unfold h2, h1.
    rewrite !lookup_app_l; [done | lia | rewrite length_app; lia
                           | rewrite !length_app; simpl; lia]. }
  rewrite Hv1. run. cbn [objects model].
  unfold h2, h1. rewrite <- !app_assoc. reflexivity.
Qed.

(** X23.  Evaluating [q * x >= c] or [q * x <= c] for numbers [q], [c]
    and a Variable [x] (sliced or not) gives a constraint of one row
    that is not a range, names [x], has the vector of [dim] entries [q]
    as its only coefficient, the one-entry bound [c] on the side
    compared with and an infinite one on the other; [x.expr] is reset
    to [x]. *)
Theorem scaled_variable_is_one_row (w : world) (e n v se sn : ref) (x : CyLPVar.t)
    (opr : string) (q c : Q) :
  objects w !! e = Some (CExpr (CyLPExpr.mk (VStr opr) (VRef n) (VNum c) se)) ->
  objects w !! n = Some (CExpr (CyLPExpr.mk (VStr "*") (VNum q) (VRef v) sn)) ->
  objects w !! v = Some (CVar x) ->
  (0 <= CyLPVar.dim x)%Z ->
  opr = ">=" \/ opr = "<=" ->
  exists cons w',
    evaluate e w = Ok cons w'
    /\ CyLPConstraint.isRange cons = false
    /\ CyLPConstraint.nRows cons = Some 1%Z
    /\ CyLPConstraint.varNames cons = [CyLPVar.name x]
    /\ coef_values w' cons = [Some (Arr1 (replicate (Z.to_nat (CyLPVar.dim x)) q))]
    /\ one_sided opr 1 c (bound_of w' (CyLPConstraint.lower cons))
         (bound_of w' (CyLPConstraint.upper cons))
    /\ expr_of w' v = Some v.
Proof.
  intros He Hn Hv Hdim Hop.
  assert (v < length (objects w)) as Hlt by (by eapply lookup_lt_Some).
  pose proof (evaluate_scaled_bound w e n v x opr q c se sn He Hn Hv Hdim Hop) as Hev.
  cbv zeta in Hev.
  eexists _, _. split; [exact Hev|].
  set (a := length (objects w)) in *.
  assert (forall (l : list cell) k idx cell, idx = a + k -> k < length l ->
            (<[v := cell]> (objects w ++ l)) !! idx = l !! k) as Hl.
  { intros l k idx cell -> Hk. unfold a. rewrite list_lookup_insert_ne by lia.
    rewrite lookup_app_r by lia. f_equal. lia. }
  match type of Hev with
  | _ = Ok _ (mkWorld ?h _) =>
      assert (h !! a = Some (CArr (Arr1 (replicate (Z.to_nat (CyLPVar.dim x)) q))))
        as H0 by (etrans; [apply (Hl _ 0); [lia | simpl; lia] | reflexivity]);
      assert (h !! (2 + a) = Some (CArr (Arr1 [c])))
        as H2 by (etrans; [apply (Hl _ 2); [lia | simpl; lia] | reflexivity]);
      assert (h !! (3 + a)
              = Some (CArr (Arr1 [if String.eqb opr ">=" then getCoinInfinity
                                  else Qopp getCoinInfinity])))
        as H3 by (etrans; [apply (Hl _ 3); [lia | simpl; lia] | reflexivity])
  end.
  split; [by destruct (String.eqb opr ">=")|].
  split; [by destruct (String.eqb opr ">=")|].
  split; [by destruct (String.eqb opr ">=")|].
  split.
  { unfold coef_values, as_ndarray. cbn [objects].
    replace (CyLPConstraint.varCoefs _) with [(v, VRef a)].
    - cbn [map snd]. by rewrite H0.
    - by destruct (String.eqb opr ">="). }
  split.
  { unfold bound_of, as_ndarray. cbn [objects].
    destruct Hop as [-> | ->]; simpl String.eqb in *; cbv beta iota in *;
      cbn [CyLPConstraint.lower CyLPConstraint.upper CyLPConstraint.set_lower
           CyLPConstraint.set_upper];
      rewrite H2, H3; split; intros Heq; try done. }
  unfold expr_of. cbn [objects].
  rewrite list_lookup_insert_eq by (rewrite length_app; lia). reflexivity.
Qed.

Lemma scaled_variable_is_one_row_witness :
  exists cons w',
    evaluate 2 (final_world (twice_at_most_five empty_world)) = Ok cons w'
    /\ CyLPConstraint.nRows cons = Some 1%Z
    /\ coef_values w' cons = [Some (Arr1 [2%Q; 2%Q; 2%Q])]
    /\ bound_of w' (CyLPConstraint.upper cons) = Some (Arr1 [5%Q]).
Proof.
  destruct (scaled_variable_is_one_row (final_world (twice_at_most_five empty_world))
              2 1 0 2 2 (CyLPVar.set_expr 1 (new_variable "x" 3 false 0 [1%Q; 1%Q; 1%Q]))
              "<=" 2%Q 5%Q
              ltac:(vm_compute; reflexivity) ltac:(vm_compute; reflexivity)
              ltac:(vm_compute; reflexivity) ltac:(simpl; lia) ltac:(right; reflexivity))
    as (cons & w' & H & _ & Hn & _ & Hc & [_ Hb] & _).
  exists cons, w'. split; [exact H|]. split; [exact Hn|]. split; [exact Hc|].
  exact (proj1 (Hb eq_refl)).
Defined.

(** ** Looking up what [addConst] stored *)

(** X24.  [addConst name n] with [n = 0] changes nothing.  With
    [n <> 0] the name is known afterwards, its range is the range it had
    followed by the [n] indices that start at the running constraint
    index, which advances by [n].  Other names keep their ranges, and
    the variable side of the factory is untouched. *)
Theorem addConst_then_lookup (f : IndexFactory.t) (constName : string) (n : Z) :
  (n = 0%Z -> addConst constName n f = f)
  /\ (n <> 0%Z ->
      hasConst constName (addConst constName n f) = true
      /\ dict_get String.eqb constName (IndexFactory.constIndex (addConst constName n f))
         = Some (range_of constName (IndexFactory.constIndex f)
                 ++ range (IndexFactory.currentConstIndex f) n)
      /\ IndexFactory.currentConstIndex (addConst constName n f)
         = (IndexFactory.currentConstIndex f + n)%Z)
  /\ (forall other, other <> constName ->
        dict_get String.eqb other (IndexFactory.constIndex (addConst constName n f))
        = dict_get String.eqb other (IndexFactory.constIndex f))
  /\ IndexFactory.varIndex (addConst constName n f) = IndexFactory.varIndex f
  /\ IndexFactory.currentVarIndex (addConst constName n f) = IndexFactory.currentVarIndex f.
Proof.
  split; [|split; [|split]].
  - intros ->. unfold addConst, add_range. simpl. by destruct f.
  - intros Hn. unfold hasConst, dict_has, addConst.
    destruct (add_range_lookup constName n (IndexFactory.constIndex f)
                (IndexFactory.currentConstIndex f) Hn) as [Hget _].
    unfold add_range in *. destruct (Z.eqb_spec n 0); [done|]. simpl in *.
    rewrite Hget. done.
  - intros other Hne. unfold addConst.
    destruct (Z.eq_dec n 0%Z) as [->|Hn]; [unfold add_range; by simpl|].
    destruct (add_range_lookup constName n (IndexFactory.constIndex f)
                (IndexFactory.currentConstIndex f) Hn) as [_ Hother].
    specialize (Hother other Hne).
    destruct (add_range _ _ _ _). exact Hother.
  - unfold addConst. by destruct (add_range _ _ _ _).
Qed.

(** ** [==] *)

Lemma perform_equality_range w lft v x c cons vs :
  isinstance_CyLPExpr (objects w) lft = true ->
  objects w !! v = Some (CVar x) ->
  CyLPVar.parent x = None -> CyLPVar.indices x = None ->
  (0 <= CyLPVar.parentDim x)%Z ->
  length (CyLPVar.lower x) = Z.to_nat (CyLPVar.parentDim x) ->
  length (CyLPVar.upper x) = Z.to_nat (CyLPVar.parentDim x) ->
  CyLPConstraint.isRange cons = true ->
  CyLPConstraint.variables cons = v :: vs ->
  let vals := replicate (Z.to_nat (CyLPVar.parentDim x)) c in
  perform "==" lft (VNum c) cons w =
    Ok (CyLPConstraint.set_nRows (Some (CyLPVar.parentDim x)) cons)
       (mkWorld (<[v := CVar (CyLPVar.set_upper vals (CyLPVar.set_lower vals x))]>
                   (objects w ++ [CArr (Arr1 vals)])) (model w)).
Proof.
  intros Hl Hv Hpar Hind Hdim Hlo Hup Hrange Hvars vals.
  rewrite perform_number_comparison by done.
  assert (v < length (objects w)) as Hlt by (by eapply lookup_lt_Some).
  unfold perform_compare. run.
  rewrite Hl. simpl isinstance_CyLPExpr. simpl andb.
  run. rewrite Hrange, Hvars. run.
  rewrite (run_get_var v x) by done. run. simpl fst. simpl snd. simpl as_number.
  cbv beta iota. run.
  rewrite run_np_ones by done. run. rewrite scalar_ones. fold vals.
  cbn [CyLPConstraint.isRange CyLPConstraint.variables CyLPConstraint.set_nRows].
  rewrite Hrange, Hvars.
  cbn [str_in existsb String.eqb Ascii.eqb Bool.eqb orb andb].
  set (w1 := mkWorld (objects w ++ [CArr (Arr1 vals)]) (model w)).
  assert (length vals = Z.to_nat (CyLPVar.parentDim x)) as Hlen
    by (unfold vals; by rewrite length_replicate).
  erewrite bind_ok; cycle 1.
  { apply (write_bound_bare w1 true v x _ vals); try done.
    - unfold w1. cbn [objects]. by rewrite lookup_app_l.
    - unfold bound_values, as_ndarray, w1. cbn [objects]. by rewrite list_lookup_middle.
    - by rewrite Hlen. }
  erewrite bind_ok; cycle 1.
  { apply (write_bound_bare _ false v (CyLPVar.set_lower vals x) _ vals); try done.
    - cbn [objects]. apply list_lookup_insert_eq. unfold w1. cbn [objects].
      rewrite length_app. lia.
    - unfold bound_values, as_ndarray, w1. cbn [objects].
      rewrite list_lookup_insert_ne by lia. by rewrite list_lookup_middle.
    - cbn [CyLPVar.upper CyLPVar.set_lower]. by rewrite Hlen. }
  run. cbn [objects model]. rewrite list_insert_insert_eq. reflexivity.
Qed.

(** X25.  [==] between two Variables is a Python test: it returns
    whether the two print the same, builds no node and changes nothing.
    Between an unsliced Variable [x] and a number [c] it builds a node
    whose evaluation returns a range constraint without coefficients
    and sets every entry of both bound arrays of [x] to [c]. *)
Theorem equality_tests_or_fixes (w : world) (v : ref) (x : CyLPVar.t) :
  objects w !! v = Some (CVar x) ->
  (forall y yv, objects w !! y = Some (CVar yv) ->
     CyLPExpr_eq v (VRef y) w
     = Ok (VNum (if String.eqb (repr x) (repr yv) then 1 else 0)%Q) w)
  /\ (forall e c self,
        objects w !! e = Some (CExpr (CyLPExpr.mk (VStr "==") (VRef v) (VNum c) self)) ->
        CyLPVar.parent x = None -> CyLPVar.indices x = None ->
        CyLPVar.parentDim x = CyLPVar.dim x -> (0 <= CyLPVar.dim x)%Z ->
        length (CyLPVar.lower x) = Z.to_nat (CyLPVar.dim x) ->
        length (CyLPVar.upper x) = Z.to_nat (CyLPVar.dim x) ->
        exists cons w2,
          evaluate e w = Ok cons w2
          /\ CyLPConstraint.isRange cons = true
          /\ CyLPConstraint.varCoefs cons = []
          /\ lower_of w2 v = Some (replicate (Z.to_nat (CyLPVar.dim x)) c)
          /\ upper_of w2 v = Some (replicate (Z.to_nat (CyLPVar.dim x)) c)).
Proof.
  intros Hv. split.
  - intros y yv Hy. unfold CyLPExpr_eq. run. unfold as_CyLPVar. by rewrite Hv, Hy.
  - intros e c self He Hpar Hind Hpd Hdim Hlo Hup.
    assert (v < length (objects w)) as Hlt by (by eapply lookup_lt_Some).
    set (vals := replicate (Z.to_nat (CyLPVar.dim x)) c).
    assert (evaluate e w =
              Ok (CyLPConstraint.set_nRows (Some (CyLPVar.dim x))
                    (CyLPConstraint.set_variables [v] CyLPConstraint.init))
                 (mkWorld
                    (<[v := CVar (CyLPVar.set_upper vals (CyLPVar.set_lower vals x))]>
                       (objects w ++ [CArr (Arr1 vals)])
                     ++ [CExpr (CyLPExpr.mk (VStr "==") (VRef v) (VNum c)
                                  (S (length (objects w))))])
                    (model w))) as Hev.
    { unfold evaluate. run.
      erewrite getPostfix_leaves; [|exact He|by eapply variable_leaf|done].
      cbn [fold_M]. run.
      destruct (evaluate_token_variable [] CyLPConstraint.init v x w Hv)
        as (c1 & Ht1 & Hc1 & _).
      rewrite (Hc1 eq_refl) in Ht1. clear Hc1 c1.
      erewrite bind_ok by exact Ht1. run.
      erewrite bind_ok by (by apply evaluate_token_constant). run.
      erewrite bind_ok; cycle 1.
      { rewrite evaluate_token_comparison by done. run.
        erewrite bind_ok; cycle 1.
        { eapply (perform_equality_range w (VRef v) v x c); try done.
          - by eapply variable_symbolic.
          - by rewrite Hpd.
          - by rewrite Hpd.
          - by rewrite Hpd. }
        run. reflexivity. }
      run. rewrite Hpd. fold vals. cbn [fst snd objects].
      rewrite length_insert, length_app. cbn [length].
      replace (length (objects w) + 1) with (S (length (objects w))) by lia.
      replace (as_CyLPVar _ _) with (@None (nat * CyLPVar.t)).
      - reflexivity.
      - unfold as_CyLPVar.
        rewrite lookup_app_r by (rewrite length_insert, length_app; simpl; lia).
        rewrite length_insert, length_app. simpl.
        by replace (S (length (objects w)) - (length (objects w) + 1)) with 0 by lia. }
    eexists _, _. split; [exact Hev|]. split; [done|]. split; [done|].
    unfold lower_of, upper_of. cbn [objects].
    rewrite lookup_app_l by (rewrite length_insert, length_app; lia).
    rewrite list_lookup_insert_eq by (rewrite length_app; lia). done.
Qed.

Lemma equality_tests_or_fixes_witness :
  exists cons w2,
    evaluate 1 (final_world (fixed_y empty_world)) = Ok cons w2
    /\ lower_of w2 0 = Some [4%Q; 4%Q]
    /\ upper_of w2 0 = Some [4%Q; 4%Q].
Proof.
  destruct (proj2 (equality_tests_or_fixes (final_world (fixed_y empty_world)) 0
                     (CyLPVar.set_expr 1 (new_variable "y" 2 false 0 [1%Q; 1%Q]))
                     ltac:(vm_compute; reflexivity))
              1 4%Q 1
              ltac:(vm_compute; reflexivity) ltac:(reflexivity) ltac:(reflexivity)
              ltac:(reflexivity) ltac:(simpl; lia) ltac:(reflexivity) ltac:(reflexivity))
    as (cons & w2 & H & _ & _ & Hlo & Hup).
  exists cons, w2. split; [exact H|]. split; [exact Hlo | exact Hup].
Defined.

(** * Comparisons with built-up sides *)












(** ** The store only grows under [perform] *)
















(** ** The operand stack while the tokens of one side are processed *)










(** ** Evaluating a comparison of built-up sides *)










